(** * Parallel algorithms of OpenMP-HPC-Examples: reduction, transform, merge sort

    A shallow embedding of [src/parallel_algorithms.c].  The C arrays of
    [double] are lists indexed by the C [int] indices (in [Z]).  The code
    only compares values with [<=], [<], [>] and combines them with [+] and
    [*]: the value type and these operations are parameters of the
    embedding.  For the C type [double] the comparisons are those of
    IEEE 754 binary64 ([SFleb], [SFltb]), where every comparison with a NaN
    is false; what a property needs of the comparisons or of the arithmetic
    (values that compare one way or the other, associative and commutative
    operators) is a hypothesis of its statement. *)

From Stdlib Require Import ZArith Lia Bool Sorted Permutation SpecFloat.
From stdpp Require Import base list.

Local Open Scope Z_scope.

(** ** Arrays *)

Section Arrays.
Context {V : Type}.
Variable undef : V.

(** [a[i]]: a read outside the array yields the indeterminate [undef]. *)
Definition rd (a : list V) (i : Z) : V :=
  if i <? 0 then undef else default undef (a !! Z.to_nat i).

(** [a[i] = x]: a write outside the array is dropped. *)
Definition wr (a : list V) (i : Z) (x : V) : list V :=
  if i <? 0 then a else <[Z.to_nat i := x]> a.

(** The elements [a[lo]], ..., [a[hi-1]]. *)
Definition slice (a : list V) (lo hi : Z) : list V :=
  take (Z.to_nat (hi - lo)) (drop (Z.to_nat lo) a).
End Arrays.

(** ** The sorter: [merge], [mergesort_serial], [mergesort_parallel],
    [parallel_sort] *)

(** The shape of the task tree that a call of [mergesort_parallel] unfolds:
    a task either runs the sequential sort on its range or forks two
    subtasks with the depth budget decreased by one. *)
Inductive task : Type :=
  | Sequential (left right : Z)
  | Forked (left mid right depth : Z) (first second : task).

(** Whether the task ran the sequential fallback. *)
Definition is_sequential (t : task) : bool :=
  match t with
  | Sequential _ _ => true
  | Forked _ _ _ _ _ _ => false
  end.

(** What [malloc(size * sizeof(double))] can return: a null pointer, or a
    block that holds [size] values. *)
Definition allocated {V : Type} (buffer : option (list V)) (size : Z) : Prop :=
  match buffer with
  | None => True
  | Some temp => Z.of_nat (length temp) = size
  end.

Section Sorter.
Context {V : Type}.
Variable undef : V.
(** The comparison [x <= y] of the value type. *)
Variable leb : V -> V -> bool.

Abbreviation rd := (rd undef).

(** [while (i <= mid && j <= right) ...] of [merge]; [n] bounds the number
    of iterations. *)
Fixpoint merge_while (n : nat) (arr temp : list V) (mid right i j k : Z)
  : list V * Z * Z * Z :=
  match n with
  | O => (temp, i, j, k)
  | S n' =>
      if (i <=? mid) && (j <=? right) then
        if leb (rd arr i) (rd arr j)
        then merge_while n' arr (wr temp k (rd arr i)) mid right (i + 1) j (k + 1)
        else merge_while n' arr (wr temp k (rd arr j)) mid right i (j + 1) (k + 1)
      else (temp, i, j, k)
  end.

(** [while (i <= hi) temp[k++] = arr[i++];] *)
Fixpoint copy_while (n : nat) (arr temp : list V) (hi i k : Z)
  : list V * Z * Z :=
  match n with
  | O => (temp, i, k)
  | S n' =>
      if i <=? hi
      then copy_while n' arr (wr temp k (rd arr i)) hi (i + 1) (k + 1)
      else (temp, i, k)
  end.

(** [for (i = left; i <= right; i++) arr[i] = temp[i];] *)
Fixpoint copy_back (n : nat) (arr temp : list V) (right i : Z) : list V :=
  match n with
  | O => arr
  | S n' =>
      if i <=? right
      then copy_back n' (wr arr i (rd temp i)) temp right (i + 1)
      else arr
  end.

(** [merge(arr, temp, left, mid, right)]: the final contents of [arr] and
    of [temp].  Each loop gets as many iterations as its counters leave
    room for. *)
Definition merge (arr temp : list V) (left mid right : Z) : list V * list V :=
  let i := left in
  let j := mid + 1 in
  let k := left in
  let '(temp, i, j, k) :=
    merge_while (Z.to_nat (mid + 1 - i) + Z.to_nat (right + 1 - j))
      arr temp mid right i j k in
  let '(temp, i, k) := copy_while (Z.to_nat (mid + 1 - i)) arr temp mid i k in
  let '(temp, j, k) := copy_while (Z.to_nat (right + 1 - j)) arr temp right j k in
  (copy_back (Z.to_nat (right + 1 - left)) arr temp right left, temp).

(** [mergesort_serial]; the recursion is on [n], at least [right - left]:
    both halves of a range are shorter than the range, so [n] reaches 0 only
    once [left < right] fails. *)
Fixpoint mergesort_serial_rec (n : nat) (arr temp : list V) (left right : Z)
  : list V * list V :=
  match n with
  | O => (arr, temp)
  | S n' =>
      if left <? right then
        let mid := left + Z.quot (right - left) 2 in
        let '(arr, temp) := mergesort_serial_rec n' arr temp left mid in
        let '(arr, temp) := mergesort_serial_rec n' arr temp (mid + 1) right in
        merge arr temp left mid right
      else (arr, temp)
  end.

Definition mergesort_serial (arr temp : list V) (left right : Z)
  : list V * list V :=
  mergesort_serial_rec (Z.to_nat (right - left)) arr temp left right.

(** The cutoff constant of [mergesort_parallel]. *)
Definition CUTOFF : Z := 1000.

(** The two subtasks of a fork run concurrently; [sched left right] tells
    which of the two a run completes first ([true]: the left half). *)
Variable sched : Z -> Z -> bool.

(** [mergesort_parallel]; the recursion is on [n], the depth budget as a
    natural number: it reaches 0 only with [depth <= 0], which the first
    test catches.  The result carries the task tree next to the two
    arrays. *)
Fixpoint mergesort_parallel_rec (n : nat) (arr temp : list V)
    (left right depth : Z) : list V * list V * task :=
  if (depth <=? 0) || (right - left <=? CUTOFF) then
    (mergesort_serial arr temp left right, Sequential left right)
  else
    match n with
    | O => (arr, temp, Sequential left right)
    | S n' =>
        if left <? right then
          let mid := left + Z.quot (right - left) 2 in
          if sched left right then
            let '(arr, temp, t1) :=
              mergesort_parallel_rec n' arr temp left mid (depth - 1) in
            let '(arr, temp, t2) :=
              mergesort_parallel_rec n' arr temp (mid + 1) right (depth - 1) in
            (merge arr temp left mid right, Forked left mid right depth t1 t2)
          else
            let '(arr, temp, t2) :=
              mergesort_parallel_rec n' arr temp (mid + 1) right (depth - 1) in
            let '(arr, temp, t1) :=
              mergesort_parallel_rec n' arr temp left mid (depth - 1) in
            (merge arr temp left mid right, Forked left mid right depth t1 t2)
        else (arr, temp, Sequential left right)
    end.

Definition mergesort_parallel (arr temp : list V) (left right depth : Z)
  : list V * list V * task :=
  mergesort_parallel_rec (Z.to_nat depth) arr temp left right depth.

(** [parallel_sort(arr, size)].  [buffer] is what [malloc] returned:
    [None] for a null pointer, otherwise the fresh buffer with its
    indeterminate contents; [max_threads] is [omp_get_max_threads()]. *)
Definition parallel_sort (buffer : option (list V)) (max_threads : Z)
    (arr : list V) (size : Z) : list V :=
  match buffer with
  | None => arr
  | Some temp => (mergesort_parallel arr temp 0 (size - 1) max_threads).1.1
  end.
End Sorter.


(** ** The reducer and the transformer *)

(** The operators of [parallel_reduce]. *)
Inductive operator : Type := Sum | Product | Max | Min.

(** [@param op Operation: 0=sum, 1=product, 2=max, 3=min] *)
Definition operator_of_code (op : Z) : option operator :=
  match op with
  | 0 => Some Sum
  | 1 => Some Product
  | 2 => Some Max
  | 3 => Some Min
  | _ => None
  end.

(** The iterations of [for (int i = 0; i < size; i++)]. *)
Definition iterations (size : Z) : list Z :=
  map Z.of_nat (seq 0 (Z.to_nat size)).

(** A schedule of a parallel loop hands the iterations to the threads of
    the team, one chunk of iterations per thread; it distributes them when
    every iteration is in exactly one chunk. *)
Definition distributes (schedule : list Z -> list (list Z)) : Prop :=
  forall its, Permutation (concat (schedule its)) its.

(** The order in which the iterations of a parallel loop complete, over
    all threads; it reorders them when every iteration completes exactly
    once. *)
Definition reorders (completion : list Z -> list Z) : Prop :=
  forall its, Permutation (completion its) its.

Section Reducer.
Context {V : Type}.
Variable undef : V.
Variables (add mul : V -> V -> V) (zero one : V).
(** The comparison [x < y] of the value type, and the two ends of the
    value type. *)
Variable ltb : V -> V -> bool.
Variables (neg_inf pos_inf : V).

Abbreviation rd := (rd undef).

(** [x > y] is [y < x]. *)
Definition gtb (x y : V) : bool := ltb y x.

(** One step of a reduction: the body of a loop of [parallel_reduce]
    applied to [result] and [x = arr[i]].  The combiner of the OpenMP
    reduction clause is the same function, with the partial result of a
    thread for [x]. *)
Definition apply_op (op : operator) (result x : V) : V :=
  match op with
  | Sum => add result x
  | Product => mul result x
  | Max => if gtb x result then x else result
  | Min => if ltb x result then x else result
  end.

(** The value that the reduction clause gives to the private copy of
    [result] in each thread: the identity of the operator. *)
Definition omp_priv (op : operator) : V :=
  match op with
  | Sum => zero
  | Product => one
  | Max => neg_inf
  | Min => pos_inf
  end.

(** What a thread computes on its chunk of iterations. *)
Definition partial (op : operator) (arr : list V) (chunk : list Z) : V :=
  fold_left (fun result i => apply_op op result (rd arr i)) chunk (omp_priv op).

(** [#pragma omp parallel for reduction(op:result)] over
    [for (int i = 0; i < size; i++)]: every thread reduces its chunk of the
    iterations into its private copy, and the private copies are combined
    into the original [result]. *)
Definition omp_for_reduction (op : operator)
    (schedule : list Z -> list (list Z)) (arr : list V) (size : Z)
    (result : V) : V :=
  let chunks := schedule (iterations size) in
  fold_left (apply_op op) (map (partial op arr) chunks) result.

(** [parallel_reduce(arr, size, initial, op)], under a schedule of the
    parallel loops. *)
Definition parallel_reduce (schedule : list Z -> list (list Z))
    (arr : list V) (size : Z) (initial : V) (op : Z) : V :=
  let result := initial in
  match op with
  | 0 => omp_for_reduction Sum schedule arr size result
  | 1 => omp_for_reduction Product schedule arr size result
  | 2 => omp_for_reduction Max schedule arr size result
  | 3 => omp_for_reduction Min schedule arr size result
  | _ => result
  end.

(** The call as a transformer of the caller's memory: the array is a
    [const double*] that no statement of the function writes. *)
Definition parallel_reduce_call (schedule : list Z -> list (list Z))
    (arr : list V) (size : Z) (initial : V) (op : Z) : list V * V :=
  (arr, parallel_reduce schedule arr size initial op).

(** [parallel_transform(in, out, size, func)]: [completion] gives the order
    in which the threads of the team complete the iterations of
    [for (int i = 0; i < size; i++)]. *)
Definition parallel_transform (completion : list Z -> list Z)
    (inp out : list V) (size : Z) (func : V -> V) : list V :=
  fold_left (fun out i => wr out i (func (rd inp i)))
    (completion (iterations size)) out.
End Reducer.

(** How a call ends for its caller. *)
Inductive outcome (A : Type) : Type :=
  | Returns (a : A)
  | InvalidArgument.
Arguments Returns {A} a.
Arguments InvalidArgument {A}.

(** [parallel_reduce] has one exit, [return result]. *)
Definition parallel_reduce_outcome {V : Type} (undef : V)
    (add mul : V -> V -> V) (zero one : V) (ltb : V -> V -> bool)
    (neg_inf pos_inf : V) (schedule : list Z -> list (list Z)) (arr : list V)
    (size : Z) (initial : V) (op : Z) : outcome V :=
  Returns (parallel_reduce undef add mul zero one ltb neg_inf pos_inf
             schedule arr size initial op).

(** The reduction as the specification words it, over the operations [+],
    [*] and the order [<=] of the values. *)
Section ReduceSpec.
Context {V : Type}.
Variables (add mul : V -> V -> V).
Variable leb : V -> V -> bool.

(** The four operators by their names: the sum and the product of two
    values, the larger and the smaller of the two. *)
Definition combine (op : operator) (x y : V) : V :=
  match op with
  | Sum => add x y
  | Product => mul x y
  | Max => if leb x y then y else x
  | Min => if leb x y then x else y
  end.

(** The sequential left fold of an operator over the first [size]
    elements, seeded with [initial]. *)
Definition sequential_fold (op : operator) (arr : list V) (size : Z)
    (initial : V) : V :=
  fold_left (combine op) (slice arr 0 size) initial.
End ReduceSpec.

(** The reducer as the specification words it: an operator code outside
    the closed set is reported as an invalid argument, any other call
    returns the sequential fold. *)
Definition reduce_contract {V : Type}
    (add mul : V -> V -> V) (leb : V -> V -> bool)
    (arr : list V) (size : Z) (initial : V) (op : Z) : outcome V :=
  match operator_of_code op with
  | Some o => Returns (sequential_fold add mul leb o arr size initial)
  | None => InvalidArgument
  end.

(** ** List-level description of the sorter *)

Section SortedLists.
Context {V : Type}.
Variable leb : V -> V -> bool.

(** Merging two lists, the left one first on ties. *)
Fixpoint merge_lists (l1 : list V) : list V -> list V :=
  fix merge_right (l2 : list V) : list V :=
    match l1, l2 with
    | [], _ => l2
    | _, [] => l1
    | x :: l1', y :: l2' =>
        if leb x y then x :: merge_lists l1' l2 else y :: merge_right l2'
    end.

(** Top-down merge sort of a list, split where [mergesort_serial] splits
    a range of the same length. *)
Fixpoint sort_list_rec (n : nat) (l : list V) : list V :=
  match n with
  | O => l
  | S n' =>
      if (1 <? length l)%nat then
        let h := S ((length l - 1) / 2) in
        merge_lists (sort_list_rec n' (take h l)) (sort_list_rec n' (drop h l))
      else l
  end.

Definition sort_list (l : list V) : list V := sort_list_rec (length l) l.

(** Non-decreasing order. *)
Definition lte (x y : V) : Prop := leb x y = true.
Definition sorted (l : list V) : Prop := Sorted lte l.

(** Two values tie when each is [<=] the other. *)
Definition tie (x y : V) : bool := leb x y && leb y x.

(** The values of a list are comparable when any two of them, and each
    with itself, compare one way or the other.  With the [<=] of [double]
    these are the lists that hold no NaN. *)
Definition comparable (l : list V) : Prop :=
  forall x y, x ∈ l -> y ∈ l -> leb x y = true \/ leb y x = true.

(** [x] may stand before [y]: [x <= y] holds, or else [y <= x] fails. *)
Definition precedes (x y : V) : bool := leb x y || negb (leb y x).
End SortedLists.

(** ** Exact values: the integers with the two infinities *)

Inductive xint : Type := NegInf | Fin (z : Z) | PosInf.

Definition xleb (x y : xint) : bool :=
  match x, y with
  | NegInf, _ => true
  | _, PosInf => true
  | Fin a, Fin b => a <=? b
  | _, _ => false
  end.

Definition xltb (x y : xint) : bool :=
  match x, y with
  | _, NegInf => false
  | PosInf, _ => false
  | Fin a, Fin b => a <? b
  | _, _ => true
  end.

(** The sum and the product take the sign of an infinite operand; where both
    infinities meet, [-inf] wins. *)
Definition xadd (x y : xint) : xint :=
  match x, y with
  | NegInf, _ | _, NegInf => NegInf
  | PosInf, _ | _, PosInf => PosInf
  | Fin a, Fin b => Fin (a + b)
  end.

Definition xmul (x y : xint) : xint :=
  match x, y with
  | NegInf, _ | _, NegInf => NegInf
  | PosInf, _ | _, PosInf => PosInf
  | Fin a, Fin b => Fin (a * b)
  end.

(** A schedule for three threads: the first takes the iterations after the
    third one, the second none, the third the first three. *)
Definition three_threads (its : list Z) : list (list Z) :=
  [drop 3 its; []; take 3 its].

(** Arrays of the integers [n-1], ..., [0] and [0], ..., [n-1]. *)
Definition descending (n : nat) : list Z := map Z.of_nat (rev (seq 0 n)).
Definition ascending (n : nat) : list Z := map Z.of_nat (seq 0 n).

(** ** The task tree of a sort *)

(** The number of fork levels below a task. *)
Fixpoint task_height (t : task) : nat :=
  match t with
  | Sequential _ _ => O
  | Forked _ _ _ _ first second =>
      S (Nat.max (task_height first) (task_height second))
  end.

(** The ranges that the sequential sorts of a task tree work on, from left
    to right. *)
Fixpoint task_leaves (t : task) : list (Z * Z) :=
  match t with
  | Sequential l r => [(l, r)]
  | Forked _ _ _ _ first second => task_leaves first ++ task_leaves second
  end.

(** The indices [left], ..., [right]. *)
Definition indices (range : Z * Z) : list Z :=
  map (Z.add range.1) (iterations (range.2 - range.1 + 1)).

(** ** The checks of the test driver *)

Section Tests.
Context {V : Type}.
Variable undef : V.
(** The comparison [x < y] of the value type. *)
Variable ltb : V -> V -> bool.

(** The verification loop of [test_sort], from [i] on:
    [for (; i < size; i++) if (arr[i] < arr[i-1]) { is_sorted = 0; break; }]
    with [is_sorted] initially 1; [n] bounds the number of iterations. *)
Fixpoint is_sorted_loop (n : nat) (arr : list V) (size i : Z) : bool :=
  match n with
  | O => true
  | S n' =>
      if i <? size then
        if ltb (rd undef arr i) (rd undef arr (i - 1)) then false
        else is_sorted_loop n' arr size (i + 1)
      else true
  end.

(** The flag [is_sorted] of [test_sort] after its loop, which starts at 1. *)
Definition is_sorted (arr : list V) (size : Z) : bool :=
  is_sorted_loop (Z.to_nat (size - 1)) arr size 1.

(** What the loop accepts of an element [x] and the next one [y]:
    [y < x] fails. *)
Definition no_descent (x y : V) : bool := negb (ltb y x).

(** The loop of [test_transform] that counts the slots where the output is
    farther than [EPSILON] from the expected value; [far x y] stands for
    [fabs(x - y) > EPSILON]. *)
Definition count_errors (far : V -> V -> bool) (out expected : list V)
    (size : Z) : Z :=
  fold_left
    (fun errors i =>
       if far (rd undef out i) (rd undef expected i) then errors + 1
       else errors)
    (iterations size) 0.

(** The loop of [test_transform] that fills [expected]:
    [expected[i] = square_root(in[i])]. *)
Definition fill_expected (func : V -> V) (inp expected : list V) (size : Z)
    : list V :=
  fold_left (fun expected i => wr expected i (func (rd undef inp i)))
    (iterations size) expected.

(** [parallel_transform(a, a, size, func)]: input and output are the same
    array, so an iteration reads the slot that it then overwrites. *)
Definition parallel_transform_in_place (completion : list Z -> list Z)
    (a : list V) (size : Z) (func : V -> V) : list V :=
  fold_left (fun a i => wr a i (func (rd undef a i)))
    (completion (iterations size)) a.
End Tests.

(** ** Matrix product and vector operation of the benchmarks *)

Section Matrix.
Context {V : Type}.
Variable undef : V.
Variables (add mul : V -> V -> V) (zero : V).

(** [M[i][j]] and [M[i][j] = x] on a matrix held as an array of rows; a
    row outside the matrix reads as the empty row. *)
Definition mrd (M : list (list V)) (i j : Z) : V := rd undef (rd [] M i) j.
Definition mwr (M : list (list V)) (i j : Z) (x : V) : list (list V) :=
  wr M i (wr (rd [] M i) j x).

(** [for (int k = 0; k < n; k++) C[i][j] += A[i][k] * B[k][j];] *)
Definition product_cell (A B C : list (list V)) (n i j : Z) : list (list V) :=
  fold_left
    (fun C k => mwr C i j (add (mrd C i j) (mul (mrd A i k) (mrd B k j))))
    (iterations n) C.

(** The body of the loop on [i]:
    [for (int j = 0; j < n; j++) { C[i][j] = 0.0; for (k ...) ... }] *)
Definition product_row (A B C : list (list V)) (n i : Z) : list (list V) :=
  fold_left (fun C j => product_cell A B (mwr C i j zero) n i j)
    (iterations n) C.

(** [matrix_multiply_seq(A, B, C, n)]: the final contents of [C]. *)
Definition matrix_multiply_seq (A B C : list (list V)) (n : Z)
    : list (list V) :=
  fold_left (fun C i => product_row A B C n i) (iterations n) C.

(** [matrix_multiply_parallel(A, B, C, n)]: the iterations of the loop on
    [i] complete in the order [completion] gives. *)
Definition matrix_multiply_parallel (completion : list Z -> list Z)
    (A B C : list (list V)) (n : Z) : list (list V) :=
  fold_left (fun C i => product_row A B C n i) (completion (iterations n)) C.

(** The sum that a cell of the product accumulates, in the order of the
    loop on [k]. *)
Definition dot (A B : list (list V)) (n i j : Z) : V :=
  fold_left (fun acc k => add acc (mul (mrd A i k) (mrd B k j)))
    (iterations n) zero.

(** The two loops of [vector_ops_simd(a, b, c, n)], each
    [c[i] = a[i] * a[i] + b[i]] for [i] below [n]: the final contents of
    [c].  The first loop is a parallel for, the second a parallel for simd;
    [first] and [second] give the orders in which their iterations
    complete. *)
Definition vector_ops_simd (first second : list Z -> list Z)
    (a b c : list V) (n : Z) : list V :=
  let body := fun c i => wr c i (add (mul (rd undef a i) (rd undef a i))
                                   (rd undef b i)) in
  let c := fold_left body (first (iterations n)) c in
  fold_left body (second (iterations n)) c.
End Matrix.

(** ** The file pipeline of the task examples *)

(** A C [int]: the value of an arithmetic result brought back into
    [-2^31 .. 2^31 - 1]. *)
Definition wrap_int (z : Z) : Z := (z + 2 ^ 31) mod 2 ^ 32 - 2 ^ 31.

(** Stage 1 of [process_file]:
    [for (int i = 0; i < data_size; i++) parsed_data[i] = i % 10;] *)
Definition read_stage (data_size : Z) (parsed_data : list Z) : list Z :=
  fold_left (fun parsed_data i => wr parsed_data i (Z.rem i 10))
    (iterations data_size) parsed_data.

(** Stage 2: [processed_data[i] = parsed_data[i] * 2;] *)
Definition process_stage (data_size : Z) (parsed_data processed_data : list Z)
    : list Z :=
  fold_left
    (fun processed_data i =>
       wr processed_data i (wrap_int (rd 0 parsed_data i * 2)))
    (iterations data_size) processed_data.

(** Stage 3: [int sum = 0; for (...) sum += processed_data[i];] *)
Definition report_sum (data_size : Z) (processed_data : list Z) : Z :=
  fold_left (fun sum i => wrap_int (sum + rd 0 processed_data i))
    (iterations data_size) 0.

(** The two numbers that [process_file] writes into its report,
    ["File %s: %d items, sum=%d"]: [data_size] and [sum].  [file_id] is
    what [sscanf] read from the file name; [parsed_data] and
    [processed_data] are the blocks that the two calls of [malloc] return.
    The [depend] clauses order the stages as written. *)
Definition process_file (file_id : Z) (parsed_data processed_data : list Z)
    : Z * Z :=
  let data_size := wrap_int (file_id * 100) in
  let parsed_data := read_stage data_size parsed_data in
  let processed_data := process_stage data_size parsed_data processed_data in
  (data_size, report_sum data_size processed_data).

(** ** The C type [double] *)

(** The values of the C type [double] are the IEEE 754 binary64 numbers;
    [x <= y] and [x < y] are false as soon as [x] or [y] is a NaN. *)
Definition double : Type := spec_float.
Definition double_leb (x y : double) : bool := SFleb x y.
Definition double_ltb (x y : double) : bool := SFltb x y.
Definition double_nan : double := S754_nan.
Definition double_is_nan (x : double) : bool :=
  match x with
  | S754_nan => true
  | _ => false
  end.

(** ** [set_optimal_threads] of [omp_utils.h] *)

(** The conversions between [int] and [double] (binary64): an [int] is a
    [double] exactly; a [double] becomes an [int] by dropping its
    fraction. *)
Definition double_of_int (z : Z) : spec_float :=
  binary_normalize 53 1024 z 0 false.

Definition int_of_double (x : spec_float) : Z :=
  match x with
  | S754_finite s m e =>
      let magnitude :=
        if 0 <=? e then Z.pos m * 2 ^ e else Z.pos m / 2 ^ (- e) in
      if s then - magnitude else magnitude
  | _ => 0
  end.

(** The [double] constant [0.8], which is [0x1.999999999999ap-1]. *)
Definition double_0_8 : spec_float := S754_finite false 7205759403792794 (-53).

(** [int optimal = (num_procs * 0.8 > 2) ? num_procs * 0.8 : 2;]
    for [num_procs = omp_get_num_procs()]: the value that
    [set_optimal_threads] hands to [omp_set_num_threads]. *)
Definition set_optimal_threads (num_procs : Z) : Z :=
  let scaled := SFmul 53 1024 (double_of_int num_procs) double_0_8 in
  let optimal :=
    int_of_double
      (if SFltb (double_of_int 2) scaled then scaled else double_of_int 2) in
  optimal.

(** Whether [check] holds on the [n] integers from [start] on. *)
Fixpoint all_from (check : Z -> bool) (n : nat) (start : Z) : bool :=
  match n with
  | O => true
  | S n' => check start && all_from check n' (start + 1)
  end.

(* ================================================================== *)
(** * Properties *)

Example sort_5 :
  parallel_sort 0 Z.leb (fun _ _ => true) (Some [0; 0; 0; 0; 0]) 4 [5; 3; 1; 4; 2] 5
  = [1; 2; 3; 4; 5].
Proof. reflexivity. Qed.

Example reduce_sum_5 :
  parallel_reduce (Fin 0) xadd xmul (Fin 0) (Fin 1) xltb NegInf PosInf
    three_threads (map Fin [1; 2; 3; 4; 5]) 5 (Fin 0) 0 = Fin 15.
Proof. reflexivity. Qed.

Example reduce_product_3 :
  parallel_reduce (Fin 0) xadd xmul (Fin 0) (Fin 1) xltb NegInf PosInf
    three_threads (map Fin [2; 3; 4]) 3 (Fin 1) 1 = Fin 24.
Proof. reflexivity. Qed.

Example reduce_max_5 :
  parallel_reduce (Fin 0) xadd xmul (Fin 0) (Fin 1) xltb NegInf PosInf
    three_threads (map Fin [3; 1; 4; 1; 5]) 5 (Fin 2) 2 = Fin 5 /\
  parallel_reduce (Fin 0) xadd xmul (Fin 0) (Fin 1) xltb NegInf PosInf
    three_threads (map Fin [3; 1; 4; 1; 5]) 5 (Fin 9) 2 = Fin 9.
Proof. split; reflexivity. Qed.

Example reduce_min_5 :
  parallel_reduce (Fin 0) xadd xmul (Fin 0) (Fin 1) xltb NegInf PosInf
    three_threads (map Fin [3; 1; 4; 1; 5]) 5 (Fin 2) 3 = Fin 1 /\
  parallel_reduce (Fin 0) xadd xmul (Fin 0) (Fin 1) xltb NegInf PosInf
    three_threads (map Fin [3; 1; 4; 1; 5]) 5 (Fin 0) 3 = Fin 0.
Proof. split; reflexivity. Qed.

(** On [double] a NaN never replaces the running maximum: [NaN > result]
    is false. *)
Example reduce_max_nan :
  parallel_reduce double_nan (SFadd 53 1024) (SFmul 53 1024)
    (S754_zero false) (double_of_int 1) double_ltb
    (S754_infinity true) (S754_infinity false)
    (fun its => [its]) [double_of_int 1; double_nan] 2 (double_of_int 0) 2
  = double_of_int 1.
Proof. vm_compute. reflexivity. Qed.

(** ** Reading and writing arrays that are given in pieces *)

(** Equations between concatenations that differ in bracketing only. *)
Ltac same_pieces :=
  repeat (progress (simpl; rewrite <- ?app_assoc)); reflexivity.

Ltac pieces_length :=
  repeat (progress (simpl; rewrite ?length_app)); simpl in *; lia.

Section ArrayFacts.
Context {V : Type}.
Variable undef : V.

Lemma rd_middle (A R : list V) (x : V) (i : Z) :
  i = Z.of_nat (length A) -> rd undef (A ++ x :: R) i = x.
Proof.
  intros ->. unfold rd.
  destruct (Z.ltb_spec (Z.of_nat (length A)) 0) as [Hneg|_]; [lia|].
  rewrite Nat2Z.id, list_lookup_middle; done.
Qed.

Lemma wr_middle (A R : list V) (x y : V) (i : Z) :
  i = Z.of_nat (length A) -> wr (A ++ x :: R) i y = A ++ y :: R.
Proof.
  intros ->. unfold wr.
  destruct (Z.ltb_spec (Z.of_nat (length A)) 0) as [Hneg|_]; [lia|].
  rewrite Nat2Z.id.
  replace (length A) with (length A + 0)%nat at 1 by lia.
  by rewrite insert_app_r.
Qed.

Lemma slice_middle (A xs C : list V) (lo hi : Z) :
  lo = Z.of_nat (length A) -> hi - lo = Z.of_nat (length xs) ->
  slice (A ++ xs ++ C) lo hi = xs.
Proof.
  intros -> Hhi. unfold slice. rewrite Hhi, !Nat2Z.id.
  by rewrite drop_app_length, take_app_length.
Qed.

Lemma slice_empty (a : list V) (lo hi : Z) : hi <= lo -> slice a lo hi = [].
Proof.
  intros H. unfold slice. replace (Z.to_nat (hi - lo)) with 0%nat by lia. done.
Qed.

Lemma slice_all (a : list V) : slice a 0 (Z.of_nat (length a)) = a.
Proof.
  unfold slice. simpl. rewrite Z.sub_0_r, Nat2Z.id. by rewrite take_ge.
Qed.
End ArrayFacts.

(** ** The loops of [merge] *)

Section MergeLoops.
Context {V : Type}.
Variable undef : V.
Variable leb : V -> V -> bool.

Lemma merge_lists_nil_r (l : list V) : merge_lists leb l [] = l.
Proof. by destruct l. Qed.

Lemma merge_lists_length (l1 l2 : list V) :
  length (merge_lists leb l1 l2) = (length l1 + length l2)%nat.
Proof.
  revert l2. induction l1 as [|x l1 IH]; intros l2; [by destruct l2|].
  induction l2 as [|y l2 IH2]; [simpl; lia|].
  simpl. destruct (leb x y); simpl.
  - rewrite IH. simpl. lia.
  - simpl in IH2. rewrite IH2. lia.
Qed.

(** The copying loop moves the pending elements of [arr] to [temp]. *)
Lemma copy_while_pieces (xs : list V) :
  forall (n : nat) (A C T us U : list V) (hi i k : Z),
    i = Z.of_nat (length A) -> hi + 1 - i = Z.of_nat (length xs) ->
    k = Z.of_nat (length T) -> length us = length xs ->
    (length xs <= n)%nat ->
    copy_while undef n (A ++ xs ++ C) (T ++ us ++ U) hi i k
    = (T ++ xs ++ U, hi + 1, k + Z.of_nat (length xs)).
Proof.
  induction xs as [|x xs IH]; intros n A C T us U hi i k Hi Hhi Hk Hus Hn.
  - destruct us; [|done]. simpl in *.
    replace (hi + 1) with i by lia. rewrite Z.add_0_r.
    destruct n; simpl; [done|].
    destruct (Z.leb_spec i hi); [lia|done].
  - destruct us as [|u us]; [done|]. destruct n as [|n]; [simpl in Hn; lia|].
    simpl in *. destruct (Z.leb_spec i hi); [|lia].
    rewrite (rd_middle undef A (xs ++ C) x i Hi).
    rewrite (wr_middle T (us ++ U) u x k Hk).
    replace (A ++ x :: xs ++ C) with ((A ++ [x]) ++ xs ++ C)
      by (by rewrite <- app_assoc).
    replace (T ++ x :: us ++ U) with ((T ++ [x]) ++ us ++ U)
      by (by rewrite <- app_assoc).
    rewrite (IH n (A ++ [x]) C (T ++ [x]) us U hi (i + 1) (k + 1)).
    + rewrite <- app_assoc. simpl. f_equal. lia.
    + rewrite length_app. simpl. lia.
    + lia.
    + rewrite length_app. simpl. lia.
    + lia.
    + lia.
Qed.

(** The copy back moves a range of [temp] to the same range of [arr]. *)
Lemma copy_back_pieces (ms : list V) :
  forall (n : nat) (A xs C T U : list V) (right i : Z),
    i = Z.of_nat (length A) -> i = Z.of_nat (length T) ->
    right + 1 - i = Z.of_nat (length ms) -> length xs = length ms ->
    (length ms <= n)%nat ->
    copy_back undef n (A ++ xs ++ C) (T ++ ms ++ U) right i = A ++ ms ++ C.
Proof.
  induction ms as [|m ms IH]; intros n A xs C T U right i HA HT Hr Hxs Hn.
  - destruct xs; [|done]. simpl in *.
    destruct n; simpl; [done|].
    destruct (Z.leb_spec i right); [lia|done].
  - destruct xs as [|x xs]; [done|]. destruct n as [|n]; [simpl in Hn; lia|].
    simpl in *. destruct (Z.leb_spec i right); [|lia].
    rewrite (rd_middle undef T (ms ++ U) m i HT).
    rewrite (wr_middle A (xs ++ C) x m i HA).
    replace (A ++ m :: xs ++ C) with ((A ++ [m]) ++ xs ++ C)
      by (by rewrite <- app_assoc).
    replace (T ++ m :: ms ++ U) with ((T ++ [m]) ++ ms ++ U)
      by (by rewrite <- app_assoc).
    rewrite (IH n (A ++ [m]) xs C (T ++ [m]) U right (i + 1)).
    + by rewrite <- app_assoc.
    + rewrite length_app. simpl. lia.
    + rewrite length_app. simpl. lia.
    + lia.
    + lia.
    + lia.
Qed.
End MergeLoops.

Section MergeCorrect.
Context {V : Type}.
Variable undef : V.
Variable leb : V -> V -> bool.

Lemma merge_lists_nil_l (l : list V) : merge_lists leb [] l = l.
Proof. by destruct l. Qed.

Lemma merge_lists_cons (x y : V) (l1 l2 : list V) :
  merge_lists leb (x :: l1) (y :: l2)
  = if leb x y then x :: merge_lists leb l1 (y :: l2)
    else y :: merge_lists leb (x :: l1) l2.
Proof. reflexivity. Qed.

Lemma rd_at (a A R : list V) (x : V) (i : Z) :
  a = A ++ x :: R -> i = Z.of_nat (length A) -> rd undef a i = x.
Proof. intros -> Hi. by apply rd_middle. Qed.

Lemma wr_at (a A R : list V) (x y : V) (i : Z) :
  a = A ++ x :: R -> i = Z.of_nat (length A) -> wr a i y = A ++ y :: R.
Proof. intros -> Hi. by apply wr_middle. Qed.

Lemma copy_while_at (n : nat) (arr temp A xs C T us U : list V) (hi i k : Z) :
  arr = A ++ xs ++ C -> temp = T ++ us ++ U ->
  i = Z.of_nat (length A) -> hi + 1 - i = Z.of_nat (length xs) ->
  k = Z.of_nat (length T) -> length us = length xs ->
  (length xs <= n)%nat ->
  copy_while undef n arr temp hi i k
  = (T ++ xs ++ U, hi + 1, k + Z.of_nat (length xs)).
Proof. intros -> ->. apply copy_while_pieces. Qed.

(** The three [while] loops of [merge] leave in [temp] the merge of the
    two pending runs [l1] (from [i]) and [l2] (from [j]) of [arr]. *)
Lemma merge_while_at (n : nat) :
  forall (arr temp l1 l2 A B C T us U : list V) (mid right i j k : Z),
    arr = A ++ l1 ++ B ++ l2 ++ C -> temp = T ++ us ++ U ->
    i = Z.of_nat (length A) -> mid + 1 - i = Z.of_nat (length l1) ->
    j = Z.of_nat (length A + length l1 + length B) ->
    right + 1 - j = Z.of_nat (length l2) ->
    k = Z.of_nat (length T) -> length us = (length l1 + length l2)%nat ->
    (length l1 + length l2 <= n)%nat ->
    forall temp1 i1 j1 k1 temp2 i2 k2 temp3 j3 k3,
      merge_while undef leb n arr temp mid right i j k = (temp1, i1, j1, k1) ->
      copy_while undef (Z.to_nat (mid + 1 - i1)) arr temp1 mid i1 k1
      = (temp2, i2, k2) ->
      copy_while undef (Z.to_nat (right + 1 - j1)) arr temp2 right j1 k2
      = (temp3, j3, k3) ->
      temp3 = T ++ merge_lists leb l1 l2 ++ U.
Proof.
  induction n as [|n IH];
    intros arr temp l1 l2 A B C T us U mid right i j k Harr Htemp Hi Hmid Hj
      Hright Hk Hus Hn temp1 i1 j1 k1 temp2 i2 k2 temp3 j3 k3 H1 H2 H3.
  - destruct l1, l2; simpl in Hn; try lia. destruct us; [|done].
    simpl in *. injection H1 as <- <- <- <-.
    replace (Z.to_nat (mid + 1 - i)) with 0%nat in H2 by lia.
    simpl in H2. injection H2 as <- <- <-.
    replace (Z.to_nat (right + 1 - j)) with 0%nat in H3 by lia.
    simpl in H3. injection H3 as <- <- <-. done.
  - destruct l1 as [|x l1].
    + (* the left run is used up: only the third loop copies *)
      rewrite merge_lists_nil_l. simpl in H1, Hmid, Hus, Hj.
      destruct (Z.leb_spec i mid); [lia|]. simpl in H1.
      injection H1 as <- <- <- <-.
      replace (Z.to_nat (mid + 1 - i)) with 0%nat in H2 by lia.
      simpl in H2. injection H2 as <- <- <-.
      rewrite (copy_while_at _ arr temp (A ++ B) l2 C T us U right j k) in H3;
        [by injection H3 as <- <- <-|..]; try done; try lia.
      * rewrite Harr. simpl. by rewrite <- app_assoc.
      * rewrite length_app. lia.
    + destruct l2 as [|y l2].
      * (* the right run is used up: only the second loop copies *)
        rewrite merge_lists_nil_r. simpl in H1, Hright, Hus.
        destruct (Z.leb_spec j right); [lia|].
        rewrite andb_false_r in H1. injection H1 as <- <- <- <-.
        rewrite (copy_while_at _ arr temp A (x :: l1) (B ++ C) T us U mid i k)
          in H2; try done; try lia.
        -- injection H2 as <- <- <-.
           replace (Z.to_nat (right + 1 - j)) with 0%nat in H3 by lia.
           simpl in H3. by injection H3 as <- <- <-.
        -- simpl in *. lia.
      * (* both runs have an element: one step of the first loop *)
        destruct us as [|u us]; [done|].
        simpl in H1, Hmid, Hright, Hus, Hn.
        destruct (Z.leb_spec i mid); [|lia].
        destruct (Z.leb_spec j right); [|lia]. simpl in H1.
        rewrite (rd_at arr A (l1 ++ B ++ (y :: l2) ++ C) x i) in H1;
          [|by rewrite Harr|done].
        rewrite (rd_at arr (A ++ x :: l1 ++ B) (l2 ++ C) y j) in H1.
        2:{ rewrite Harr. same_pieces. }
        2:{ pieces_length. }
        rewrite merge_lists_cons.
        destruct (leb x y).
        -- rewrite (wr_at temp T (us ++ U) u x k) in H1; [|by rewrite Htemp|done].
           rewrite (IH arr (T ++ x :: us ++ U) l1 (y :: l2) (A ++ [x]) B C
                      (T ++ [x]) us U mid right (i + 1) j (k + 1)
                      ltac:(rewrite Harr; same_pieces)
                      ltac:(same_pieces)
                      ltac:(pieces_length) ltac:(pieces_length)
                      ltac:(pieces_length) ltac:(pieces_length)
                      ltac:(pieces_length) ltac:(pieces_length)
                      ltac:(pieces_length)
                      _ _ _ _ _ _ _ _ _ _ H1 H2 H3).
           by rewrite <- app_assoc.
        -- rewrite (wr_at temp T (us ++ U) u y k) in H1; [|by rewrite Htemp|done].
           rewrite (IH arr (T ++ y :: us ++ U) (x :: l1) l2 A (B ++ [y]) C
                      (T ++ [y]) us U mid right i (j + 1) (k + 1)
                      ltac:(rewrite Harr; same_pieces)
                      ltac:(same_pieces)
                      ltac:(pieces_length) ltac:(pieces_length)
                      ltac:(pieces_length) ltac:(pieces_length)
                      ltac:(pieces_length) ltac:(pieces_length)
                      ltac:(pieces_length)
                      _ _ _ _ _ _ _ _ _ _ H1 H2 H3).
           by rewrite <- app_assoc.
Qed.

(** [merge] on an array whose range [left .. right] holds the runs [l1]
    and [l2]: both arrays end with the merged run in that range, and
    nothing else changes. *)
Lemma merge_pieces (arr temp A l1 l2 C T us U : list V) (left mid right : Z) :
  arr = A ++ l1 ++ l2 ++ C -> temp = T ++ us ++ U ->
  left = Z.of_nat (length A) -> mid + 1 - left = Z.of_nat (length l1) ->
  right - mid = Z.of_nat (length l2) ->
  length T = length A -> length us = (length l1 + length l2)%nat ->
  merge undef leb arr temp left mid right
  = (A ++ merge_lists leb l1 l2 ++ C, T ++ merge_lists leb l1 l2 ++ U).
Proof.
  intros Harr Htemp Hleft Hmid Hright HT Hus. unfold merge.
  destruct (merge_while _ _ _ _ _ _ _ _ _ _) as [[[temp1 i1] j1] k1] eqn:H1.
  destruct (copy_while _ _ _ _ _ _ _) as [[temp2 i2] k2] eqn:H2.
  destruct (copy_while _ _ _ temp2 _ _ _) as [[temp3 j3] k3] eqn:H3.
  assert (Ht : temp3 = T ++ merge_lists leb l1 l2 ++ U).
  { apply (merge_while_at _ arr temp l1 l2 A [] C T us U mid right
             left (mid + 1) left) with (2 := Htemp) (10 := H1) (11 := H2)
             (12 := H3); try done; try pieces_length. }
  rewrite Ht. f_equal.
  rewrite Harr.
  replace (A ++ l1 ++ l2 ++ C) with (A ++ (l1 ++ l2) ++ C) by same_pieces.
  apply copy_back_pieces; try done; try lia;
    rewrite ?length_app, merge_lists_length; lia.
Qed.
End MergeCorrect.

(** ** [mergesort_serial] and [mergesort_parallel] on a range *)

Lemma half_lt (m : nat) : (2 <= m -> S ((m - 1) / 2) <= m - 1)%nat.
Proof.
  intros Hm. pose proof (Nat.div_mod_eq (m - 1) 2).
  pose proof (Nat.mod_upper_bound (m - 1) 2). lia.
Qed.

(** [mid + 1] of the code is where [sort_list_rec] cuts a list of the
    length of the range. *)
Lemma mid_split (m : nat) (left right : Z) :
  (1 <= m)%nat -> right + 1 - left = Z.of_nat m ->
  left + Z.quot (right - left) 2 + 1 - left = Z.of_nat (S ((m - 1) / 2)).
Proof.
  intros Hm Hlen. rewrite Z.quot_div_nonneg by lia.
  rewrite Nat2Z.inj_succ, Nat2Z.inj_div.
  replace (Z.of_nat (m - 1)) with (right - left) by lia. simpl. lia.
Qed.

Section SerialCorrect.
Context {V : Type}.
Variable undef : V.
Variable leb : V -> V -> bool.

Lemma sort_list_rec_S (n : nat) (l : list V) :
  sort_list_rec leb (S n) l
  = if (1 <? length l)%nat then
      merge_lists leb
        (sort_list_rec leb n (take (S ((length l - 1) / 2)) l))
        (sort_list_rec leb n (drop (S ((length l - 1) / 2)) l))
    else l.
Proof. reflexivity. Qed.

Lemma mergesort_serial_rec_S (n : nat) (arr temp : list V) (left right : Z) :
  mergesort_serial_rec undef leb (S n) arr temp left right
  = if left <? right then
      let mid := left + Z.quot (right - left) 2 in
      let '(arr, temp) := mergesort_serial_rec undef leb n arr temp left mid in
      let '(arr, temp) :=
        mergesort_serial_rec undef leb n arr temp (mid + 1) right in
      merge undef leb arr temp left mid right
    else (arr, temp).
Proof. reflexivity. Qed.

Lemma sort_list_rec_length (n : nat) :
  forall l : list V, length (sort_list_rec leb n l) = length l.
Proof.
  induction n as [|n IH]; intros l; [done|]. rewrite sort_list_rec_S.
  destruct (Nat.ltb_spec 1 (length l)); [|done].
  rewrite merge_lists_length, !IH, length_take, length_drop.
  pose proof (half_lt (length l)). lia.
Qed.

(** More recursion depth than the length of the list asks for changes
    nothing. *)
Lemma sort_list_rec_enough (n : nat) :
  forall (m : nat) (l : list V),
    (length l - 1 <= n)%nat -> (length l - 1 <= m)%nat ->
    sort_list_rec leb n l = sort_list_rec leb m l.
Proof.
  induction n as [|n IH]; intros m l Hn Hm.
  - destruct m; [done|]. rewrite sort_list_rec_S.
    destruct (Nat.ltb_spec 1 (length l)); [lia|done].
  - destruct m as [|m]; rewrite !sort_list_rec_S.
    + destruct (Nat.ltb_spec 1 (length l)); [lia|done].
    + destruct (Nat.ltb_spec 1 (length l)); [|done].
      pose proof (half_lt (length l)).
      f_equal; apply IH; rewrite ?length_take, ?length_drop; lia.
Qed.

Lemma sort_list_rec_sort_list (n : nat) (l : list V) :
  (length l - 1 <= n)%nat -> sort_list_rec leb n l = sort_list leb l.
Proof. intros Hn. unfold sort_list. apply sort_list_rec_enough; lia. Qed.

Lemma serial_rec_pieces (n : nat) :
  forall (arr temp xs A C T us U : list V) (left right : Z),
    arr = A ++ xs ++ C -> temp = T ++ us ++ U ->
    left = Z.of_nat (length A) -> right + 1 - left = Z.of_nat (length xs) ->
    length T = length A -> length us = length xs ->
    (length xs - 1 <= n)%nat ->
    exists us',
      length us' = length xs /\
      mergesort_serial_rec undef leb n arr temp left right
      = (A ++ sort_list_rec leb n xs ++ C, T ++ us' ++ U) /\
      (left < right -> us' = sort_list_rec leb n xs) /\
      (right <= left -> us' = us).
Proof.
  induction n as [|n IH];
    intros arr temp xs A C T us U left right Harr Htemp Hleft Hright HT Hus Hn.
  - exists us. simpl. subst arr temp. repeat split; [done|lia].
  - rewrite mergesort_serial_rec_S, sort_list_rec_S.
    destruct (Z.ltb_spec left right) as [Hlt|Hge];
      destruct (Nat.ltb_spec 1 (length xs)) as [Hlen|Hlen]; try lia.
    2:{ exists us. subst arr temp. repeat split; [done|lia]. }
    cbv zeta.
    set (h := S ((length xs - 1) / 2)).
    set (mid := left + Z.quot (right - left) 2).
    assert (Hmid : mid + 1 - left = Z.of_nat h)
      by (apply mid_split; lia).
    pose proof (half_lt (length xs) Hlen) as Hh. fold h in Hh.
    assert (Hs1 : length (sort_list_rec leb n (take h xs)) = h)
      by (rewrite sort_list_rec_length, length_take; lia).
    assert (Hs2 : length (sort_list_rec leb n (drop h xs)) = (length xs - h)%nat)
      by (rewrite sort_list_rec_length, length_drop; lia).
    destruct (IH arr temp (take h xs) A (drop h xs ++ C) T (take h us)
                (drop h us ++ U) left mid) as (us1 & Hus1 & E1 & _);
      rewrite ?length_take; try lia.
    { rewrite Harr. by rewrite (app_assoc (take h xs)), take_drop. }
    { rewrite Htemp. by rewrite (app_assoc (take h us)), take_drop. }
    rewrite length_take in Hus1.
    rewrite E1.
    destruct (IH (A ++ sort_list_rec leb n (take h xs) ++ drop h xs ++ C)
                (T ++ us1 ++ drop h us ++ U) (drop h xs)
                (A ++ sort_list_rec leb n (take h xs)) C (T ++ us1)
                (drop h us) U (mid + 1) right) as (us2 & Hus2 & E2 & _);
      rewrite ?length_app, ?length_drop, ?Hs1; try lia; try same_pieces.
    rewrite length_drop in Hus2.
    rewrite E2.
    exists (merge_lists leb (sort_list_rec leb n (take h xs))
              (sort_list_rec leb n (drop h xs))).
    split; [|split; [|split; [done|lia]]].
    + rewrite merge_lists_length. lia.
    + apply merge_pieces with (us := us1 ++ us2);
        rewrite ?length_app; try lia; try same_pieces.
Qed.
End SerialCorrect.

Section ParallelCorrect.
Context {V : Type}.
Variable undef : V.
Variable leb : V -> V -> bool.

Lemma sort_list_short (l : list V) : (length l <= 1)%nat -> sort_list leb l = l.
Proof.
  intros Hl. unfold sort_list. destruct (length l) as [|n] eqn:E; [done|].
  rewrite sort_list_rec_S, E. destruct (Nat.ltb_spec 1 (S n)); [lia|done].
Qed.

Lemma sort_list_split (l : list V) :
  (2 <= length l)%nat ->
  sort_list leb l
  = merge_lists leb (sort_list leb (take (S ((length l - 1) / 2)) l))
      (sort_list leb (drop (S ((length l - 1) / 2)) l)).
Proof.
  intros Hl. pose proof (half_lt (length l) Hl) as Hh.
  unfold sort_list at 1. destruct (length l) as [|n] eqn:E; [lia|].
  rewrite sort_list_rec_S, E. destruct (Nat.ltb_spec 1 (S n)); [|lia].
  f_equal; apply sort_list_rec_sort_list;
    rewrite ?length_take, ?length_drop, E; lia.
Qed.

Lemma serial_pieces (arr temp xs A C T us U : list V) (left right : Z) :
  arr = A ++ xs ++ C -> temp = T ++ us ++ U ->
  left = Z.of_nat (length A) -> right + 1 - left = Z.of_nat (length xs) ->
  length T = length A -> length us = length xs ->
  exists us',
    length us' = length xs /\
    mergesort_serial undef leb arr temp left right
    = (A ++ sort_list leb xs ++ C, T ++ us' ++ U) /\
    (left < right -> us' = sort_list leb xs) /\
    (right <= left -> us' = us).
Proof.
  intros Harr Htemp Hleft Hright HT Hus. unfold mergesort_serial.
  destruct (serial_rec_pieces undef leb (Z.to_nat (right - left)) arr temp xs
              A C T us U left right) as (us' & Hlen & E & Hlt & Hge);
    try done; try lia.
  rewrite sort_list_rec_sort_list in E, Hlt by lia.
  by exists us'.
Qed.

Lemma mergesort_parallel_rec_eq (sched : Z -> Z -> bool) (n : nat)
    (arr temp : list V) (left right depth : Z) :
  mergesort_parallel_rec undef leb sched n arr temp left right depth
  = if (depth <=? 0) || (right - left <=? CUTOFF) then
      (mergesort_serial undef leb arr temp left right, Sequential left right)
    else
      match n with
      | O => (arr, temp, Sequential left right)
      | S n' =>
          if left <? right then
            let mid := left + Z.quot (right - left) 2 in
            if sched left right then
              let '(arr, temp, t1) :=
                mergesort_parallel_rec undef leb sched n' arr temp left mid
                  (depth - 1) in
              let '(arr, temp, t2) :=
                mergesort_parallel_rec undef leb sched n' arr temp (mid + 1)
                  right (depth - 1) in
              (merge undef leb arr temp left mid right,
               Forked left mid right depth t1 t2)
            else
              let '(arr, temp, t2) :=
                mergesort_parallel_rec undef leb sched n' arr temp (mid + 1)
                  right (depth - 1) in
              let '(arr, temp, t1) :=
                mergesort_parallel_rec undef leb sched n' arr temp left mid
                  (depth - 1) in
              (merge undef leb arr temp left mid right,
               Forked left mid right depth t1 t2)
          else (arr, temp, Sequential left right)
      end.
Proof. by destruct n. Qed.

(** Whatever the depth budget and whichever subtask completes first, the
    task leaves the sorted run in its range of [arr]. *)
Lemma parallel_rec_pieces (sched : Z -> Z -> bool) (n : nat) :
  forall (arr temp xs A C T us U : list V) (left right depth : Z),
    arr = A ++ xs ++ C -> temp = T ++ us ++ U ->
    left = Z.of_nat (length A) -> right + 1 - left = Z.of_nat (length xs) ->
    length T = length A -> length us = length xs ->
    (Z.to_nat depth <= n)%nat ->
    exists us' t,
      length us' = length xs /\
      mergesort_parallel_rec undef leb sched n arr temp left right depth
      = (A ++ sort_list leb xs ++ C, T ++ us' ++ U, t) /\
      (left < right -> us' = sort_list leb xs) /\
      (right <= left -> us' = us).
Proof.
  induction n as [|n IH];
    intros arr temp xs A C T us U left right depth Harr Htemp Hleft Hright
      HT Hus Hn;
    rewrite mergesort_parallel_rec_eq;
    (destruct ((depth <=? 0) || (right - left <=? CUTOFF)) eqn:Hcut;
     [ destruct (serial_pieces arr temp xs A C T us U left right)
         as (us' & Hlen & E & Hlt & Hge); try done;
       exists us', (Sequential left right); by rewrite E | ]);
    apply orb_false_iff in Hcut as [Hd Hc];
    apply Z.leb_gt in Hd, Hc; unfold CUTOFF in Hc; [lia|].
  destruct (Z.ltb_spec left right) as [Hlt|]; [|lia].
  cbv zeta.
  set (h := S ((length xs - 1) / 2)).
  set (mid := left + Z.quot (right - left) 2).
  assert (Hmid : mid + 1 - left = Z.of_nat h) by (apply mid_split; lia).
  assert (Hlen : (2 <= length xs)%nat) by lia.
  pose proof (half_lt (length xs) Hlen) as Hh. fold h in Hh.
  assert (Hs1 : length (sort_list leb (take h xs)) = h)
    by (unfold sort_list; rewrite sort_list_rec_length, length_take; lia).
  assert (Hs2 : length (sort_list leb (drop h xs)) = (length xs - h)%nat)
    by (unfold sort_list; rewrite sort_list_rec_length, length_drop; lia).
  rewrite (sort_list_split xs Hlen). fold h.
  destruct (sched left right).
  - destruct (IH arr temp (take h xs) A (drop h xs ++ C) T (take h us)
                (drop h us ++ U) left mid (depth - 1))
      as (us1 & t1 & Hus1 & E1 & _); rewrite ?length_take; try lia.
    { rewrite Harr. by rewrite (app_assoc (take h xs)), take_drop. }
    { rewrite Htemp. by rewrite (app_assoc (take h us)), take_drop. }
    rewrite length_take in Hus1. rewrite E1.
    destruct (IH (A ++ sort_list leb (take h xs) ++ drop h xs ++ C)
                (T ++ us1 ++ drop h us ++ U) (drop h xs)
                (A ++ sort_list leb (take h xs)) C (T ++ us1)
                (drop h us) U (mid + 1) right (depth - 1))
      as (us2 & t2 & Hus2 & E2 & _);
      rewrite ?length_app, ?length_drop, ?Hs1; try lia; try same_pieces.
    rewrite length_drop in Hus2. rewrite E2.
    eexists _, _. split; [|split; [|split; [done|lia]]].
    + rewrite merge_lists_length. lia.
    + f_equal. apply merge_pieces with (us := us1 ++ us2);
        rewrite ?length_app; try lia; try same_pieces.
  - destruct (IH arr temp (drop h xs) (A ++ take h xs) C (T ++ take h us)
                (drop h us) U (mid + 1) right (depth - 1))
      as (us2 & t2 & Hus2 & E2 & _);
      rewrite ?length_app, ?length_drop, ?length_take; try lia.
    { rewrite Harr. by rewrite <- app_assoc, (app_assoc (take h xs)), take_drop. }
    { rewrite Htemp. by rewrite <- app_assoc, (app_assoc (take h us)), take_drop. }
    rewrite length_drop in Hus2. rewrite E2.
    destruct (IH ((A ++ take h xs) ++ sort_list leb (drop h xs) ++ C)
                ((T ++ take h us) ++ us2 ++ U) (take h xs)
                A (sort_list leb (drop h xs) ++ C) T
                (take h us) (us2 ++ U) left mid (depth - 1))
      as (us1 & t1 & Hus1 & E1 & _);
      rewrite ?length_app, ?length_take; try lia; try same_pieces.
    rewrite length_take in Hus1. rewrite E1.
    eexists _, _. split; [|split; [|split; [done|lia]]].
    + rewrite merge_lists_length. lia.
    + f_equal. apply merge_pieces with (us := us1 ++ us2);
        rewrite ?length_app; try lia; try same_pieces.
Qed.
End ParallelCorrect.

(** ** Sorted lists: what the merge gives for every comparison, for
    values that are comparable, and for a transitive comparison *)

Section OrderedLists.
Context {V : Type}.
Variable leb : V -> V -> bool.

Abbreviation leq := (lte leb).
Abbreviation sorted := (sorted leb).

Lemma merge_lists_perm (l1 : list V) :
  forall l2, Permutation (merge_lists leb l1 l2) (l1 ++ l2).
Proof.
  induction l1 as [|x l1 IH]; intros l2.
  - by rewrite merge_lists_nil_l.
  - induction l2 as [|y l2 IH2].
    + by rewrite merge_lists_nil_r, app_nil_r.
    + rewrite merge_lists_cons. destruct (leb x y).
      * simpl. constructor. apply IH.
      * rewrite IH2. apply (Permutation_middle (x :: l1) l2 y).
Qed.

Lemma sort_list_rec_perm (n : nat) :
  forall l : list V, Permutation (sort_list_rec leb n l) l.
Proof.
  induction n as [|n IH]; intros l; [done|]. rewrite sort_list_rec_S.
  destruct (1 <? length l)%nat; [|done].
  by rewrite merge_lists_perm, !IH, take_drop.
Qed.

Lemma sort_list_perm (l : list V) : Permutation (sort_list leb l) l.
Proof. apply sort_list_rec_perm. Qed.

Lemma sort_list_length (l : list V) : length (sort_list leb l) = length l.
Proof. apply sort_list_rec_length. Qed.

Lemma sorted_app (l1 l2 : list V) : sorted (l1 ++ l2) -> sorted l1 /\ sorted l2.
Proof.
  induction l1 as [|x l1 IH]; intros H; [split; [constructor|done]|].
  simpl in H. apply Sorted_inv in H as [H Hd].
  destruct (IH H) as [H1 H2]. split; [|done].
  constructor; [done|]. destruct l1; [constructor|].
  inversion Hd; subst. by constructor.
Qed.

Lemma Forall_perm (P : V -> Prop) (l l' : list V) :
  Permutation l l' -> Forall P l' -> Forall P l.
Proof.
  intros Hperm. rewrite !Forall_forall. intros H x Hx. apply H.
  by rewrite <- Hperm.
Qed.

Lemma merge_lists_HdRel (R : V -> V -> Prop) (a : V) (l1 l2 : list V) :
  HdRel R a l1 -> HdRel R a l2 -> HdRel R a (merge_lists leb l1 l2).
Proof.
  intros H1 H2. destruct l1 as [|x l1]; [by rewrite merge_lists_nil_l|].
  destruct l2 as [|y l2]; [done|]. rewrite merge_lists_cons.
  inversion H1; inversion H2; subst. destruct (leb x y); by constructor.
Qed.

(** Whatever the comparison is, the merge of two runs in which every
    element may stand before the next is such a run: the loop writes [y]
    before [x] only when [x <= y] fails. *)
Lemma merge_lists_precedes (l1 : list V) :
  forall l2, Sorted (lte (precedes leb)) l1 -> Sorted (lte (precedes leb)) l2 ->
    Sorted (lte (precedes leb)) (merge_lists leb l1 l2).
Proof.
  induction l1 as [|x l1 IH]; intros l2 H1 H2.
  - by rewrite merge_lists_nil_l.
  - induction l2 as [|y l2 IH2]; [done|].
    rewrite merge_lists_cons.
    apply Sorted_inv in H1 as [H1 Hd1]. apply Sorted_inv in H2 as [H2 Hd2].
    destruct (leb x y) eqn:E.
    + constructor.
      * apply IH; [done|by constructor].
      * apply merge_lists_HdRel; [done|]. constructor.
        unfold lte, precedes. by rewrite E.
    + constructor.
      * by apply IH2.
      * apply merge_lists_HdRel; [|done]. constructor.
        unfold lte, precedes. rewrite E. apply orb_true_r.
Qed.

Lemma sort_list_rec_precedes (n : nat) :
  forall l : list V,
    (length l - 1 <= n)%nat ->
    Sorted (lte (precedes leb)) (sort_list_rec leb n l).
Proof.
  induction n as [|n IH]; intros l Hn.
  - simpl. destruct l as [|x [|y l]]; simpl in Hn; try lia;
      repeat constructor.
  - rewrite sort_list_rec_S.
    destruct (Nat.ltb_spec 1 (length l)) as [Hl|Hl].
    + pose proof (half_lt (length l) Hl).
      apply merge_lists_precedes; apply IH;
        rewrite ?length_take, ?length_drop; lia.
    + destruct l as [|x [|y l]]; simpl in Hl; try lia; repeat constructor.
Qed.

Lemma sort_list_precedes (l : list V) :
  Sorted (lte (precedes leb)) (sort_list leb l).
Proof. apply sort_list_rec_precedes. lia. Qed.

Lemma sorted_may_precede (l : list V) :
  sorted l -> Sorted (lte (precedes leb)) l.
Proof.
  induction 1 as [|x l Hs IH Hd]; constructor; [done|].
  destruct Hd as [|y l' Hxy]; constructor.
  unfold lte, precedes in *. by rewrite Hxy.
Qed.

(** Among values that compare one way or the other, such a run is in
    non-decreasing order. *)
Variable ordered : V -> Prop.
Hypothesis leb_total :
  forall x y, ordered x -> ordered y -> leb x y = true \/ leb y x = true.

Lemma precedes_sorted (l : list V) :
  Forall ordered l -> Sorted (lte (precedes leb)) l -> sorted l.
Proof.
  intros Hall. induction 1 as [|x l Hs IH Hd]; [constructor|].
  apply Forall_cons in Hall as [Hx Hall].
  constructor; [by apply IH|].
  destruct Hd as [|y l' Hxy]; constructor.
  apply Forall_cons in Hall as [Hy _].
  unfold lte, precedes in *.
  destruct (leb x y) eqn:E; [done|]. simpl in Hxy.
  destruct (leb_total x y Hx Hy) as [H|H]; [congruence|].
  rewrite H in Hxy. done.
Qed.

Lemma merge_lists_sorted (l1 l2 : list V) :
  Forall ordered l1 -> Forall ordered l2 ->
  sorted l1 -> sorted l2 -> sorted (merge_lists leb l1 l2).
Proof.
  intros Ho1 Ho2 H1 H2. apply precedes_sorted.
  - apply (Forall_perm _ _ (l1 ++ l2)); [apply merge_lists_perm|].
    by apply Forall_app.
  - by apply merge_lists_precedes; apply sorted_may_precede.
Qed.

Lemma sort_list_rec_sorted (n : nat) (l : list V) :
  Forall ordered l -> (length l - 1 <= n)%nat ->
  sorted (sort_list_rec leb n l).
Proof.
  intros Ho Hn. apply precedes_sorted.
  - by apply (Forall_perm _ _ l); [apply sort_list_rec_perm|].
  - by apply sort_list_rec_precedes.
Qed.

Lemma sort_list_sorted (l : list V) :
  Forall ordered l -> sorted (sort_list leb l).
Proof. intros Ho. apply sort_list_rec_sorted; [done|lia]. Qed.

Hypothesis leb_trans :
  forall x y z, leb x y = true -> leb y z = true -> leb x z = true.

Lemma le_transitive : Transitive leq.
Proof. intros x y z. apply leb_trans. Qed.

Lemma sorted_head_le (x : V) (l : list V) : sorted (x :: l) -> Forall (leq x) l.
Proof. apply Sorted_extends, le_transitive. Qed.

(** When [x <= y] fails, what ties with [y] ties neither with [x] nor
    with what comes after [x] in a sorted run. *)
Lemma no_tie_above (c x y : V) (l : list V) :
  leb x y = false -> tie leb c y = true -> Forall (leq x) l ->
  List.filter (tie leb c) (x :: l) = [].
Proof.
  intros Exy Hc Hl. unfold tie in Hc.
  apply andb_true_iff in Hc as [Hcy Hyc].
  assert (Hnone : forall z, leb z c = true -> leb x z = true -> False).
  { intros z Hzc Hxz.
    rewrite (leb_trans x z y Hxz (leb_trans z c y Hzc Hcy)) in Exy. done. }
  cbn [List.filter]. destruct (tie leb c x) eqn:Ex.
  { unfold tie in Ex. apply andb_true_iff in Ex as [Hcx Hxc].
    rewrite (leb_trans x c y Hxc Hcy) in Exy. done. }
  induction Hl as [|z l Hz Hl IH]; [done|].
  cbn [List.filter]. rewrite IH. destruct (tie leb c z) eqn:Ez; [|done].
  unfold tie in Ez. apply andb_true_iff in Ez as [Hcz Hzc].
  destruct (Hnone z Hzc Hz).
Qed.

Lemma filter_step (c a : V) (l : list V) :
  List.filter (tie leb c) (a :: l)
  = if tie leb c a then a :: List.filter (tie leb c) l
    else List.filter (tie leb c) l.
Proof. reflexivity. Qed.

(** Stability of the merge: the values that tie with [c] come out in
    their order in the left run followed by their order in the right
    run. *)
Lemma merge_lists_stable (c : V) (l1 : list V) :
  forall l2, sorted l1 -> sorted l2 ->
    List.filter (tie leb c) (merge_lists leb l1 l2)
    = List.filter (tie leb c) l1 ++ List.filter (tie leb c) l2.
Proof.
  induction l1 as [|x l1 IH]; intros l2 H1 H2.
  - by rewrite merge_lists_nil_l.
  - induction l2 as [|y l2 IH2].
    + by rewrite merge_lists_nil_r, app_nil_r.
    + rewrite merge_lists_cons. destruct (leb x y) eqn:E.
      * rewrite !(filter_step c x).
        rewrite IH; [|by apply Sorted_inv in H1 as [? _]|done].
        by destruct (tie leb c x).
      * rewrite !(filter_step c y).
        rewrite IH2 by (by apply Sorted_inv in H2 as [? _]).
        destruct (tie leb c y) eqn:Ey; [|done].
        rewrite (no_tie_above c x y l1); [done|done|done|].
        by apply sorted_head_le.
Qed.

(** Merging the two halves of a sorted list gives the list back. *)
Lemma merge_lists_sorted_app (l1 : list V) :
  forall l2, sorted (l1 ++ l2) -> merge_lists leb l1 l2 = l1 ++ l2.
Proof.
  induction l1 as [|x l1 IH]; intros l2 H.
  - by rewrite merge_lists_nil_l.
  - destruct l2 as [|y l2]; [by rewrite merge_lists_nil_r, app_nil_r|].
    rewrite merge_lists_cons.
    pose proof (sorted_head_le x _ H) as Hx.
    apply Forall_app in Hx as [_ Hx]. apply Forall_cons in Hx as [Hxy _].
    unfold lte in Hxy.
    rewrite Hxy. simpl. f_equal. apply IH. by apply Sorted_inv in H as [? _].
Qed.

Lemma sort_list_rec_sorted_id (n : nat) :
  forall l : list V, sorted l -> sort_list_rec leb n l = l.
Proof.
  induction n as [|n IH]; intros l H; [done|]. rewrite sort_list_rec_S.
  destruct (1 <? length l)%nat; [|done].
  rewrite <- (take_drop (S ((length l - 1) / 2)) l) in H.
  destruct (sorted_app _ _ H) as [H1 H2].
  rewrite !IH by done. rewrite merge_lists_sorted_app by done.
  apply take_drop.
Qed.

Lemma sort_list_sorted_id (l : list V) : sorted l -> sort_list leb l = l.
Proof. apply sort_list_rec_sorted_id. Qed.
End OrderedLists.

Section ComparableLists.
Context {V : Type}.
Variable leb : V -> V -> bool.

Lemma sort_list_comparable (l : list V) :
  comparable leb l -> sorted leb (sort_list leb l).
Proof.
  intros Hl. apply (sort_list_sorted leb (fun x => x ∈ l)).
  - intros x y Hx Hy. by apply Hl.
  - by apply Forall_forall.
Qed.

Lemma merge_lists_comparable (l1 l2 : list V) :
  comparable leb (l1 ++ l2) -> sorted leb l1 -> sorted leb l2 ->
  sorted leb (merge_lists leb l1 l2).
Proof.
  intros Hl. apply (merge_lists_sorted leb (fun x => x ∈ l1 ++ l2)).
  - intros x y Hx Hy. by apply Hl.
  - apply Forall_forall. intros x Hx. apply elem_of_app. by left.
  - apply Forall_forall. intros x Hx. apply elem_of_app. by right.
Qed.

Lemma total_comparable (l : list V) :
  (forall x y, leb x y = true \/ leb y x = true) -> comparable leb l.
Proof. intros Htotal x y _ _. apply Htotal. Qed.
End ComparableLists.

(** ** The sorter on a range given by its bounds *)

Section Ranges.
Context {V : Type}.
Variable undef : V.
Variable leb : V -> V -> bool.

Lemma range_cut (a : list V) (lo hi : Z) :
  0 <= lo -> lo <= hi -> hi <= Z.of_nat (length a) ->
  a = take (Z.to_nat lo) a ++ slice a lo hi ++ drop (Z.to_nat hi) a /\
  lo = Z.of_nat (length (take (Z.to_nat lo) a)) /\
  hi - lo = Z.of_nat (length (slice a lo hi)).
Proof.
  intros Hlo Hle Hhi.
  assert (Hlen : length (slice a lo hi) = Z.to_nat (hi - lo)).
  { unfold slice. rewrite length_take, length_drop. lia. }
  split; [|split].
  - unfold slice.
    rewrite <- (take_drop (Z.to_nat lo) a) at 1. f_equal.
    rewrite <- (take_drop (Z.to_nat (hi - lo)) (drop (Z.to_nat lo) a)) at 1.
    f_equal. rewrite drop_drop. f_equal. lia.
  - rewrite length_take. lia.
  - rewrite Hlen. lia.
Qed.

Lemma slice_take (a : list V) (lo mid hi : Z) :
  0 <= lo -> lo <= mid -> mid <= hi ->
  slice a lo mid = take (Z.to_nat (mid - lo)) (slice a lo hi).
Proof.
  intros Hlo Hmid Hhi. unfold slice. rewrite take_take. f_equal. lia.
Qed.

Lemma slice_drop (a : list V) (lo mid hi : Z) :
  0 <= lo -> lo <= mid -> mid <= hi ->
  slice a mid hi = drop (Z.to_nat (mid - lo)) (slice a lo hi).
Proof.
  intros Hlo Hmid Hhi. unfold slice.
  replace (Z.to_nat (hi - lo))
    with (Z.to_nat (mid - lo) + Z.to_nat (hi - mid))%nat by lia.
  rewrite <- take_drop_commute, drop_drop. do 2 f_equal. lia.
Qed.

(** What is left of an array whose range [lo .. hi-1] was overwritten. *)
Lemma overwritten_range (a A xs ys C : list V) (lo hi : Z) :
  a = A ++ xs ++ C -> lo = Z.of_nat (length A) ->
  hi - lo = Z.of_nat (length xs) -> length ys = length xs ->
  length (A ++ ys ++ C) = length a /\
  slice (A ++ ys ++ C) lo hi = ys /\
  slice (A ++ ys ++ C) 0 lo = slice a 0 lo /\
  drop (Z.to_nat hi) (A ++ ys ++ C) = drop (Z.to_nat hi) a.
Proof.
  intros -> Hlo Hhi Hlen. split; [|split; [|split]].
  - rewrite !length_app. lia.
  - apply slice_middle; [done|lia].
  - unfold slice. rewrite Z.sub_0_r, Hlo, Nat2Z.id.
    change (Z.to_nat 0) with 0%nat. by rewrite !drop_0, !take_app_length.
  - replace (Z.to_nat hi) with (length A + length xs)%nat by lia.
    rewrite !drop_app_add, drop_app_length.
    rewrite <- Hlen. by rewrite drop_app_length.
Qed.

(** The two arrays after a sort of the range [left .. right]. *)
Lemma serial_range (arr temp : list V) (left right : Z) :
  0 <= left -> left <= right + 1 ->
  right + 1 <= Z.of_nat (length arr) -> right + 1 <= Z.of_nat (length temp) ->
  mergesort_serial undef leb arr temp left right
  = (take (Z.to_nat left) arr ++ sort_list leb (slice arr left (right + 1))
       ++ drop (Z.to_nat (right + 1)) arr,
     if left <? right
     then take (Z.to_nat left) temp ++ sort_list leb (slice arr left (right + 1))
            ++ drop (Z.to_nat (right + 1)) temp
     else temp).
Proof.
  intros Hleft Hle Harr Htemp.
  destruct (range_cut arr left (right + 1)) as (Ea & Ha & Hxs); try lia.
  destruct (range_cut temp left (right + 1)) as (Et & Ht & Hus); try lia.
  destruct (serial_pieces undef leb arr temp _ _ _ _ _ _ left right Ea Et)
    as (us' & Hlen & E & Hlt & Hge); try lia.
  rewrite E. f_equal.
  destruct (Z.ltb_spec left right).
  - by rewrite Hlt.
  - by rewrite Hge, <- Et.
Qed.

Lemma parallel_range (sched : Z -> Z -> bool) (arr temp : list V)
    (left right depth : Z) :
  0 <= left -> left <= right + 1 ->
  right + 1 <= Z.of_nat (length arr) -> right + 1 <= Z.of_nat (length temp) ->
  (mergesort_parallel undef leb sched arr temp left right depth).1
  = (take (Z.to_nat left) arr ++ sort_list leb (slice arr left (right + 1))
       ++ drop (Z.to_nat (right + 1)) arr,
     if left <? right
     then take (Z.to_nat left) temp ++ sort_list leb (slice arr left (right + 1))
            ++ drop (Z.to_nat (right + 1)) temp
     else temp).
Proof.
  intros Hleft Hle Harr Htemp. unfold mergesort_parallel.
  destruct (range_cut arr left (right + 1)) as (Ea & Ha & Hxs); try lia.
  destruct (range_cut temp left (right + 1)) as (Et & Ht & Hus); try lia.
  destruct (parallel_rec_pieces undef leb sched (Z.to_nat depth) arr temp
              _ _ _ _ _ _ left right depth Ea Et)
    as (us' & t & Hlen & E & Hlt & Hge); try lia.
  rewrite E. simpl. f_equal.
  destruct (Z.ltb_spec left right).
  - by rewrite Hlt.
  - by rewrite Hge, <- Et.
Qed.

(** An empty or inverted range is left alone. *)
Lemma serial_no_range (arr temp : list V) (left right : Z) :
  right <= left -> mergesort_serial undef leb arr temp left right = (arr, temp).
Proof.
  intros H. unfold mergesort_serial.
  by replace (Z.to_nat (right - left)) with 0%nat by lia.
Qed.

Lemma parallel_no_range (sched : Z -> Z -> bool) (arr temp : list V)
    (left right depth : Z) :
  right <= left ->
  mergesort_parallel undef leb sched arr temp left right depth
  = (arr, temp, Sequential left right).
Proof.
  intros H. unfold mergesort_parallel. rewrite mergesort_parallel_rec_eq.
  destruct (Z.leb_spec (right - left) CUTOFF) as [_|Hc];
    [|unfold CUTOFF in Hc; lia].
  by rewrite orb_true_r, serial_no_range.
Qed.
End Ranges.

(** ** The sorter: what a call guarantees *)

Section SorterClaims.
Context {V : Type}.
Variable undef : V.
Variable leb : V -> V -> bool.
Variable sched : Z -> Z -> bool.

Abbreviation sorted := (sorted leb).

Lemma mergesort_parallel_fallback (arr temp : list V) (left right depth : Z) :
  depth <= 0 \/ right - left <= CUTOFF ->
  mergesort_parallel undef leb sched arr temp left right depth
  = (mergesort_serial undef leb arr temp left right, Sequential left right).
Proof.
  intros H. unfold mergesort_parallel. rewrite mergesort_parallel_rec_eq.
  destruct (Z.leb_spec depth 0); [done|].
  destruct (Z.leb_spec (right - left) CUTOFF); [done|lia].
Qed.

Lemma mergesort_parallel_fork (arr temp : list V) (left right depth : Z) :
  0 < depth -> CUTOFF < right - left ->
  mergesort_parallel undef leb sched arr temp left right depth
  = let mid := left + Z.quot (right - left) 2 in
    if sched left right then
      let '(arr, temp, t1) :=
        mergesort_parallel undef leb sched arr temp left mid (depth - 1) in
      let '(arr, temp, t2) :=
        mergesort_parallel undef leb sched arr temp (mid + 1) right (depth - 1) in
      (merge undef leb arr temp left mid right, Forked left mid right depth t1 t2)
    else
      let '(arr, temp, t2) :=
        mergesort_parallel undef leb sched arr temp (mid + 1) right (depth - 1) in
      let '(arr, temp, t1) :=
        mergesort_parallel undef leb sched arr temp left mid (depth - 1) in
      (merge undef leb arr temp left mid right, Forked left mid right depth t1 t2).
Proof.
  intros Hd Hc. unfold mergesort_parallel at 1.
  replace (Z.to_nat depth) with (S (Z.to_nat (depth - 1))) by lia.
  rewrite mergesort_parallel_rec_eq.
  destruct (Z.leb_spec depth 0); [lia|].
  destruct (Z.leb_spec (right - left) CUTOFF); [lia|].
  unfold CUTOFF in Hc.
  destruct (Z.ltb_spec left right); [|lia]. reflexivity.
Qed.

(** The sorted range, and the rest of the array, after a task. *)
Lemma mergesort_parallel_range (arr temp : list V) (left right depth : Z) :
  0 <= left -> left <= right + 1 ->
  right + 1 <= Z.of_nat (length arr) -> right + 1 <= Z.of_nat (length temp) ->
  let arr' := (mergesort_parallel undef leb sched arr temp left right depth).1.1 in
  length arr' = length arr /\
  slice arr' left (right + 1) = sort_list leb (slice arr left (right + 1)) /\
  slice arr' 0 left = slice arr 0 left /\
  drop (Z.to_nat (right + 1)) arr' = drop (Z.to_nat (right + 1)) arr.
Proof.
  intros Hleft Hle Harr Htemp arr'. subst arr'.
  rewrite parallel_range by done. simpl.
  destruct (range_cut arr left (right + 1)) as (Ea & Ha & Hxs); try lia.
  apply (overwritten_range arr _ (slice arr left (right + 1))); try done.
  apply sort_list_length.
Qed.

(** The array after a call of [parallel_sort] that had its buffer. *)
Lemma parallel_sort_output (temp arr : list V) (max_threads size : Z) :
  0 <= size -> size <= Z.of_nat (length arr) ->
  Z.of_nat (length temp) = size ->
  let arr' := parallel_sort undef leb sched (Some temp) max_threads arr size in
  slice arr' 0 size = sort_list leb (slice arr 0 size) /\
  length arr' = length arr /\
  drop (Z.to_nat size) arr' = drop (Z.to_nat size) arr.
Proof.
  intros Hsize Harr Htemp arr'.
  destruct (mergesort_parallel_range arr temp 0 (size - 1) max_threads)
    as (Hlen & Hsort & _ & Hrest); try lia.
  replace (size - 1 + 1) with size in * by lia. done.
Qed.
End SorterClaims.

Section MergeRange.
Context {V : Type}.
Variable undef : V.
Variable leb : V -> V -> bool.

(** [merge] on a range given by its bounds. *)
Lemma merge_range (arr temp : list V) (left mid right : Z) :
  0 <= left -> left <= mid + 1 -> mid <= right ->
  right + 1 <= Z.of_nat (length arr) -> right + 1 <= Z.of_nat (length temp) ->
  merge undef leb arr temp left mid right
  = (take (Z.to_nat left) arr
       ++ merge_lists leb (slice arr left (mid + 1)) (slice arr (mid + 1) (right + 1))
       ++ drop (Z.to_nat (right + 1)) arr,
     take (Z.to_nat left) temp
       ++ merge_lists leb (slice arr left (mid + 1)) (slice arr (mid + 1) (right + 1))
       ++ drop (Z.to_nat (right + 1)) temp).
Proof.
  intros Hleft Hmid Hright Harr Htemp.
  destruct (range_cut arr left (right + 1)) as (Ea & Ha & Hxs); try lia.
  destruct (range_cut temp left (right + 1)) as (Et & Ht & Hus); try lia.
  rewrite (slice_take arr left (mid + 1) (right + 1)) by lia.
  rewrite (slice_drop arr left (mid + 1) (right + 1)) by lia.
  set (xs := slice arr left (right + 1)) in *.
  set (h := Z.to_nat (mid + 1 - left)).
  apply merge_pieces with (us := slice temp left (right + 1));
    rewrite ?length_take, ?length_drop; try lia.
  - by rewrite (app_assoc (take h xs)), take_drop.
  - done.
Qed.

Lemma slice_first (a : list V) (lo hi : Z) :
  0 <= lo -> lo < hi -> hi <= Z.of_nat (length a) ->
  slice a lo hi = rd undef a lo :: slice a (lo + 1) hi.
Proof.
  intros Hlo Hlt Hhi.
  destruct (range_cut a lo hi) as (Ea & Ha & Hxs); try lia.
  destruct (slice a lo hi) as [|x xs] eqn:E; [simpl in Hxs; lia|].
  f_equal.
  - symmetry. by apply (rd_at undef a (take (Z.to_nat lo) a)
                          (xs ++ drop (Z.to_nat hi) a) x lo).
  - rewrite (slice_drop a lo (lo + 1) hi) by lia. rewrite E.
    by replace (Z.to_nat (lo + 1 - lo)) with 1%nat by lia.
Qed.

Lemma rd_slice_first (a : list V) (lo hi : Z) (x : V) (xs : list V) :
  0 <= lo -> hi <= Z.of_nat (length a) -> slice a lo hi = x :: xs ->
  rd undef a lo = x.
Proof.
  intros Hlo Hhi E.
  assert (lo < hi).
  { destruct (Z.lt_ge_cases lo hi); [done|]. by rewrite slice_empty in E by lia. }
  rewrite slice_first in E by lia. by injection E.
Qed.
End MergeRange.

(** ** The comparison of the integers *)

Lemma Zleb_total (x y : Z) : (x <=? y) = true \/ (y <=? x) = true.
Proof. destruct (Z.leb_spec x y); [by left|right]. apply Z.leb_le. lia. Qed.

Lemma Zleb_trans (x y z : Z) :
  (x <=? y) = true -> (y <=? z) = true -> (x <=? z) = true.
Proof. rewrite !Z.leb_le. lia. Qed.

(** ** The comparisons of [double] *)

(** Two finite numbers of the same sign compare by their exponents, then
    by their digits. *)
Ltac compare_cases :=
  repeat match goal with
         | |- context [Z.compare ?a ?b] =>
             destruct (Z.compare_spec a b); subst
         | H : context [Z.compare ?a ?b] |- _ =>
             destruct (Z.compare_spec a b); subst
         | |- context [Pos.compare_cont Eq ?a ?b] =>
             change (Pos.compare_cont Eq a b) with (Pos.compare a b);
             destruct (Pos.compare_spec a b); subst
         | H : context [Pos.compare_cont Eq ?a ?b] |- _ =>
             change (Pos.compare_cont Eq a b) with (Pos.compare a b) in H;
             destruct (Pos.compare_spec a b); subst
         end.

(** Two numbers that are not NaN compare one way or the other. *)
Lemma double_leb_total (x y : double) :
  double_is_nan x = false -> double_is_nan y = false ->
  double_leb x y = true \/ double_leb y x = true.
Proof.
  unfold double_leb, SFleb, SFcompare.
  destruct x as [[]|[]| |[] m1 e1], y as [[]|[]| |[] m2 e2]; simpl;
    intros Hx Hy; try discriminate; auto;
    compare_cases; simpl; auto; lia.
Qed.

(** [<=] is transitive on all of [double]: with a NaN a premise fails. *)
Lemma double_leb_trans (x y z : double) :
  double_leb x y = true -> double_leb y z = true -> double_leb x z = true.
Proof.
  unfold double_leb, SFleb, SFcompare.
  destruct x as [[]|[]| |[] m1 e1], y as [[]|[]| |[] m2 e2],
    z as [[]|[]| |[] m3 e3]; simpl; intros Hxy Hyz;
    try discriminate; try reflexivity;
    compare_cases; simpl in *; try discriminate; try reflexivity; lia.
Qed.

Lemma double_ltb_leb (x y : double) :
  double_ltb x y = true -> double_leb x y = true.
Proof.
  unfold double_ltb, double_leb, SFltb, SFleb.
  by destruct (SFcompare x y) as [[]|].
Qed.

Lemma double_leb_not_gt (x y : double) :
  double_leb x y = true -> double_ltb y x = false.
Proof.
  unfold double_ltb, double_leb, SFltb, SFleb, SFcompare.
  destruct x as [[]|[]| |[] m1 e1], y as [[]|[]| |[] m2 e2]; simpl;
    intros Hxy; try discriminate; try reflexivity;
    compare_cases; simpl in *; try discriminate; try reflexivity; lia.
Qed.

(** Away from NaN, [<] is the strict part of [<=]. *)
Lemma double_ltb_not_leb (x y : double) :
  double_is_nan x = false -> double_is_nan y = false ->
  double_ltb x y = negb (double_leb y x).
Proof.
  unfold double_ltb, double_leb, SFltb, SFleb, SFcompare.
  destruct x as [[]|[]| |[] m1 e1], y as [[]|[]| |[] m2 e2]; simpl;
    intros Hx Hy; try discriminate; try reflexivity;
    compare_cases; simpl in *; try discriminate; try reflexivity; lia.
Qed.

(** The arrays of [double] without NaN are those with comparable
    values. *)
Lemma double_comparable (l : list double) :
  Forall (fun x => double_is_nan x = false) l <-> comparable double_leb l.
Proof.
  rewrite Forall_forall. split.
  - intros Hl x y Hx Hy. apply double_leb_total; by apply Hl.
  - intros Hl x Hx. destruct x; try done.
    by destruct (Hl S754_nan S754_nan Hx Hx).
Qed.

Lemma double_strict (l : list double) :
  Forall (fun x => double_is_nan x = false) l ->
  forall x y, x ∈ l -> y ∈ l -> double_ltb x y = negb (double_leb y x).
Proof.
  rewrite Forall_forall. intros Hl x y Hx Hy.
  apply double_ltb_not_leb; by apply Hl.
Qed.

(** In a sorted list each element is [<=] the next. *)
Lemma sorted_lookup {V : Type} (leb : V -> V -> bool) (l : list V) :
  sorted leb l ->
  forall (i : nat) (x y : V),
    l !! i = Some x -> l !! S i = Some y -> leb x y = true.
Proof.
  induction 1 as [|a l Hs IH Hd]; intros i x y Hx Hy; [done|].
  destruct i as [|i].
  - simpl in Hx, Hy. injection Hx as <-.
    destruct Hd as [|b l' Hab]; [done|]. simpl in Hy. by injection Hy as <-.
  - by apply (IH i).
Qed.

(** A sorted list of [double] holds no NaN after its first element. *)
Lemma sorted_no_nan_after (l : list double) (i : nat) (x : double) :
  sorted double_leb l -> l !! S i = Some x -> double_is_nan x = false.
Proof.
  intros Hs Hx.
  destruct (lookup_lt_is_Some_2 l i) as [y Hy].
  { apply lookup_lt_Some in Hx. lia. }
  pose proof (sorted_lookup double_leb l Hs i y x Hy Hx) as Hle.
  destruct x; try done. by destruct y as [[]|[]| |[]].
Qed.

(** ** Claims on the sorter *)

Section SorterTheorems.
Context {V : Type}.
Variable undef : V.
Variable leb : V -> V -> bool.
Variable sched : Z -> Z -> bool.

Abbreviation sorted := (sorted leb).
Abbreviation parallel_sort := (parallel_sort undef leb sched).
Abbreviation mergesort_parallel := (mergesort_parallel undef leb sched).
Abbreviation mergesort_serial := (mergesort_serial undef leb).
Abbreviation merge := (merge undef leb).

(** C1, as the code has it: with the auxiliary buffer allocated,
    [parallel_sort] leaves the first [size] elements of the array a
    permutation of what they were, whatever the values are; the length of
    the array and the elements past [size] do not change.  When the first
    [size] elements are comparable (for [double]: none of them is a NaN)
    they end in non-decreasing order.  On an empty or single-element array
    the call leaves everything as it is, whatever [malloc] returned. *)
Theorem parallel_sort_sorted_permutation
    (temp arr : list V) (max_threads size : Z) :
  0 <= size -> size <= Z.of_nat (length arr) ->
  Z.of_nat (length temp) = size ->
  let arr' := parallel_sort (Some temp) max_threads arr size in
  (comparable leb (slice arr 0 size) -> sorted (slice arr' 0 size)) /\
  Permutation (slice arr' 0 size) (slice arr 0 size) /\
  Permutation arr' arr /\
  length arr' = length arr /\
  drop (Z.to_nat size) arr' = drop (Z.to_nat size) arr /\
  (size <= 1 ->
   forall buffer, parallel_sort buffer max_threads arr size = arr).
Proof.
  intros Hsize Harr Htemp arr'.
  destruct (parallel_sort_output undef leb sched temp arr max_threads size)
    as (Hsort & Hlen & Hrest); try done.
  fold arr' in Hsort, Hlen, Hrest.
  split; [|split; [|split; [|split; [done|split; [done|]]]]].
  - intros Hcmp. rewrite Hsort. by apply sort_list_comparable.
  - rewrite Hsort. apply sort_list_perm.
  - destruct (range_cut arr' 0 size) as (E' & _); try lia.
    destruct (range_cut arr 0 size) as (E & _); try lia.
    rewrite E', E, Hsort, Hrest. simpl.
    apply Permutation_app_tail, sort_list_perm.
  - intros Hsmall [t|]; [|done]. simpl.
    by rewrite parallel_no_range by lia.
Qed.

(** C6, as the code has it: a task runs the sequential fallback exactly
    when [depth <= 0] or [right - left <= CUTOFF] with [CUTOFF = 1000],
    that is when the range [left .. right] holds at most 1001 elements;
    otherwise it forks the subtasks [(left, mid, depth-1)] and
    [(mid+1, right, depth-1)] and merges once both are done.  So a depth of
    0 forces the sequential sort whatever the range, and ranges of 1000 and
    of 1001 elements are both sorted sequentially.  Every range within the
    arrays comes out a permutation of what it held, and in non-decreasing
    order when its elements are comparable (for [double]: no NaN). *)
Theorem mergesort_parallel_cutoff (arr temp : list V) (left right depth : Z) :
  let run := mergesort_parallel arr temp left right depth in
  CUTOFF = 1000 /\
  is_sequential run.2 = (depth <=? 0) || (right - left <=? CUTOFF) /\
  is_sequential run.2 = (depth <=? 0) || (right - left + 1 <=? 1001) /\
  (depth <= 0 \/ right - left <= 1000 ->
   run = (mergesort_serial arr temp left right, Sequential left right)) /\
  (0 < depth -> 1000 < right - left ->
   let mid := left + Z.quot (right - left) 2 in
   run =
     if sched left right then
       let '(arr, temp, t1) := mergesort_parallel arr temp left mid (depth - 1) in
       let '(arr, temp, t2) :=
         mergesort_parallel arr temp (mid + 1) right (depth - 1) in
       (merge arr temp left mid right, Forked left mid right depth t1 t2)
     else
       let '(arr, temp, t2) :=
         mergesort_parallel arr temp (mid + 1) right (depth - 1) in
       let '(arr, temp, t1) := mergesort_parallel arr temp left mid (depth - 1) in
       (merge arr temp left mid right, Forked left mid right depth t1 t2)) /\
  (right - left + 1 = 1000 \/ right - left + 1 = 1001 ->
   is_sequential run.2 = true) /\
  (0 <= left -> left <= right + 1 ->
   right + 1 <= Z.of_nat (length arr) -> right + 1 <= Z.of_nat (length temp) ->
   Permutation (slice run.1.1 left (right + 1)) (slice arr left (right + 1)) /\
   (comparable leb (slice arr left (right + 1)) ->
    sorted (slice run.1.1 left (right + 1)))).
Proof.
  intros run.
  assert (Hfall : depth <= 0 \/ right - left <= 1000 ->
                  run = (mergesort_serial arr temp left right,
                         Sequential left right))
    by apply mergesort_parallel_fallback.
  assert (Hfork := mergesort_parallel_fork undef leb sched arr temp left right
                     depth).
  split; [done|]. change CUTOFF with 1000.
  assert (Hseq : is_sequential run.2 = (depth <=? 0) || (right - left <=? 1000));
    [|split; [done|split; [|split; [done|split; [done|split]]]]].
  - destruct (Z.leb_spec depth 0) as [Hd|Hd];
      [by rewrite Hfall by lia|].
    destruct (Z.leb_spec (right - left) 1000) as [Hc|Hc];
      [by rewrite Hfall by lia|].
    fold run in Hfork. rewrite Hfork by done. cbv zeta.
    destruct (sched left right);
      repeat match goal with
             | |- context [let '(_, _) := ?p in _] => destruct p as [[? ?] ?]
             end; done.
  - rewrite Hseq. f_equal.
    destruct (Z.leb_spec (right - left) 1000),
      (Z.leb_spec (right - left + 1) 1001); try done; lia.
  - intros Hlen. by rewrite Hfall by lia.
  - intros Hleft Hle Harr Htemp.
    destruct (mergesort_parallel_range undef leb sched arr temp left right
                depth) as (_ & Hsort & _); try done.
    fold run in Hsort. rewrite Hsort.
    split; [apply sort_list_perm|]. intros Hcmp. by apply sort_list_comparable.
Qed.

(** C9: on every range within the two arrays, for every depth budget
    (positive or not) and whichever subtask of a fork completes first,
    [mergesort_parallel] leaves in [arr] and in [temp] exactly what
    [mergesort_serial] leaves there; the depth budget only shapes the task
    tree. *)
Theorem mergesort_parallel_refines_serial
    (arr temp : list V) (left right depth : Z) :
  0 <= left -> right + 1 <= Z.of_nat (length arr) ->
  right + 1 <= Z.of_nat (length temp) ->
  (mergesort_parallel arr temp left right depth).1
  = mergesort_serial arr temp left right.
Proof.
  intros Hleft Harr Htemp.
  destruct (Z.le_gt_cases left (right + 1)) as [Hle|Hgt].
  - rewrite parallel_range, serial_range by done. done.
  - by rewrite parallel_no_range, serial_no_range by lia.
Qed.
End SorterTheorems.

Section SortedInput.
Context {V : Type}.
Variable undef : V.
Variable leb : V -> V -> bool.
Variable sched : Z -> Z -> bool.
Hypothesis leb_trans :
  forall x y z, leb x y = true -> leb y z = true -> leb x z = true.

(** A call on a range that is in order already changes nothing, whether
    the buffer was allocated or not. *)
Lemma parallel_sort_sorted_input (buffer : option (list V)) (arr : list V)
    (max_threads size : Z) :
  0 <= size -> size <= Z.of_nat (length arr) -> allocated buffer size ->
  sorted leb (slice arr 0 size) ->
  parallel_sort undef leb sched buffer max_threads arr size = arr.
Proof.
  intros Hsize Harr Hbuf Hsorted. destruct buffer as [temp|]; [|done].
  simpl in Hbuf. unfold parallel_sort. rewrite parallel_range by lia.
  cbn [fst]. replace (size - 1 + 1) with size by lia.
  rewrite sort_list_sorted_id by done.
  destruct (range_cut arr 0 size) as (E & _); try lia. by rewrite <- E.
Qed.

End SortedInput.

(** C7, as the code has it: [merge] takes the runs [left .. mid] and
    [mid+1 .. right] of the array and writes back into [left .. right] a
    permutation of the two, leaving the rest of the array alone.  The first
    element written is the head of the left run when it is [<=] the head
    of the right run, and the head of the right run otherwise ([<=]
    decides, so a tie takes the left one).  When both runs are sorted, the
    elements that tie with any given value appear in their order in the
    left run followed by their order in the right run; the result is
    sorted when moreover the elements of the two runs are comparable (for
    [double]: no NaN). *)
Theorem merge_stable {V : Type} (undef : V) (leb : V -> V -> bool)
    (arr temp : list V) (left mid right : Z) :
  (forall x y z, leb x y = true -> leb y z = true -> leb x z = true) ->
  0 <= left -> left <= mid -> mid < right ->
  right + 1 <= Z.of_nat (length arr) -> right + 1 <= Z.of_nat (length temp) ->
  let L := slice arr left (mid + 1) in
  let R := slice arr (mid + 1) (right + 1) in
  let arr' := (merge undef leb arr temp left mid right).1 in
  let out := slice arr' left (right + 1) in
  length arr' = length arr /\
  slice arr' 0 left = slice arr 0 left /\
  drop (Z.to_nat (right + 1)) arr' = drop (Z.to_nat (right + 1)) arr /\
  Permutation out (L ++ R) /\
  rd undef arr' left
  = (if leb (rd undef arr left) (rd undef arr (mid + 1))
     then rd undef arr left else rd undef arr (mid + 1)) /\
  (sorted leb L -> sorted leb R ->
   (forall c, List.filter (tie leb c) out
              = List.filter (tie leb c) L ++ List.filter (tie leb c) R) /\
   (comparable leb (L ++ R) -> sorted leb out)).
Proof.
  intros leb_trans Hleft Hmid Hright Harr Htemp L R arr' out.
  assert (Earr' : arr' = take (Z.to_nat left) arr ++ merge_lists leb L R
                           ++ drop (Z.to_nat (right + 1)) arr)
    by (subst arr'; by rewrite merge_range by lia).
  destruct (range_cut arr left (right + 1)) as (Ea & Ha & Hxs); try lia.
  assert (HLR : slice arr left (right + 1) = L ++ R).
  { subst L R. rewrite (slice_take arr left (mid + 1) (right + 1)) by lia.
    rewrite (slice_drop arr left (mid + 1) (right + 1)) by lia.
    by rewrite take_drop. }
  destruct (overwritten_range arr (take (Z.to_nat left) arr)
              (slice arr left (right + 1)) (merge_lists leb L R)
              (drop (Z.to_nat (right + 1)) arr) left (right + 1))
    as (Hlen & Hout & Hpre & Hpost); try done.
  { by rewrite merge_lists_length, HLR, length_app. }
  rewrite <- Earr' in Hlen, Hout, Hpre, Hpost. fold out in Hout.
  split; [done|split; [done|split; [done|split; [|split]]]].
  - rewrite Hout. apply merge_lists_perm.
  - assert (EL : L = rd undef arr left :: slice arr (left + 1) (mid + 1))
      by (apply slice_first; lia).
    assert (ER : R = rd undef arr (mid + 1) :: slice arr (mid + 1 + 1) (right + 1))
      by (apply slice_first; lia).
    apply (rd_slice_first undef arr' left (right + 1) _
             (List.tl out)); [lia|lia|].
    fold out. rewrite Hout, EL, ER, merge_lists_cons.
    by destruct (leb _ _).
  - intros HL HR. rewrite Hout. split.
    + intros c. by apply merge_lists_stable.
    + intros Hcmp. by apply merge_lists_comparable.
Qed.

(** C8, as the code has it: a call on an array whose first [size]
    elements are in order leaves the array as it is, whatever [malloc]
    returned.  When the first [size] elements are comparable (for
    [double]: no NaN), a call that had its buffer leaves them in order, so
    a second call (with any buffer, thread count and task order) changes
    nothing: sorting twice gives what sorting once gives. *)
Theorem parallel_sort_idempotent {V : Type} (undef : V) (leb : V -> V -> bool)
    (sched sched' : Z -> Z -> bool) (temp : list V) (buffer : option (list V))
    (arr : list V) (max_threads max_threads' size : Z) :
  (forall x y z, leb x y = true -> leb y z = true -> leb x z = true) ->
  0 <= size -> size <= Z.of_nat (length arr) ->
  Z.of_nat (length temp) = size -> allocated buffer size ->
  (sorted leb (slice arr 0 size) ->
   parallel_sort undef leb sched buffer max_threads arr size = arr) /\
  (comparable leb (slice arr 0 size) ->
   parallel_sort undef leb sched' buffer max_threads'
     (parallel_sort undef leb sched (Some temp) max_threads arr size) size
   = parallel_sort undef leb sched (Some temp) max_threads arr size).
Proof.
  intros Htrans Hsize Harr Htemp Hbuf. split.
  - by apply parallel_sort_sorted_input.
  - intros Hcmp.
    destruct (parallel_sort_output undef leb sched temp arr max_threads size)
      as (Hsort & Hlen & _); try done.
    apply parallel_sort_sorted_input; try done; [lia|].
    rewrite Hsort. by apply sort_list_comparable.
Qed.


(** ** The reducer: partial results and their combination *)

Section Folding.
Context {V : Type}.
Variable f : V -> V -> V.
Variable e : V.
Hypothesis f_assoc : forall x y z, f (f x y) z = f x (f y z).
Hypothesis f_comm : forall x y, f x y = f y x.
Hypothesis f_unit : forall x, f x e = x.

(** A fold seeded with [a] is [a] combined with the fold seeded with the
    identity. *)
Lemma fold_left_seed (l : list V) :
  forall a, fold_left f l a = f a (fold_left f l e).
Proof.
  induction l as [|x l IH]; intros a; simpl; [by rewrite f_unit|].
  rewrite (IH (f a x)), (IH (f e x)).
  by rewrite (f_comm e x), f_unit, f_assoc.
Qed.

Lemma fold_left_chunks (chunks : list (list V)) :
  forall a,
    fold_left f (map (fun chunk => fold_left f chunk e) chunks) a
    = fold_left f (concat chunks) a.
Proof.
  induction chunks as [|c chunks IH]; intros a; simpl; [done|].
  by rewrite fold_left_app, IH, <- fold_left_seed.
Qed.

Lemma fold_left_permutation (l l' : list V) :
  Permutation l l' -> forall a, fold_left f l a = fold_left f l' a.
Proof.
  induction 1 as [|x l l' _ IH|x y l|l l' l'' _ IH1 _ IH2]; intros a; simpl.
  - done.
  - apply IH.
  - by rewrite !f_assoc, (f_comm y x).
  - by rewrite IH1.
Qed.
End Folding.

Section ReducerFacts.
Context {V : Type}.
Variable undef : V.
Variables (add mul : V -> V -> V) (zero one : V).
Variable ltb : V -> V -> bool.
Variables (neg_inf pos_inf : V).

Abbreviation apply_op := (apply_op add mul ltb).
Abbreviation omp_priv := (omp_priv zero one neg_inf pos_inf).
Abbreviation partial := (partial undef add mul zero one ltb neg_inf pos_inf).
Abbreviation omp_for_reduction :=
  (omp_for_reduction undef add mul zero one ltb neg_inf pos_inf).
Abbreviation parallel_reduce :=
  (parallel_reduce undef add mul zero one ltb neg_inf pos_inf).

Lemma parallel_reduce_operator (schedule : list Z -> list (list Z))
    (arr : list V) (size : Z) (initial : V) (code : Z) (op : operator) :
  operator_of_code code = Some op ->
  parallel_reduce schedule arr size initial code
  = omp_for_reduction op schedule arr size initial.
Proof.
  destruct code as [|p|p]; try done.
  - intros Hop. simpl in Hop. by injection Hop as <-.
  - destruct p as [[p|p|]|[p|p|]|]; try done;
      intros Hop; simpl in Hop; by injection Hop as <-.
Qed.

Lemma parallel_reduce_no_operator (schedule : list Z -> list (list Z))
    (arr : list V) (size : Z) (initial : V) (code : Z) :
  operator_of_code code = None ->
  parallel_reduce schedule arr size initial code = initial.
Proof.
  destruct code as [|p|p]; try done.
  destruct p as [[p|p|]|[p|p|]|]; done.
Qed.

Lemma operator_of_code_None (code : Z) :
  operator_of_code code = None <-> ~ (0 <= code <= 3).
Proof.
  split.
  - intros H Hc.
    assert (Hcases : code = 0 \/ code = 1 \/ code = 2 \/ code = 3) by lia.
    destruct Hcases as [-> | [-> | [-> | ->]]]; done.
  - intros H. destruct code as [|p|p]; try done; [lia|].
    destruct p as [[p|p|]|[p|p|]|]; try done; lia.
Qed.

(** The elements that the iterations of the loop read. *)
Lemma rd_iterations (arr : list V) (size : Z) :
  size <= Z.of_nat (length arr) ->
  map (rd undef arr) (iterations size) = slice arr 0 size.
Proof.
  intros Hsize. unfold slice, iterations.
  rewrite Z.sub_0_r. change (Z.to_nat 0) with 0%nat. rewrite drop_0.
  apply list_eq. intros i.
  rewrite list_lookup_fmap, list_lookup_fmap.
  destruct (decide (i < Z.to_nat size)%nat) as [Hi|Hi].
  - rewrite lookup_seq_lt by done. rewrite lookup_take_lt by done. simpl.
    unfold rd. destruct (Z.ltb_spec (Z.of_nat i) 0); [lia|].
    rewrite Nat2Z.id.
    destruct (lookup_lt_is_Some_2 arr i) as [x Hx]; [lia|]. by rewrite Hx.
  - rewrite lookup_seq_ge by lia. rewrite lookup_take_ge by lia. done.
Qed.

Lemma partial_fold (op : operator) (arr : list V) (chunk : list Z) :
  partial op arr chunk
  = fold_left (apply_op op) (map (rd undef arr) chunk) (omp_priv op).
Proof.
  unfold partial. generalize (omp_priv op).
  induction chunk as [|i chunk IH]; intros a; simpl; [done|]. apply IH.
Qed.
End ReducerFacts.

(** ** The four operators in exact arithmetic *)

Section ExactOperators.
Context {V : Type}.
Variable undef : V.
Variables (add mul : V -> V -> V) (zero one : V).
Variables (leb ltb : V -> V -> bool).
Variables (neg_inf pos_inf : V).

Abbreviation apply_op := (apply_op add mul ltb).
Abbreviation omp_priv := (omp_priv zero one neg_inf pos_inf).
Abbreviation parallel_reduce :=
  (parallel_reduce undef add mul zero one ltb neg_inf pos_inf).
Abbreviation combine := (combine add mul leb).
Abbreviation sequential_fold := (sequential_fold add mul leb).

Hypothesis add_assoc : forall x y z, add (add x y) z = add x (add y z).
Hypothesis add_comm : forall x y, add x y = add y x.
Hypothesis add_zero : forall x, add x zero = x.
Hypothesis mul_assoc : forall x y z, mul (mul x y) z = mul x (mul y z).
Hypothesis mul_comm : forall x y, mul x y = mul y x.
Hypothesis mul_one : forall x, mul x one = x.
Hypothesis leb_total : forall x y, leb x y = true \/ leb y x = true.
Hypothesis leb_trans :
  forall x y z, leb x y = true -> leb y z = true -> leb x z = true.
Hypothesis leb_antisym :
  forall x y, leb x y = true -> leb y x = true -> x = y.
Hypothesis neg_inf_least : forall x, leb neg_inf x = true.
Hypothesis pos_inf_greatest : forall x, leb x pos_inf = true.
(** [<] is the strict part of [<=]. *)
Hypothesis ltb_leb : forall x y, ltb x y = negb (leb y x).

Lemma leb_refl (x : V) : leb x x = true.
Proof. by destruct (leb_total x x). Qed.

(** [Max] yields the least upper bound of its operands, [Min] the
    greatest lower bound. *)
Lemma max_upper_l (r x : V) : leb r (apply_op Max r x) = true.
Proof.
  simpl. unfold gtb. rewrite ltb_leb.
  destruct (leb x r) eqn:E; simpl; [apply leb_refl|].
  destruct (leb_total x r); [congruence|done].
Qed.

Lemma max_upper_r (r x : V) : leb x (apply_op Max r x) = true.
Proof.
  simpl. unfold gtb. rewrite ltb_leb.
  destruct (leb x r) eqn:E; simpl; [done|apply leb_refl].
Qed.

Lemma max_least (r x u : V) :
  leb r u = true -> leb x u = true -> leb (apply_op Max r x) u = true.
Proof. intros Hr Hx. simpl. by destruct (gtb ltb x r). Qed.

Lemma min_lower_l (r x : V) : leb (apply_op Min r x) r = true.
Proof.
  simpl. rewrite ltb_leb.
  destruct (leb r x) eqn:E; simpl; [apply leb_refl|].
  destruct (leb_total r x); [congruence|done].
Qed.

Lemma min_lower_r (r x : V) : leb (apply_op Min r x) x = true.
Proof.
  simpl. rewrite ltb_leb.
  destruct (leb r x) eqn:E; simpl; [done|apply leb_refl].
Qed.

Lemma min_greatest (r x u : V) :
  leb u r = true -> leb u x = true -> leb u (apply_op Min r x) = true.
Proof. intros Hr Hx. simpl. by destruct (ltb x r). Qed.

Lemma apply_op_assoc (op : operator) (x y z : V) :
  apply_op op (apply_op op x y) z = apply_op op x (apply_op op y z).
Proof.
  destruct op; [apply add_assoc|apply mul_assoc|..]; apply leb_antisym.
  - repeat apply max_least;
      eauto using leb_trans, max_upper_l, max_upper_r.
  - repeat apply max_least;
      eauto using leb_trans, max_upper_l, max_upper_r.
  - repeat apply min_greatest;
      eauto using leb_trans, min_lower_l, min_lower_r.
  - repeat apply min_greatest;
      eauto using leb_trans, min_lower_l, min_lower_r.
Qed.

Lemma apply_op_comm (op : operator) (x y : V) :
  apply_op op x y = apply_op op y x.
Proof.
  destruct op; [apply add_comm|apply mul_comm|..]; apply leb_antisym;
    first [ apply max_least; auto using max_upper_l, max_upper_r
          | apply min_greatest; auto using min_lower_l, min_lower_r ].
Qed.

Lemma apply_op_priv (op : operator) (x : V) : apply_op op x (omp_priv op) = x.
Proof.
  destruct op; simpl; [apply add_zero|apply mul_one|..].
  - unfold gtb. by rewrite ltb_leb, neg_inf_least.
  - by rewrite ltb_leb, pos_inf_greatest.
Qed.

(** The combination of the partial results of any distribution of the
    iterations is the fold over the elements in index order. *)
Lemma omp_for_reduction_fold (op : operator)
    (schedule : list Z -> list (list Z)) (arr : list V) (size : Z)
    (result : V) :
  distributes schedule -> size <= Z.of_nat (length arr) ->
  omp_for_reduction undef add mul zero one ltb neg_inf pos_inf op schedule
    arr size result
  = fold_left (apply_op op) (slice arr 0 size) result.
Proof.
  intros Hschedule Hsize. pose proof (Hschedule (iterations size)) as Hchunks.
  unfold omp_for_reduction. cbv zeta.
  rewrite <- (rd_iterations undef arr size Hsize).
  rewrite (map_ext _ _ (partial_fold undef add mul zero one ltb neg_inf
                          pos_inf op arr)).
  rewrite <- (map_map (map (rd undef arr))
                (fun l => fold_left (apply_op op) l (omp_priv op))).
  rewrite (fold_left_chunks (apply_op op) (omp_priv op)
             (apply_op_assoc op) (apply_op_comm op) (apply_op_priv op)).
  apply (fold_left_permutation (apply_op op) (apply_op_assoc op)
           (apply_op_comm op)).
  rewrite <- concat_map. by apply Permutation_map.
Qed.

(** In exact arithmetic the step of each loop computes the operator of
    its name: [if (arr[i] > result) result = arr[i]] leaves the larger of
    the two in [result], [if (arr[i] < result) result = arr[i]] the
    smaller. *)
Lemma apply_op_combine (op : operator) (r x : V) :
  apply_op op r x = combine op r x.
Proof.
  destruct op; simpl; try done; unfold gtb; rewrite ltb_leb.
  - destruct (leb x r) eqn:Exr, (leb r x) eqn:Erx; simpl; try done.
    + symmetry. by apply leb_antisym.
    + destruct (leb_total x r); congruence.
  - by destruct (leb r x).
Qed.

Lemma fold_left_combine (op : operator) (l : list V) :
  forall a, fold_left (apply_op op) l a = fold_left (combine op) l a.
Proof.
  induction l as [|x l IH]; intros a; simpl; [done|].
  by rewrite apply_op_combine, IH.
Qed.

(** C2: for an operator code of the closed set (0 sum, 1 product, 2 max,
    3 min), whatever the distribution of the iterations among the
    threads, [parallel_reduce] returns the sequential left fold of the
    operator of that name (the sum, the product, the larger, the smaller
    of two values) over the first [size] elements, seeded with [initial];
    on a zero-length array that is [initial], on a single-element array
    the element combined with [initial]. *)
Theorem parallel_reduce_sequential_fold (schedule : list Z -> list (list Z))
    (arr : list V) (size : Z) (initial : V) (code : Z) (op : operator) :
  operator_of_code code = Some op ->
  distributes schedule -> size <= Z.of_nat (length arr) ->
  parallel_reduce schedule arr size initial code
  = sequential_fold op arr size initial /\
  (size <= 0 -> parallel_reduce schedule arr size initial code = initial) /\
  (size = 1 ->
   parallel_reduce schedule arr size initial code
   = combine op initial (rd undef arr 0)).
Proof.
  intros Hop Hschedule Hsize.
  rewrite (parallel_reduce_operator undef add mul zero one ltb neg_inf
             pos_inf schedule arr size initial code op Hop).
  rewrite (omp_for_reduction_fold op schedule arr size initial Hschedule Hsize).
  rewrite fold_left_combine.
  unfold sequential_fold. split; [done|split].
  - intros Hempty. by rewrite slice_empty by lia.
  - intros ->. rewrite (slice_first undef arr 0 1) by lia.
    by rewrite slice_empty by lia.
Qed.
End ExactOperators.

(** ** Claims on the operator codes outside the closed set *)

Section UnknownOperator.
Context {V : Type}.
Variable undef : V.
Variables (add mul : V -> V -> V) (zero one : V).
Variable ltb : V -> V -> bool.
Variables (neg_inf pos_inf : V).

(** C4, as the code has it: for an operator code outside 0..3
    [parallel_reduce] reports nothing; the call returns, and its value
    is the initial value. *)
Theorem parallel_reduce_invalid_operator_returns
    (schedule : list Z -> list (list Z)) (arr : list V) (size : Z)
    (initial : V) (code : Z) :
  operator_of_code code = None ->
  parallel_reduce_outcome undef add mul zero one ltb neg_inf pos_inf
    schedule arr size initial code
  = Returns initial.
Proof.
  intros Hcode. unfold parallel_reduce_outcome.
  by rewrite parallel_reduce_no_operator.
Qed.

(** C10: for an operator code outside 0..3 no loop of [parallel_reduce]
    runs: the call returns the initial value as it was given, and the
    array is as it was. *)
Theorem parallel_reduce_unknown_operator
    (schedule : list Z -> list (list Z)) (arr : list V) (size : Z)
    (initial : V) (code : Z) :
  ~ (0 <= code <= 3) ->
  parallel_reduce_call undef add mul zero one ltb neg_inf pos_inf
    schedule arr size initial code
  = (arr, initial).
Proof.
  intros Hcode. unfold parallel_reduce_call.
  rewrite parallel_reduce_no_operator; [done|].
  by apply operator_of_code_None.
Qed.
End UnknownOperator.

(** ** The transformer *)

Section Transformer.
Context {V : Type}.
Variable undef : V.
Variable func : V -> V.
Variable inp : list V.

Abbreviation step :=
  (fun (out : list V) (i : Z) => wr out i (func (rd undef inp i))).

Lemma wr_lookup (out : list V) (i : Z) (x : V) (j : nat) :
  0 <= i -> i < Z.of_nat (length out) ->
  wr out i x !! j = if decide (i = Z.of_nat j) then Some x else out !! j.
Proof.
  intros Hi Hlen. unfold wr. destruct (Z.ltb_spec i 0); [lia|].
  destruct (decide (i = Z.of_nat j)) as [->|Hne].
  - rewrite Nat2Z.id. apply list_lookup_insert_eq. lia.
  - apply list_lookup_insert_ne. lia.
Qed.

Lemma wr_length (out : list V) (i : Z) (x : V) : length (wr out i x) = length out.
Proof. unfold wr. destruct (i <? 0); [done|apply length_insert]. Qed.

(** After the iterations of [run], in any order, a slot holds the image
    of the input element if its index is among them, and what it held
    before otherwise. *)
Lemma transform_run (run : list Z) :
  forall out : list V,
    Forall (fun i => 0 <= i < Z.of_nat (length out)) run ->
    length (fold_left step run out) = length out /\
    forall j : nat,
      fold_left step run out !! j
      = if decide (Z.of_nat j ∈ run)
        then Some (func (rd undef inp (Z.of_nat j))) else out !! j.
Proof.
  induction run as [|i run IH]; intros out Hrun.
  - split; [done|]. intros j. reflexivity.
  - apply Forall_cons in Hrun as [Hi Hrun]. simpl.
    destruct (IH (wr out i (func (rd undef inp i)))) as [Hlen Hget].
    { by rewrite wr_length. }
    rewrite wr_length in Hlen. split; [done|]. intros j.
    rewrite Hget, wr_lookup by lia.
    destruct (decide (Z.of_nat j ∈ run)) as [Hin|Hout].
    + rewrite decide_True; [done|]. by right.
    + destruct (decide (i = Z.of_nat j)) as [->|Hne].
      * rewrite decide_True; [done|]. by left.
      * rewrite decide_False; [done|].
        intros Hin. apply elem_of_cons in Hin as [?|?]; [congruence|done].
Qed.

Lemma elem_of_iterations (i size : Z) : i ∈ iterations size <-> 0 <= i < size.
Proof.
  unfold iterations. rewrite list_elem_of_fmap. split.
  - intros (n & -> & Hn). apply elem_of_seq in Hn. lia.
  - intros Hi. exists (Z.to_nat i). split; [lia|]. apply elem_of_seq. lia.
Qed.

(** C3: whatever the partition of the index range among the threads and
    the order in which the iterations complete, after
    [parallel_transform] every slot [i] of the first [size] of the output
    holds [func (in[i])]; the length of the output and its slots from
    [size] on are as they were. *)
Theorem parallel_transform_pointwise (completion : list Z -> list Z)
    (out : list V) (size : Z) :
  reorders completion ->
  size <= Z.of_nat (length inp) -> size <= Z.of_nat (length out) ->
  let out' := parallel_transform undef completion inp out size func in
  (forall i, 0 <= i < size -> rd undef out' i = func (rd undef inp i)) /\
  length out' = length out /\
  drop (Z.to_nat size) out' = drop (Z.to_nat size) out.
Proof.
  intros Hcompletion Hinp Hout out'.
  pose proof (Hcompletion (iterations size)) as Hrun.
  set (run := completion (iterations size)) in *.
  assert (Hin : forall i, i ∈ run <-> 0 <= i < size).
  { intros i. rewrite <- elem_of_iterations. by rewrite Hrun. }
  destruct (transform_run run out) as [Hlen Hget].
  { apply Forall_forall. intros i Hi. apply Hin in Hi. lia. }
  fold out' in Hlen, Hget. split; [|split; [done|]].
  - intros i Hi. unfold rd at 1. destruct (Z.ltb_spec i 0); [lia|].
    rewrite Hget, Z2Nat.id by lia. rewrite decide_True; [done|].
    by apply Hin.
  - apply list_eq. intros j. rewrite !lookup_drop, Hget.
    rewrite decide_False; [done|]. intros Hj. apply Hin in Hj. lia.
Qed.
End Transformer.

(** ** The laws of exact arithmetic on [xint] *)

Lemma xadd_assoc (x y z : xint) : xadd (xadd x y) z = xadd x (xadd y z).
Proof. destruct x, y, z; simpl; try done. f_equal. lia. Qed.

Lemma xadd_comm (x y : xint) : xadd x y = xadd y x.
Proof. destruct x, y; simpl; try done. f_equal. lia. Qed.

Lemma xadd_zero (x : xint) : xadd x (Fin 0) = x.
Proof. destruct x; simpl; try done. f_equal. lia. Qed.

Lemma xmul_assoc (x y z : xint) : xmul (xmul x y) z = xmul x (xmul y z).
Proof. destruct x, y, z; simpl; try done. f_equal. lia. Qed.

Lemma xmul_comm (x y : xint) : xmul x y = xmul y x.
Proof. destruct x, y; simpl; try done. f_equal. lia. Qed.

Lemma xmul_one (x : xint) : xmul x (Fin 1) = x.
Proof. destruct x; simpl; try done. f_equal. lia. Qed.

Lemma xleb_total (x y : xint) : xleb x y = true \/ xleb y x = true.
Proof. destruct x, y; simpl; auto. apply Zleb_total. Qed.

Lemma xleb_trans (x y z : xint) :
  xleb x y = true -> xleb y z = true -> xleb x z = true.
Proof. destruct x, y, z; simpl; try done. apply Zleb_trans. Qed.

Lemma xleb_antisym (x y : xint) : xleb x y = true -> xleb y x = true -> x = y.
Proof.
  destruct x, y; simpl; try done. rewrite !Z.leb_le. intros. f_equal. lia.
Qed.

Lemma xltb_xleb (x y : xint) : xltb x y = negb (xleb y x).
Proof. destruct x, y; simpl; try done. apply Z.ltb_antisym. Qed.

Lemma xleb_neg_inf (x : xint) : xleb NegInf x = true.
Proof. done. Qed.

Lemma xleb_pos_inf (x : xint) : xleb x PosInf = true.
Proof. by destruct x. Qed.

Lemma three_threads_distributes : distributes three_threads.
Proof.
  intros its. unfold three_threads. simpl. rewrite app_nil_r.
  rewrite Permutation_app_comm. by rewrite take_drop.
Qed.

(** ** The claims at concrete inputs *)

Example sort_1500_forks :
  mergesort_parallel 0 Z.leb (fun _ _ => false) (descending 1500)
    (repeat 0 1500) 0 1499 1
  = (ascending 1500, ascending 1500,
     Forked 0 749 1499 1 (Sequential 0 749) (Sequential 750 1499)).
Proof. vm_compute. reflexivity. Qed.

Example transform_sqrt :
  parallel_transform 0 (@rev Z) [1; 4; 9] [0; 0; 0] 3 Z.sqrt = [1; 2; 3].
Proof. reflexivity. Qed.

Lemma parallel_sort_sorted_permutation_witness :
  0 <= 5 /\ 5 <= Z.of_nat (length (map double_of_int [5; 3; 1; 4; 2])) /\
  Z.of_nat (length (repeat double_nan 5)) = 5 /\
  comparable double_leb (slice (map double_of_int [5; 3; 1; 4; 2]) 0 5) /\
  sorted double_leb
    (slice (parallel_sort double_nan double_leb (fun _ _ => true)
              (Some (repeat double_nan 5)) 4
              (map double_of_int [5; 3; 1; 4; 2]) 5) 0 5) /\
  Permutation
    (parallel_sort double_nan double_leb (fun _ _ => true)
       (Some (repeat double_nan 5)) 4 (map double_of_int [5; 3; 1; 4; 2]) 5)
    (map double_of_int [5; 3; 1; 4; 2]).
Proof.
  assert (H1 : 0 <= 5) by lia.
  assert (H2 : 5 <= Z.of_nat (length (map double_of_int [5; 3; 1; 4; 2])))
    by (simpl; lia).
  assert (H3 : Z.of_nat (length (repeat double_nan 5)) = 5) by reflexivity.
  assert (H4 : comparable double_leb
                 (slice (map double_of_int [5; 3; 1; 4; 2]) 0 5))
    by (apply double_comparable; vm_compute; repeat constructor).
  destruct (parallel_sort_sorted_permutation double_nan double_leb
              (fun _ _ => true) (repeat double_nan 5)
              (map double_of_int [5; 3; 1; 4; 2]) 4 5 H1 H2 H3)
    as (Hsorted & _ & Hperm & _).
  exact (conj H1 (conj H2 (conj H3 (conj H4 (conj (Hsorted H4) Hperm))))).
Defined.

(** C1 as the specification words it fails on an array that holds a NaN:
    from {2, NaN, 3, 1} the call leaves {1, 3, NaN, 2}, which is not in
    non-decreasing order. *)
Lemma parallel_sort_nan_not_sorted :
  parallel_sort double_nan double_leb (fun _ _ => true)
    (Some (repeat double_nan 4)) 4
    [double_of_int 2; double_nan; double_of_int 3; double_of_int 1] 4
  = [double_of_int 1; double_of_int 3; double_nan; double_of_int 2] /\
  ~ sorted double_leb
      (slice (parallel_sort double_nan double_leb (fun _ _ => true)
                (Some (repeat double_nan 4)) 4
                [double_of_int 2; double_nan; double_of_int 3; double_of_int 1]
                4) 0 4).
Proof.
  split; [vm_compute; reflexivity|]. intros H.
  assert (Hle := sorted_lookup double_leb _ H 1%nat (double_of_int 3)
                   double_nan eq_refl eq_refl).
  vm_compute in Hle. discriminate.
Qed.

Lemma mergesort_parallel_cutoff_witness :
  0 < 1 /\ 1000 < 1499 - 0 /\
  0 <= 0 /\ 0 <= 1499 + 1 /\
  1499 + 1 <= Z.of_nat (length (descending 1500)) /\
  1499 + 1 <= Z.of_nat (length (repeat 0 1500)) /\
  comparable Z.leb (slice (descending 1500) 0 (1499 + 1)) /\
  is_sequential
    (mergesort_parallel 0 Z.leb (fun _ _ => true) (descending 1500)
       (repeat 0 1500) 0 1499 1).2 = false /\
  sorted Z.leb
    (slice (mergesort_parallel 0 Z.leb (fun _ _ => true) (descending 1500)
              (repeat 0 1500) 0 1499 1).1.1 0 (1499 + 1)).
Proof.
  assert (H1 : 0 < 1) by lia.
  assert (H2 : 1000 < 1499 - 0) by lia.
  assert (H3 : 0 <= 0) by lia.
  assert (H4 : 0 <= 1499 + 1) by lia.
  assert (H5 : 1499 + 1 <= Z.of_nat (length (descending 1500)))
    by (vm_compute; discriminate).
  assert (H6 : 1499 + 1 <= Z.of_nat (length (repeat 0 1500)))
    by (vm_compute; discriminate).
  assert (H7 : comparable Z.leb (slice (descending 1500) 0 (1499 + 1)))
    by exact (total_comparable Z.leb _ Zleb_total).
  destruct (mergesort_parallel_cutoff 0 Z.leb (fun _ _ => true)
              (descending 1500) (repeat 0 1500) 0 1499 1)
    as (_ & Hseq & _ & _ & _ & _ & Hsorted).
  destruct (Hsorted H3 H4 H5 H6) as [_ Hs].
  exact (conj H1 (conj H2 (conj H3 (conj H4 (conj H5 (conj H6 (conj H7
           (conj Hseq (Hs H7))))))))).
Defined.

(** C6 as the specification words it fails: the range [0 .. 1000] holds
    1001 elements, more than 1000, and with a depth budget of 3 the task
    still runs the sequential sort; and on this range, which holds a NaN
    in its middle, the sort leaves 499, NaN, 0 next to each other. *)
Lemma cutoff_1001_elements_sequential :
  let arr := map double_of_int (ascending 500) ++ [double_nan]
             ++ map double_of_int (descending 500) in
  let run := mergesort_parallel double_nan double_leb (fun _ _ => true) arr
               (repeat double_nan 1001) 0 1000 3 in
  ~ (3 <= 0 \/ 1000 - 0 + 1 <= 1000) /\
  is_sequential run.2 = true /\
  take 3 (drop 499 (slice run.1.1 0 (1000 + 1)))
  = [double_of_int 499; double_nan; double_of_int 0] /\
  ~ sorted double_leb (slice run.1.1 0 (1000 + 1)).
Proof.
  intros arr run.
  assert (Hseq : is_sequential run.2 = true).
  { unfold run. rewrite mergesort_parallel_fallback; [done|].
    right. unfold CUTOFF. lia. }
  assert (E : take 3 (drop 499 (slice run.1.1 0 (1000 + 1)))
              = [double_of_int 499; double_nan; double_of_int 0])
    by (vm_compute; reflexivity).
  split; [lia|]. split; [exact Hseq|]. split; [exact E|]. intros H.
  assert (E500 : slice run.1.1 0 (1000 + 1) !! 500%nat = Some double_nan).
  { rewrite <- (lookup_drop _ 499 1), <- (lookup_take_lt _ 3) by lia.
    by rewrite E. }
  by pose proof (sorted_no_nan_after _ _ _ H E500).
Qed.

Lemma mergesort_parallel_refines_serial_witness :
  0 <= 0 /\
  1499 + 1 <= Z.of_nat (length (descending 1500)) /\
  1499 + 1 <= Z.of_nat (length (repeat 0 1500)) /\
  (mergesort_parallel 0 Z.leb (fun _ _ => false) (descending 1500)
     (repeat 0 1500) 0 1499 3).1
  = mergesort_serial 0 Z.leb (descending 1500) (repeat 0 1500) 0 1499.
Proof.
  assert (H1 : 0 <= 0) by lia.
  assert (H2 : 1499 + 1 <= Z.of_nat (length (descending 1500)))
    by (vm_compute; discriminate).
  assert (H3 : 1499 + 1 <= Z.of_nat (length (repeat 0 1500)))
    by (vm_compute; discriminate).
  exact (conj H1 (conj H2 (conj H3
           (mergesort_parallel_refines_serial 0 Z.leb (fun _ _ => false)
              (descending 1500) (repeat 0 1500) 0 1499 3 H1 H2 H3)))).
Defined.

Lemma merge_stable_witness :
  (forall x y z : double,
     double_leb x y = true -> double_leb y z = true -> double_leb x z = true) /\
  0 <= 0 /\ 0 <= 1 /\ 1 < 3 /\
  3 + 1 <= Z.of_nat (length [S754_zero false; double_of_int 1;
                             S754_zero true; double_of_int 1]) /\
  3 + 1 <= Z.of_nat (length (repeat double_nan 4)) /\
  List.filter (tie double_leb (S754_zero false))
    (slice (merge double_nan double_leb
              [S754_zero false; double_of_int 1; S754_zero true; double_of_int 1]
              (repeat double_nan 4) 0 1 3).1 0 (3 + 1))
  = [S754_zero false; S754_zero true] /\
  sorted double_leb
    (slice (merge double_nan double_leb
              [S754_zero false; double_of_int 1; S754_zero true; double_of_int 1]
              (repeat double_nan 4) 0 1 3).1 0 (3 + 1)).
Proof.
  assert (H0 : forall x y z : double,
             double_leb x y = true -> double_leb y z = true ->
             double_leb x z = true) by exact double_leb_trans.
  assert (H1 : 0 <= 0) by lia.
  assert (H2 : 0 <= 1) by lia.
  assert (H3 : 1 < 3) by lia.
  assert (H4 : 3 + 1 <= Z.of_nat (length [S754_zero false; double_of_int 1;
                                          S754_zero true; double_of_int 1]))
    by (simpl; lia).
  assert (H5 : 3 + 1 <= Z.of_nat (length (repeat double_nan 4)))
    by (simpl; lia).
  destruct (merge_stable double_nan double_leb
              [S754_zero false; double_of_int 1; S754_zero true; double_of_int 1]
              (repeat double_nan 4) 0 1 3 H0 H1 H2 H3 H4 H5)
    as (_ & _ & _ & _ & _ & Hstable).
  destruct Hstable as [Hties Hsorted].
  - repeat constructor.
  - repeat constructor.
  - assert (H6 : comparable double_leb
                   (slice [S754_zero false; double_of_int 1; S754_zero true;
                           double_of_int 1] 0 (1 + 1)
                    ++ slice [S754_zero false; double_of_int 1; S754_zero true;
                              double_of_int 1] (1 + 1) (3 + 1)))
      by (apply double_comparable; vm_compute; repeat constructor).
    exact (conj H0 (conj H1 (conj H2 (conj H3 (conj H4 (conj H5
             (conj (Hties (S754_zero false)) (Hsorted H6)))))))).
Defined.

(** C7 as the specification words it fails on a run that holds a NaN:
    the runs {1} and {NaN} are each in order, and [merge] writes
    {NaN, 1}, which is not. *)
Lemma merge_nan_not_sorted :
  sorted double_leb (slice [double_of_int 1; double_nan] 0 (0 + 1)) /\
  sorted double_leb (slice [double_of_int 1; double_nan] (0 + 1) (1 + 1)) /\
  (merge double_nan double_leb [double_of_int 1; double_nan]
     (repeat double_nan 2) 0 0 1).1
  = [double_nan; double_of_int 1] /\
  ~ sorted double_leb
      (slice (merge double_nan double_leb [double_of_int 1; double_nan]
                (repeat double_nan 2) 0 0 1).1 0 (1 + 1)).
Proof.
  split; [repeat constructor|split; [repeat constructor|split]].
  - vm_compute. reflexivity.
  - intros H.
    assert (Hle := sorted_lookup double_leb _ H 0%nat double_nan
                     (double_of_int 1) eq_refl eq_refl).
    vm_compute in Hle. discriminate.
Qed.

Lemma parallel_sort_idempotent_witness :
  (forall x y z : double,
     double_leb x y = true -> double_leb y z = true -> double_leb x z = true) /\
  0 <= 5 /\ 5 <= Z.of_nat (length (map double_of_int [5; 3; 1; 4; 2])) /\
  Z.of_nat (length (repeat double_nan 5)) = 5 /\
  allocated (Some (map double_of_int [7; 7; 7; 7; 7])) 5 /\
  comparable double_leb (slice (map double_of_int [5; 3; 1; 4; 2]) 0 5) /\
  parallel_sort double_nan double_leb (fun _ _ => false)
    (Some (map double_of_int [7; 7; 7; 7; 7])) 2
    (parallel_sort double_nan double_leb (fun _ _ => true)
       (Some (repeat double_nan 5)) 4 (map double_of_int [5; 3; 1; 4; 2]) 5) 5
  = parallel_sort double_nan double_leb (fun _ _ => true)
      (Some (repeat double_nan 5)) 4 (map double_of_int [5; 3; 1; 4; 2]) 5.
Proof.
  assert (H0 : forall x y z : double,
             double_leb x y = true -> double_leb y z = true ->
             double_leb x z = true) by exact double_leb_trans.
  assert (H1 : 0 <= 5) by lia.
  assert (H2 : 5 <= Z.of_nat (length (map double_of_int [5; 3; 1; 4; 2])))
    by (simpl; lia).
  assert (H3 : Z.of_nat (length (repeat double_nan 5)) = 5) by reflexivity.
  assert (H4 : allocated (Some (map double_of_int [7; 7; 7; 7; 7])) 5)
    by reflexivity.
  assert (H5 : comparable double_leb
                 (slice (map double_of_int [5; 3; 1; 4; 2]) 0 5))
    by (apply double_comparable; vm_compute; repeat constructor).
  exact (conj H0 (conj H1 (conj H2 (conj H3 (conj H4 (conj H5
           (proj2 (parallel_sort_idempotent double_nan double_leb
                     (fun _ _ => true) (fun _ _ => false)
                     (repeat double_nan 5)
                     (Some (map double_of_int [7; 7; 7; 7; 7]))
                     (map double_of_int [5; 3; 1; 4; 2]) 4 2 5
                     H0 H1 H2 H3 H4) H5))))))).
Defined.

(** C8 as the specification words it fails on an array that holds a NaN:
    from {1, NaN} a call leaves {NaN, 1}, and a second call turns that
    back into {1, NaN}. *)
Lemma parallel_sort_nan_not_idempotent :
  parallel_sort double_nan double_leb (fun _ _ => true)
    (Some (repeat double_nan 2)) 4 [double_of_int 1; double_nan] 2
  = [double_nan; double_of_int 1] /\
  parallel_sort double_nan double_leb (fun _ _ => true)
    (Some (repeat double_nan 2)) 4
    (parallel_sort double_nan double_leb (fun _ _ => true)
       (Some (repeat double_nan 2)) 4 [double_of_int 1; double_nan] 2) 2
  = [double_of_int 1; double_nan] /\
  parallel_sort double_nan double_leb (fun _ _ => true)
    (Some (repeat double_nan 2)) 4
    (parallel_sort double_nan double_leb (fun _ _ => true)
       (Some (repeat double_nan 2)) 4 [double_of_int 1; double_nan] 2) 2
  <> parallel_sort double_nan double_leb (fun _ _ => true)
       (Some (repeat double_nan 2)) 4 [double_of_int 1; double_nan] 2.
Proof.
  split; [vm_compute; reflexivity|split; [vm_compute; reflexivity|]].
  vm_compute. discriminate.
Qed.



Lemma parallel_reduce_sequential_fold_witness :
  operator_of_code 2 = Some Max /\
  distributes three_threads /\
  5 <= Z.of_nat (length (map Fin [3; 1; 4; 1; 5])) /\
  parallel_reduce (Fin 0) xadd xmul (Fin 0) (Fin 1) xltb NegInf PosInf
    three_threads (map Fin [3; 1; 4; 1; 5]) 5 (Fin 2) 2
  = sequential_fold xadd xmul xleb Max (map Fin [3; 1; 4; 1; 5]) 5 (Fin 2) /\
  parallel_reduce (Fin 0) xadd xmul (Fin 0) (Fin 1) xltb NegInf PosInf
    three_threads (map Fin [3; 1; 4; 1; 5]) 5 (Fin 2) 2
  = Fin 5.
Proof.
  assert (H1 : operator_of_code 2 = Some Max) by reflexivity.
  assert (H2 : distributes three_threads) by exact three_threads_distributes.
  assert (H3 : 5 <= Z.of_nat (length (map Fin [3; 1; 4; 1; 5])))
    by (simpl; lia).
  assert (H4 := proj1 (parallel_reduce_sequential_fold (Fin 0) xadd xmul
                         (Fin 0) (Fin 1) xleb xltb NegInf PosInf xadd_assoc
                         xadd_comm xadd_zero xmul_assoc xmul_comm xmul_one
                         xleb_total xleb_trans xleb_antisym xleb_neg_inf
                         xleb_pos_inf xltb_xleb
                         three_threads (map Fin [3; 1; 4; 1; 5]) 5
                         (Fin 2) 2 Max H1 H2 H3)).
  exact (conj H1 (conj H2 (conj H3 (conj H4 (eq_trans H4 eq_refl))))).
Defined.

Lemma parallel_transform_pointwise_witness :
  reorders (@rev Z) /\
  3 <= Z.of_nat (length [1; 4; 9]) /\ 3 <= Z.of_nat (length [0; 0; 0]) /\
  forall i, 0 <= i < 3 ->
    rd 0 (parallel_transform 0 (@rev Z) [1; 4; 9] [0; 0; 0] 3 Z.sqrt) i
    = Z.sqrt (rd 0 [1; 4; 9] i).
Proof.
  assert (H1 : reorders (@rev Z))
    by exact (fun its => Permutation_sym (Permutation_rev its)).
  assert (H2 : 3 <= Z.of_nat (length [1; 4; 9])) by (simpl; lia).
  assert (H3 : 3 <= Z.of_nat (length [0; 0; 0])) by (simpl; lia).
  exact (conj H1 (conj H2 (conj H3
           (proj1 (parallel_transform_pointwise 0 Z.sqrt [1; 4; 9] (@rev Z)
                     [0; 0; 0] 3 H1 H2 H3))))).
Defined.

Lemma parallel_reduce_invalid_operator_returns_witness :
  operator_of_code 4 = None /\
  parallel_reduce_outcome (Fin 0) xadd xmul (Fin 0) (Fin 1) xltb NegInf PosInf
    three_threads (map Fin [1; 2; 3]) 3 (Fin 7) 4
  = Returns (Fin 7).
Proof.
  assert (H1 : operator_of_code 4 = None) by reflexivity.
  exact (conj H1
           (parallel_reduce_invalid_operator_returns (Fin 0) xadd xmul (Fin 0)
              (Fin 1) xleb NegInf PosInf three_threads (map Fin [1; 2; 3]) 3
              (Fin 7) 4 H1)).
Defined.

(** C4 as the specification words it fails: with the operator code 4 the
    call returns a value, where the contract has an invalid-argument
    report. *)
Lemma invalid_operator_not_reported :
  operator_of_code 4 = None /\
  reduce_contract xadd xmul xleb (map Fin [1; 2; 3]) 3 (Fin 7) 4
  = InvalidArgument /\
  parallel_reduce_outcome (Fin 0) xadd xmul (Fin 0) (Fin 1) xltb NegInf PosInf
    three_threads (map Fin [1; 2; 3]) 3 (Fin 7) 4
  <> InvalidArgument.
Proof. split; [reflexivity|split; [reflexivity|discriminate]]. Qed.

Lemma parallel_reduce_unknown_operator_witness :
  ~ (0 <= 7 <= 3) /\
  parallel_reduce_call (Fin 0) xadd xmul (Fin 0) (Fin 1) xltb NegInf PosInf
    three_threads (map Fin [1; 2; 3]) 3 (Fin 7) 7
  = (map Fin [1; 2; 3], Fin 7).
Proof.
  assert (H1 : ~ (0 <= 7 <= 3)) by lia.
  exact (conj H1
           (parallel_reduce_unknown_operator (Fin 0) xadd xmul (Fin 0)
              (Fin 1) xleb NegInf PosInf three_threads (map Fin [1; 2; 3]) 3
              (Fin 7) 7 H1)).
Defined.

(* ================================================================== *)
(** * Further properties of the sorter *)

Section SortStability.
Context {V : Type}.
Variable leb : V -> V -> bool.
Variable ordered : V -> Prop.
Hypothesis leb_total :
  forall x y, ordered x -> ordered y -> leb x y = true \/ leb y x = true.
Hypothesis leb_trans :
  forall x y z, leb x y = true -> leb y z = true -> leb x z = true.

Lemma filter_tie_app (c : V) (l1 l2 : list V) :
  List.filter (tie leb c) (l1 ++ l2)
  = List.filter (tie leb c) l1 ++ List.filter (tie leb c) l2.
Proof. apply List.filter_app. Qed.

(** The list-level sort keeps the elements that tie in their order. *)
Lemma sort_list_rec_stable (c : V) (n : nat) :
  forall l : list V,
    Forall ordered l -> (length l - 1 <= n)%nat ->
    List.filter (tie leb c) (sort_list_rec leb n l) = List.filter (tie leb c) l.
Proof.
  induction n as [|n IH]; intros l Ho Hn; [done|]. rewrite sort_list_rec_S.
  destruct (Nat.ltb_spec 1 (length l)) as [Hl|Hl]; [|done].
  pose proof (half_lt (length l) Hl) as Hh.
  set (h := S ((length l - 1) / 2)) in *.
  assert (H1 : (length (take h l) - 1 <= n)%nat) by (rewrite length_take; lia).
  assert (H2 : (length (drop h l) - 1 <= n)%nat) by (rewrite length_drop; lia).
  assert (Ho1 : Forall ordered (take h l)) by (by apply Forall_take).
  assert (Ho2 : Forall ordered (drop h l)) by (by apply Forall_drop).
  rewrite merge_lists_stable; try done;
    try (by apply (sort_list_rec_sorted leb ordered)).
  rewrite !IH by done. rewrite <- filter_tie_app. by rewrite take_drop.
Qed.

Lemma sort_list_stable (c : V) (l : list V) :
  Forall ordered l ->
  List.filter (tie leb c) (sort_list leb l) = List.filter (tie leb c) l.
Proof. intros Ho. apply sort_list_rec_stable; [done|lia]. Qed.
End SortStability.

Lemma sort_list_stable_comparable {V : Type} (leb : V -> V -> bool) (c : V)
    (l : list V) :
  (forall x y z, leb x y = true -> leb y z = true -> leb x z = true) ->
  comparable leb l ->
  List.filter (tie leb c) (sort_list leb l) = List.filter (tie leb c) l.
Proof.
  intros Htrans Hl. apply (sort_list_stable leb (fun x => x ∈ l)); [|done|].
  - intros x y Hx Hy. by apply Hl.
  - by apply Forall_forall.
Qed.

Section SorterExtras.
Context {V : Type}.
Variable undef : V.
Variable leb : V -> V -> bool.
Variable sched : Z -> Z -> bool.

Abbreviation sorted := (sorted leb).
Abbreviation parallel_sort := (parallel_sort undef leb sched).
Abbreviation mergesort_parallel := (mergesort_parallel undef leb sched).
Abbreviation mergesort_serial := (mergesort_serial undef leb).

(** X2: a sort task touches nothing but its own range: whatever the depth
    budget and the order of the subtasks, it keeps the lengths of the array
    and of the buffer and every element of either outside
    [left .. right]; when the range holds two elements or more, the range
    of the buffer ends as a copy of the sorted range of the array. *)
Theorem mergesort_parallel_frame (arr temp : list V) (left right depth : Z) :
  0 <= left -> left <= right + 1 ->
  right + 1 <= Z.of_nat (length arr) -> right + 1 <= Z.of_nat (length temp) ->
  let run := mergesort_parallel arr temp left right depth in
  length run.1.1 = length arr /\
  length run.1.2 = length temp /\
  slice run.1.1 0 left = slice arr 0 left /\
  drop (Z.to_nat (right + 1)) run.1.1 = drop (Z.to_nat (right + 1)) arr /\
  slice run.1.2 0 left = slice temp 0 left /\
  drop (Z.to_nat (right + 1)) run.1.2 = drop (Z.to_nat (right + 1)) temp /\
  (left < right ->
   slice run.1.2 left (right + 1) = slice run.1.1 left (right + 1)).
Proof.
  intros Hleft Hle Harr Htemp run.
  assert (Erun : run.1 = _) by (apply parallel_range; done).
  destruct run as [[arr' temp'] t]. cbn [fst snd] in *.
  injection Erun as Earr' Etemp'.
  destruct (range_cut arr left (right + 1)) as (Ea & Ha & Hxs); try lia.
  destruct (range_cut temp left (right + 1)) as (Et & Ht & Hus); try lia.
  assert (Hs : length (sort_list leb (slice arr left (right + 1)))
               = length (slice arr left (right + 1)))
    by apply sort_list_length.
  destruct (overwritten_range arr _ _ _ _ left (right + 1) Ea Ha Hxs Hs)
    as (Hlen & Hout & Hpre & Hpost).
  rewrite <- Earr' in Hlen, Hout, Hpre, Hpost.
  destruct (Z.ltb_spec left right) as [Hlt|Hge].
  - assert (Hs' : length (sort_list leb (slice arr left (right + 1)))
                  = length (slice temp left (right + 1))) by lia.
    destruct (overwritten_range temp _ _ _ _ left (right + 1) Et Ht Hus Hs')
      as (Hlen' & Hout' & Hpre' & Hpost').
    rewrite <- Etemp' in Hlen', Hout', Hpre', Hpost'.
    repeat split; try done. intros _. by rewrite Hout, Hout'.
  - subst temp'. repeat split; try done. lia.
Qed.

(** X1: [mergesort_serial] on a range within the array and the buffer
    leaves the range a permutation of what it held, and leaves the length
    of the array and its elements outside the range as they were; when
    the elements of the range are comparable (for [double]: no NaN) the
    range ends in non-decreasing order. *)
Theorem mergesort_serial_sorts (arr temp : list V) (left right : Z) :
  0 <= left -> left <= right + 1 ->
  right + 1 <= Z.of_nat (length arr) -> right + 1 <= Z.of_nat (length temp) ->
  let arr' := (mergesort_serial arr temp left right).1 in
  (comparable leb (slice arr left (right + 1)) ->
   sorted (slice arr' left (right + 1))) /\
  Permutation (slice arr' left (right + 1)) (slice arr left (right + 1)) /\
  length arr' = length arr /\
  slice arr' 0 left = slice arr 0 left /\
  drop (Z.to_nat (right + 1)) arr' = drop (Z.to_nat (right + 1)) arr.
Proof.
  intros Hleft Hle Harr Htemp arr'.
  assert (Earr' : arr' = take (Z.to_nat left) arr
                           ++ sort_list leb (slice arr left (right + 1))
                           ++ drop (Z.to_nat (right + 1)) arr)
    by (subst arr'; rewrite serial_range by done; reflexivity).
  destruct (range_cut arr left (right + 1)) as (Ea & Ha & Hxs); try lia.
  assert (Hs : length (sort_list leb (slice arr left (right + 1)))
               = length (slice arr left (right + 1)))
    by apply sort_list_length.
  destruct (overwritten_range arr _ _ _ _ left (right + 1) Ea Ha Hxs Hs)
    as (Hlen & Hout & Hpre & Hpost).
  rewrite <- Earr' in Hlen, Hout, Hpre, Hpost.
  split; [|split; [|done]].
  - intros Hcmp. rewrite Hout. by apply sort_list_comparable.
  - rewrite Hout. apply sort_list_perm.
Qed.

(** X3: [parallel_sort] is stable on arrays whose first [size] elements
    are comparable (for [double]: no NaN): for every value, the elements
    that tie with it come out in the order in which they were in the
    input. *)
Theorem parallel_sort_stable (temp arr : list V) (max_threads size : Z) (c : V) :
  (forall x y z, leb x y = true -> leb y z = true -> leb x z = true) ->
  comparable leb (slice arr 0 size) ->
  0 <= size -> size <= Z.of_nat (length arr) ->
  Z.of_nat (length temp) = size ->
  List.filter (tie leb c)
    (slice (parallel_sort (Some temp) max_threads arr size) 0 size)
  = List.filter (tie leb c) (slice arr 0 size).
Proof.
  intros Htrans Hcmp Hsize Harr Htemp.
  destruct (parallel_sort_output undef leb sched temp arr max_threads size)
    as (Hsort & _); try done.
  rewrite Hsort. by apply sort_list_stable_comparable.
Qed.
End SorterExtras.

(** X5: the array that [parallel_sort] leaves does not depend on what the
    fresh buffer held, on the number of threads or on the order in which
    the tasks ran. *)
Theorem parallel_sort_buffer_independent {V : Type} (undef : V)
    (leb : V -> V -> bool) (sched sched' : Z -> Z -> bool)
    (temp temp' arr : list V) (max_threads max_threads' size : Z) :
  0 <= size -> size <= Z.of_nat (length arr) ->
  Z.of_nat (length temp) = size -> Z.of_nat (length temp') = size ->
  parallel_sort undef leb sched (Some temp) max_threads arr size
  = parallel_sort undef leb sched' (Some temp') max_threads' arr size.
Proof.
  intros Hsize Harr Htemp Htemp'. unfold parallel_sort.
  by rewrite !parallel_range by lia.
Qed.

(** ** The task tree *)

Lemma iterations_app (a b : Z) :
  0 <= a -> 0 <= b ->
  iterations (a + b) = iterations a ++ map (Z.add a) (iterations b).
Proof.
  intros Ha Hb. unfold iterations.
  rewrite Z2Nat.inj_add by done. rewrite seq_app, map_app. f_equal.
  replace (seq (0 + Z.to_nat a) (Z.to_nat b))
    with (map (Nat.add (Z.to_nat a)) (seq 0 (Z.to_nat b)))
    by (change (Nat.add (Z.to_nat a) <$> seq 0 (Z.to_nat b)
                = seq (0 + Z.to_nat a) (Z.to_nat b));
        rewrite fmap_add_seq; f_equal; lia).
  rewrite !map_map. apply map_ext. intros k. lia.
Qed.

Lemma indices_split (left mid right : Z) :
  left <= mid + 1 -> mid <= right ->
  indices (left, mid) ++ indices (mid + 1, right) = indices (left, right).
Proof.
  intros Hl Hr. unfold indices. cbn [fst snd].
  replace (right - left + 1) with ((mid - left + 1) + (right - (mid + 1) + 1))
    by lia.
  rewrite (iterations_app (mid - left + 1) (right - (mid + 1) + 1)) by lia.
  rewrite map_app, map_map. f_equal.
  apply map_ext. intros k. lia.
Qed.

Section TaskTree.
Context {V : Type}.
Variable undef : V.
Variable leb : V -> V -> bool.
Variable sched : Z -> Z -> bool.

Abbreviation mergesort_parallel := (mergesort_parallel undef leb sched).

Lemma task_tree_rec (n : nat) :
  forall (arr temp : list V) (left right depth : Z),
    Z.to_nat depth = n ->
    let t := (mergesort_parallel arr temp left right depth).2 in
    (task_height t <= n)%nat /\
    (length (task_leaves t) <= 2 ^ n)%nat /\
    flat_map indices (task_leaves t) = indices (left, right).
Proof.
  induction n as [|n IH]; intros arr temp left right depth Hn t.
  - subst t. rewrite mergesort_parallel_fallback by lia. simpl.
    by rewrite app_nil_r.
  - destruct (Z.leb_spec (right - left) CUTOFF) as [Hc|Hc].
    + subst t. rewrite mergesort_parallel_fallback by lia. simpl.
      rewrite app_nil_r. split; [lia|split; [|done]].
      pose proof (Nat.pow_nonzero 2 n). lia.
    + unfold CUTOFF in Hc.
      assert (Hd : 0 < depth) by lia.
      subst t. rewrite mergesort_parallel_fork by done. cbv zeta.
      set (mid := left + Z.quot (right - left) 2).
      assert (Hmid : left <= mid /\ mid < right).
      { subst mid. rewrite Z.quot_div_nonneg by lia.
        pose proof (Z.div_mod (right - left) 2).
        pose proof (Z.mod_pos_bound (right - left) 2). lia. }
      assert (Hn' : Z.to_nat (depth - 1) = n) by lia.
      destruct (sched left right).
      * pose proof (IH arr temp left mid (depth - 1) Hn') as H1.
        destruct (mergesort_parallel arr temp left mid (depth - 1))
          as [[arr1 temp1] t1].
        pose proof (IH arr1 temp1 (mid + 1) right (depth - 1) Hn') as H2.
        destruct (mergesort_parallel arr1 temp1 (mid + 1) right (depth - 1))
          as [[arr2 temp2] t2].
        cbn [fst snd] in *. destruct H1 as (Hh1 & Hl1 & Hi1).
        destruct H2 as (Hh2 & Hl2 & Hi2). simpl.
        rewrite length_app, flat_map_app, Hi1, Hi2.
        split; [lia|split; [lia|]]. apply indices_split; lia.
      * pose proof (IH arr temp (mid + 1) right (depth - 1) Hn') as H2.
        destruct (mergesort_parallel arr temp (mid + 1) right (depth - 1))
          as [[arr2 temp2] t2].
        pose proof (IH arr2 temp2 left mid (depth - 1) Hn') as H1.
        destruct (mergesort_parallel arr2 temp2 left mid (depth - 1))
          as [[arr1 temp1] t1].
        cbn [fst snd] in *. destruct H1 as (Hh1 & Hl1 & Hi1).
        destruct H2 as (Hh2 & Hl2 & Hi2). simpl.
        rewrite length_app, flat_map_app, Hi1, Hi2.
        split; [lia|split; [lia|]]. apply indices_split; lia.
Qed.

(** X4: the depth budget bounds the task tree of a sort: it has at most
    [depth] fork levels, hence at most [2^depth] sequential sorts, and the
    ranges of these sequential sorts, from left to right, cut
    [left .. right] into consecutive pieces: every index of the range is
    in exactly one of them. *)
Theorem mergesort_parallel_task_tree (arr temp : list V)
    (left right depth : Z) :
  let t := (mergesort_parallel arr temp left right depth).2 in
  (task_height t <= Z.to_nat depth)%nat /\
  (length (task_leaves t) <= 2 ^ Z.to_nat depth)%nat /\
  flat_map indices (task_leaves t) = indices (left, right).
Proof. by apply task_tree_rec. Qed.
End TaskTree.

(** ** The checks of the test driver *)

Section TestChecks.
Context {V : Type}.
Variable undef : V.
Variables (leb ltb : V -> V -> bool).
Variable sched : Z -> Z -> bool.

Lemma Sorted_weaken (R R' : V -> V -> Prop) (l : list V) :
  Sorted R l -> (forall x y, x ∈ l -> y ∈ l -> R x y -> R' x y) ->
  Sorted R' l.
Proof.
  induction 1 as [|a l Hs IH Hd]; intros HR; constructor.
  - apply IH. intros x y Hx Hy. apply HR; by right.
  - destruct Hd as [|b l' Hab]; constructor.
    apply HR; [by left|right; by left|done].
Qed.

(** From a slot on, with the slot before it holding [p], the loop of
    [test_sort] keeps its flag exactly when no element from [p] on is
    followed by a smaller one. *)
Lemma is_sorted_loop_pieces (xs : list V) :
  forall (n : nat) (arr A C : list V) (p : V) (size i : Z),
    arr = A ++ [p] ++ xs ++ C ->
    i = Z.of_nat (length A) + 1 -> size = i + Z.of_nat (length xs) ->
    (length xs <= n)%nat ->
    is_sorted_loop undef ltb n arr size i = true
    <-> sorted (no_descent ltb) (p :: xs).
Proof.
  induction xs as [|x xs IH]; intros n arr A C p size i Harr Hi Hsize Hn.
  - simpl in Hsize. split; [intros _; repeat constructor|intros _].
    destruct n; simpl; [done|]. destruct (Z.ltb_spec i size); [lia|done].
  - destruct n as [|n]; [simpl in Hn; lia|]. simpl in Hsize, Hn.
    cbn [is_sorted_loop]. destruct (Z.ltb_spec i size); [|lia].
    rewrite (rd_at undef arr (A ++ [p]) (xs ++ C) x i);
      [|rewrite Harr; same_pieces|pieces_length].
    rewrite (rd_at undef arr A (x :: xs ++ C) p (i - 1));
      [|rewrite Harr; same_pieces|lia].
    destruct (ltb x p) eqn:E.
    + split; [done|]. intros Hs. apply Sorted_inv in Hs as [_ Hhd].
      inversion Hhd as [|? ? Hpx]; subst. unfold lte, no_descent in Hpx.
      by rewrite E in Hpx.
    + rewrite (IH n arr (A ++ [p]) C x size (i + 1));
        [|rewrite Harr; same_pieces|pieces_length|lia|lia].
      split.
      * intros Hs. constructor; [done|]. constructor.
        unfold lte, no_descent. by rewrite E.
      * intros Hs. by apply Sorted_inv in Hs as [? _].
Qed.

Lemma is_sorted_no_descent (arr : list V) (size : Z) :
  0 <= size -> size <= Z.of_nat (length arr) ->
  is_sorted undef ltb arr size = true
  <-> sorted (no_descent ltb) (slice arr 0 size).
Proof.
  intros Hsize Harr. unfold is_sorted.
  destruct (range_cut arr 0 size) as (Ea & _ & Hxs); try lia.
  change (Z.to_nat 0) with 0%nat in Ea. rewrite take_0 in Ea. simpl in Ea.
  destruct (slice arr 0 size) as [|p xs] eqn:E.
  - simpl in Hxs. replace (Z.to_nat (size - 1)) with 0%nat by lia.
    split; [intros _; constructor|done].
  - simpl in Hxs.
    apply (is_sorted_loop_pieces xs _ arr [] (drop (Z.to_nat size) arr) p);
      [done|simpl; lia|lia|lia].
Qed.

(** X6: the verification loop of [test_sort] ends with its flag set
    exactly when none of the first [size] elements is [<] the one before
    it.  Where [<] is the strict part of [<=] on these elements (for
    [double]: none of them is a NaN), that is exactly when they are in
    non-decreasing order. *)
Theorem is_sorted_iff_sorted (arr : list V) (size : Z) :
  0 <= size -> size <= Z.of_nat (length arr) ->
  (is_sorted undef ltb arr size = true
   <-> sorted (no_descent ltb) (slice arr 0 size)) /\
  ((forall x y, x ∈ slice arr 0 size -> y ∈ slice arr 0 size ->
      ltb x y = negb (leb y x)) ->
   is_sorted undef ltb arr size = true <-> sorted leb (slice arr 0 size)).
Proof.
  intros Hsize Harr. split; [by apply is_sorted_no_descent|].
  intros Hstrict. rewrite is_sorted_no_descent by done.
  split; intros Hs; apply (Sorted_weaken _ _ _ Hs); intros x y Hx Hy;
    unfold lte, no_descent; rewrite (Hstrict y x Hy Hx);
    by rewrite negb_involutive.
Qed.

(** X7: [test_sort] passes on what [parallel_sort] leaves: after a call
    that had its buffer, the verification loop ends with its flag set,
    whatever the array held (NaN too), the number of threads and the
    order of the tasks.  All it takes of the comparisons is that [x < y]
    gives [x <= y] and that [x <= y] excludes [y < x]. *)
Theorem test_sort_passes (temp arr : list V) (max_threads size : Z) :
  (forall x y, ltb x y = true -> leb x y = true) ->
  (forall x y, leb x y = true -> ltb y x = false) ->
  0 <= size -> size <= Z.of_nat (length arr) ->
  Z.of_nat (length temp) = size ->
  is_sorted undef ltb
    (parallel_sort undef leb sched (Some temp) max_threads arr size) size
  = true.
Proof.
  intros Hlt Hle Hsize Harr Htemp.
  destruct (parallel_sort_output undef leb sched temp arr max_threads size)
    as (Hsort & Hlen & _); try done.
  apply is_sorted_no_descent; [done|lia|]. rewrite Hsort.
  apply (Sorted_weaken _ _ _ (sort_list_precedes leb _)).
  intros x y _ _. unfold lte, precedes, no_descent. intros Hxy.
  destruct (ltb y x) eqn:E; [|done]. rewrite (Hlt y x E) in Hxy.
  simpl in Hxy. rewrite orb_false_r in Hxy.
  rewrite (Hle x y Hxy) in E. done.
Qed.
End TestChecks.

(** ** Loops that update each slot on its own *)

Section Slotwise.
Context {X : Type}.
Variable d : X.
Variable g : Z -> X -> X.

Abbreviation slot_step := (fun (out : list X) (i : Z) => wr out i (g i (rd d out i))).

Lemma wr_lookup_any (out : list X) (i : Z) (x : X) (j : nat) :
  wr out i x !! j
  = if decide (i = Z.of_nat j) then (fun _ => x) <$> out !! j else out !! j.
Proof.
  unfold wr. destruct (Z.ltb_spec i 0) as [Hneg|Hpos].
  - rewrite decide_False by lia. done.
  - destruct (decide (i = Z.of_nat j)) as [->|Hne].
    + rewrite Nat2Z.id.
      destruct (decide (j < length out)%nat) as [Hj|Hj].
      * rewrite list_lookup_insert_eq by done.
        destruct (lookup_lt_is_Some_2 out j Hj) as [y Hy]. by rewrite Hy.
      * rewrite list_insert_ge by lia. by rewrite lookup_ge_None_2 by lia.
    + apply list_lookup_insert_ne. lia.
Qed.

Lemma rd_lookup (out : list X) (j : nat) (x : X) :
  out !! j = Some x -> rd d out (Z.of_nat j) = x.
Proof.
  intros Hx. unfold rd. destruct (Z.ltb_spec (Z.of_nat j) 0); [lia|].
  by rewrite Nat2Z.id, Hx.
Qed.

(** When every iteration occurs once, a slot ends with [g] applied once to
    what it held if its index is among the iterations, and as it was
    otherwise. *)
Lemma slotwise_run (run : list Z) :
  NoDup run ->
  forall out : list X,
    length (fold_left slot_step run out) = length out /\
    forall j : nat,
      fold_left slot_step run out !! j
      = if decide (Z.of_nat j ∈ run)
        then g (Z.of_nat j) <$> out !! j else out !! j.
Proof.
  induction 1 as [|i run Hi Hrun IH]; intros out.
  - split; [done|]. intros j. reflexivity.
  - cbn [fold_left].
    destruct (IH (wr out i (g i (rd d out i)))) as [Hlen Hget].
    rewrite wr_length in Hlen. split; [done|]. intros j.
    rewrite Hget, wr_lookup_any.
    destruct (decide (i = Z.of_nat j)) as [->|Hne].
    + rewrite decide_False by done. rewrite decide_True by (by left).
      destruct (out !! j) as [x|] eqn:Ex; [|done]. simpl.
      by rewrite (rd_lookup out j x Ex).
    + destruct (decide (Z.of_nat j ∈ run)) as [Hin|Hout].
      * rewrite decide_True by (by right). done.
      * rewrite decide_False; [done|].
        intros Hin. apply elem_of_cons in Hin as [?|?]; [congruence|done].
Qed.

(** The order of the iterations does not matter. *)
Lemma slotwise_permutation (run run' : list Z) (out : list X) :
  NoDup run -> Permutation run run' ->
  fold_left slot_step run out = fold_left slot_step run' out.
Proof.
  intros Hnd Hperm.
  assert (Hnd' : NoDup run') by (by rewrite <- Hperm).
  destruct (slotwise_run run Hnd out) as [_ Hget].
  destruct (slotwise_run run' Hnd' out) as [_ Hget'].
  apply list_eq. intros j. rewrite Hget, Hget'.
  destruct (decide (Z.of_nat j ∈ run)) as [Hin|Hout].
  - rewrite decide_True; [done|]. by rewrite <- Hperm.
  - rewrite decide_False; [done|]. by rewrite <- Hperm.
Qed.
End Slotwise.

Lemma NoDup_iterations (size : Z) : NoDup (iterations size).
Proof.
  unfold iterations. apply NoDup_fmap_2; [|apply NoDup_seq].
  intros x y. lia.
Qed.

(** ** Further properties of the transformer *)

Section TransformerExtras.
Context {V : Type}.
Variable undef : V.

(** The output array after [parallel_transform]. *)
Lemma parallel_transform_output (completion : list Z -> list Z)
    (inp out : list V) (size : Z) (func : V -> V) :
  reorders completion ->
  size <= Z.of_nat (length inp) -> size <= Z.of_nat (length out) ->
  parallel_transform undef completion inp out size func
  = map func (slice inp 0 size) ++ drop (Z.to_nat size) out.
Proof.
  intros Hcompletion Hinp Hout. unfold parallel_transform.
  pose proof (Hcompletion (iterations size)) as Hrun.
  set (run := completion (iterations size)) in *.
  assert (Hin : forall i, i ∈ run <-> 0 <= i < size).
  { intros i. rewrite <- elem_of_iterations. by rewrite Hrun. }
  destruct (transform_run undef func inp run out) as [Hlen Hget].
  { apply Forall_forall. intros i Hi. apply Hin in Hi. lia. }
  assert (Hslice : length (map func (slice inp 0 size)) = Z.to_nat size).
  { rewrite length_map. unfold slice.
    rewrite length_take, length_drop. lia. }
  apply list_eq. intros j. rewrite Hget.
  destruct (decide (Z.of_nat j ∈ run)) as [Hj|Hj].
  - apply Hin in Hj. rewrite lookup_app_l by lia.
    change (map func (slice inp 0 size)) with (func <$> slice inp 0 size).
    rewrite list_lookup_fmap. unfold slice.
    rewrite lookup_take_lt by lia. change (Z.to_nat 0) with 0%nat.
    rewrite drop_0.
    destruct (lookup_lt_is_Some_2 inp j) as [x Hx]; [lia|].
    rewrite Hx. simpl. by rewrite (rd_lookup undef inp j x Hx).
  - assert (Hge : (Z.to_nat size <= j)%nat).
    { destruct (decide (Z.to_nat size <= j)%nat); [done|].
      exfalso. apply Hj, Hin. lia. }
    rewrite lookup_app_r by lia. rewrite Hslice, lookup_drop.
    f_equal. lia.
Qed.

(** X9: two transformations in a row are one transformation with the
    composed function: the output of [parallel_transform] with [g] on the
    output of [parallel_transform] with [f] is the output of
    [parallel_transform] with [g] after [f] on the input, for any orders of
    the iterations of the three loops. *)
Theorem parallel_transform_compose (first second both : list Z -> list Z)
    (inp mid out : list V) (size : Z) (f g : V -> V) :
  reorders first -> reorders second -> reorders both ->
  0 <= size -> size <= Z.of_nat (length inp) ->
  size <= Z.of_nat (length mid) -> size <= Z.of_nat (length out) ->
  parallel_transform undef second
    (parallel_transform undef first inp mid size f) out size g
  = parallel_transform undef both inp out size (fun x => g (f x)).
Proof.
  intros H1 H2 H3 Hsize Hinp Hmid Hout.
  rewrite (parallel_transform_output first inp mid) by done.
  assert (Hlen : length (slice inp 0 size) = Z.to_nat size).
  { unfold slice. rewrite length_take, length_drop. lia. }
  assert (Hs : slice (map f (slice inp 0 size) ++ drop (Z.to_nat size) mid)
                 0 size
               = map f (slice inp 0 size)).
  { apply (slice_middle [] _ (drop (Z.to_nat size) mid)); [done|].
    rewrite length_map. lia. }
  rewrite !parallel_transform_output; try done.
  - by rewrite Hs, map_map.
  - rewrite length_app, length_map. lia.
Qed.

(** X8: [parallel_transform] with the same array for input and output
    works in place: every slot below [size] ends with [func] applied once
    to what it held, and the array keeps its length and its slots from
    [size] on, for any order of the iterations. *)
Theorem parallel_transform_in_place_pointwise (completion : list Z -> list Z)
    (a : list V) (size : Z) (func : V -> V) :
  reorders completion -> size <= Z.of_nat (length a) ->
  let a' := parallel_transform_in_place undef completion a size func in
  (forall i, 0 <= i < size -> rd undef a' i = func (rd undef a i)) /\
  length a' = length a /\
  drop (Z.to_nat size) a' = drop (Z.to_nat size) a.
Proof.
  intros Hcompletion Ha a'.
  pose proof (Hcompletion (iterations size)) as Hrun.
  assert (Hnd : NoDup (completion (iterations size)))
    by (rewrite Hrun; apply NoDup_iterations).
  destruct (slotwise_run undef (fun _ => func) _ Hnd a) as [Hlen Hget].
  change (fold_left _ (completion (iterations size)) a) with a' in Hlen, Hget.
  assert (Hin : forall i, i ∈ completion (iterations size) <-> 0 <= i < size).
  { intros i. rewrite <- elem_of_iterations. by rewrite Hrun. }
  split; [|split; [done|]].
  - intros i Hi.
    destruct (lookup_lt_is_Some_2 a (Z.to_nat i)) as [x Hx]; [lia|].
    assert (Hx' : a' !! Z.to_nat i = Some (func x)).
    { rewrite Hget, decide_True by (apply Hin; lia). by rewrite Hx. }
    rewrite <- (Z2Nat.id i) by lia.
    by rewrite (rd_lookup undef a' _ _ Hx'), (rd_lookup undef a _ _ Hx).
  - apply list_eq. intros j. rewrite !lookup_drop, Hget.
    rewrite decide_False; [done|]. intros Hj. apply Hin in Hj. lia.
Qed.

(** X10: [test_transform] passes: it counts no error between the output
    of [parallel_transform] and the expected values that its sequential
    loop computes with the same function, for any order of the iterations,
    as no value is farther than [EPSILON] from itself. *)
Theorem test_transform_no_errors (far : V -> V -> bool)
    (completion : list Z -> list Z) (inp out expected : list V) (size : Z)
    (func : V -> V) :
  (forall x, far x x = false) ->
  reorders completion ->
  size <= Z.of_nat (length inp) -> size <= Z.of_nat (length out) ->
  size <= Z.of_nat (length expected) ->
  count_errors undef far
    (parallel_transform undef completion inp out size func)
    (fill_expected undef func inp expected size) size
  = 0.
Proof.
  intros Hfar Hcompletion Hinp Hout Hexpected.
  change (fill_expected undef func inp expected size)
    with (parallel_transform undef (fun its => its) inp expected size func).
  assert (Hid : reorders (fun its : list Z => its)) by (intros its; done).
  rewrite (parallel_transform_output completion inp out) by done.
  rewrite (parallel_transform_output _ inp expected) by done.
  unfold count_errors.
  set (img := map func (slice inp 0 size)).
  assert (Himg : length img = Z.to_nat size).
  { unfold img, slice. rewrite length_map, length_take, length_drop. lia. }
  assert (Hsame : forall i, i ∈ iterations size ->
            rd undef (img ++ drop (Z.to_nat size) out) i
            = rd undef (img ++ drop (Z.to_nat size) expected) i).
  { intros i Hi. apply elem_of_iterations in Hi.
    destruct (lookup_lt_is_Some_2 img (Z.to_nat i)) as [x Hx]; [lia|].
    rewrite <- (Z2Nat.id i) by lia.
    rewrite !(rd_lookup undef _ _ x); [done|..];
      by rewrite lookup_app_l by lia. }
  revert Hsame. generalize (iterations size). generalize 0.
  intros e its. revert e. induction its as [|i its IH]; intros e Hsame.
  - done.
  - cbn [fold_left]. rewrite (Hsame i) by (by left). rewrite Hfar.
    apply IH. intros k Hk. apply Hsame. by right.
Qed.
End TransformerExtras.

(** ** Further properties of the reducer *)

Section ReducerReads.
Context {V : Type}.
Variable undef : V.
Variables (add mul : V -> V -> V) (zero one : V).
Variable ltb : V -> V -> bool.
Variables (neg_inf pos_inf : V).

Abbreviation parallel_reduce :=
  (parallel_reduce undef add mul zero one ltb neg_inf pos_inf).

Lemma partial_same (op : operator) (arr arr' : list V) (chunk : list Z) :
  (forall i, i ∈ chunk -> rd undef arr i = rd undef arr' i) ->
  partial undef add mul zero one ltb neg_inf pos_inf op arr chunk
  = partial undef add mul zero one ltb neg_inf pos_inf op arr' chunk.
Proof.
  unfold partial. generalize (omp_priv zero one neg_inf pos_inf op).
  induction chunk as [|i chunk IH]; intros a Hsame; [done|].
  cbn [fold_left]. rewrite (Hsame i) by (by left).
  apply IH. intros k Hk. apply Hsame. by right.
Qed.

(** X11: [parallel_reduce] reads nothing but the first [size] elements:
    on two arrays that agree there the call returns the same value, for
    every operator code, with no assumption on the arithmetic. *)
Theorem parallel_reduce_reads_prefix (schedule : list Z -> list (list Z))
    (arr arr' : list V) (size : Z) (initial : V) (code : Z) :
  distributes schedule ->
  (forall i, 0 <= i < size -> rd undef arr i = rd undef arr' i) ->
  parallel_reduce schedule arr size initial code
  = parallel_reduce schedule arr' size initial code.
Proof.
  intros Hschedule Hsame.
  destruct (operator_of_code code) as [op|] eqn:Hop.
  - rewrite !(parallel_reduce_operator undef add mul zero one ltb neg_inf
                pos_inf schedule _ size initial code op Hop).
    unfold omp_for_reduction. cbv zeta. f_equal.
    apply map_ext_in. intros chunk Hchunk. apply partial_same.
    intros i Hi. apply Hsame, elem_of_iterations.
    rewrite <- (Hschedule (iterations size)).
    apply list_elem_of_In, in_concat. exists chunk.
    split; [done|by apply list_elem_of_In].
  - by rewrite !parallel_reduce_no_operator.
Qed.
End ReducerReads.

Section ReducerExtras.
Context {V : Type}.
Variable undef : V.
Variables (add mul : V -> V -> V) (zero one : V).
Variables (leb ltb : V -> V -> bool).
Variables (neg_inf pos_inf : V).

Abbreviation apply_op := (apply_op add mul ltb).
Abbreviation parallel_reduce :=
  (parallel_reduce undef add mul zero one ltb neg_inf pos_inf).

Hypothesis add_assoc : forall x y z, add (add x y) z = add x (add y z).
Hypothesis add_comm : forall x y, add x y = add y x.
Hypothesis add_zero : forall x, add x zero = x.
Hypothesis mul_assoc : forall x y z, mul (mul x y) z = mul x (mul y z).
Hypothesis mul_comm : forall x y, mul x y = mul y x.
Hypothesis mul_one : forall x, mul x one = x.
Hypothesis leb_total : forall x y, leb x y = true \/ leb y x = true.
Hypothesis leb_trans :
  forall x y z, leb x y = true -> leb y z = true -> leb x z = true.
Hypothesis leb_antisym :
  forall x y, leb x y = true -> leb y x = true -> x = y.
Hypothesis neg_inf_least : forall x, leb neg_inf x = true.
Hypothesis pos_inf_greatest : forall x, leb x pos_inf = true.
Hypothesis ltb_leb : forall x y, ltb x y = negb (leb y x).

(** The call with a code of the closed set, as a fold. *)
Lemma parallel_reduce_fold (schedule : list Z -> list (list Z))
    (arr : list V) (size : Z) (initial : V) (code : Z) (op : operator) :
  operator_of_code code = Some op ->
  distributes schedule -> size <= Z.of_nat (length arr) ->
  parallel_reduce schedule arr size initial code
  = fold_left (apply_op op) (slice arr 0 size) initial.
Proof.
  intros Hop Hschedule Hsize.
  rewrite (parallel_reduce_operator undef add mul zero one ltb neg_inf
             pos_inf schedule arr size initial code op Hop).
  by apply (omp_for_reduction_fold undef add mul zero one leb).
Qed.

Lemma max_is_operand (r x : V) :
  apply_op Max r x = r \/ apply_op Max r x = x.
Proof. simpl. destruct (gtb ltb x r); auto. Qed.

Lemma min_is_operand (r x : V) :
  apply_op Min r x = r \/ apply_op Min r x = x.
Proof. simpl. destruct (ltb x r); auto. Qed.

Lemma fold_max_bounds (l : list V) :
  forall a,
    let r := fold_left (apply_op Max) l a in
    leb a r = true /\ Forall (fun x => leb x r = true) l /\ (r = a \/ r ∈ l).
Proof.
  induction l as [|x l IH]; intros a r.
  - subst r. simpl. split; [by apply (leb_refl leb)|split; [constructor|by left]].
  - subst r. cbn [fold_left].
    destruct (IH (apply_op Max a x)) as (Hr & Hall & Hmem).
    pose proof (max_upper_l add mul leb ltb leb_total ltb_leb a x) as Ha.
    pose proof (max_upper_r add mul leb ltb leb_total ltb_leb a x) as Hx.
    split; [eauto using leb_trans|split].
    + constructor; [eauto using leb_trans|done].
    + destruct Hmem as [Hmem|Hmem]; [|right; by right].
      rewrite Hmem. destruct (max_is_operand a x) as [->| ->];
        [by left|right; by left].
Qed.

Lemma fold_min_bounds (l : list V) :
  forall a,
    let r := fold_left (apply_op Min) l a in
    leb r a = true /\ Forall (fun x => leb r x = true) l /\ (r = a \/ r ∈ l).
Proof.
  induction l as [|x l IH]; intros a r.
  - subst r. simpl. split; [by apply (leb_refl leb)|split; [constructor|by left]].
  - subst r. cbn [fold_left].
    destruct (IH (apply_op Min a x)) as (Hr & Hall & Hmem).
    pose proof (min_lower_l add mul leb ltb leb_total ltb_leb a x) as Ha.
    pose proof (min_lower_r add mul leb ltb leb_total ltb_leb a x) as Hx.
    split; [eauto using leb_trans|split].
    + constructor; [eauto using leb_trans|done].
    + destruct Hmem as [Hmem|Hmem]; [|right; by right].
      rewrite Hmem. destruct (min_is_operand a x) as [->| ->];
        [by left|right; by left].
Qed.

Lemma elem_of_slice (arr : list V) (size : Z) (x : V) :
  size <= Z.of_nat (length arr) ->
  x ∈ slice arr 0 size <-> exists i, 0 <= i < size /\ x = rd undef arr i.
Proof.
  intros Hsize. rewrite <- (rd_iterations undef arr size Hsize).
  change (map (rd undef arr) (iterations size))
    with (rd undef arr <$> iterations size).
  rewrite list_elem_of_fmap. split.
  - intros (i & -> & Hi). exists i. by rewrite <- elem_of_iterations.
  - intros (i & Hi & ->). exists i. by rewrite elem_of_iterations.
Qed.

(** The value of the max (code 2) and of the min (code 3) reduction. *)
Lemma max_reduce_bounds (schedule : list Z -> list (list Z)) (arr : list V)
    (size : Z) (initial : V) :
  distributes schedule -> size <= Z.of_nat (length arr) ->
  let r := parallel_reduce schedule arr size initial 2 in
  leb initial r = true /\
  (forall i, 0 <= i < size -> leb (rd undef arr i) r = true) /\
  (r = initial \/ exists i, 0 <= i < size /\ r = rd undef arr i).
Proof.
  intros Hschedule Hsize r. subst r.
  rewrite (parallel_reduce_fold schedule arr size initial 2 Max) by done.
  destruct (fold_max_bounds (slice arr 0 size) initial) as (Hr & Hall & Hmem).
  split; [done|split].
  - intros i Hi. rewrite Forall_forall in Hall. apply Hall.
    apply elem_of_slice; [done|]. by exists i.
  - destruct Hmem as [?|Hmem]; [by left|right]. by apply elem_of_slice.
Qed.

Lemma min_reduce_bounds (schedule : list Z -> list (list Z)) (arr : list V)
    (size : Z) (initial : V) :
  distributes schedule -> size <= Z.of_nat (length arr) ->
  let r := parallel_reduce schedule arr size initial 3 in
  leb r initial = true /\
  (forall i, 0 <= i < size -> leb r (rd undef arr i) = true) /\
  (r = initial \/ exists i, 0 <= i < size /\ r = rd undef arr i).
Proof.
  intros Hschedule Hsize r. subst r.
  rewrite (parallel_reduce_fold schedule arr size initial 3 Min) by done.
  destruct (fold_min_bounds (slice arr 0 size) initial) as (Hr & Hall & Hmem).
  split; [done|split].
  - intros i Hi. rewrite Forall_forall in Hall. apply Hall.
    apply elem_of_slice; [done|]. by exists i.
  - destruct Hmem as [?|Hmem]; [by left|right]. by apply elem_of_slice.
Qed.

(** X12: under exact arithmetic the max reduction (code 2) returns an
    upper bound of the initial value and of the first [size] elements that
    is one of them, and the min reduction (code 3) a lower bound that is
    one of them, whatever the distribution of the iterations. *)
Theorem parallel_reduce_max_min_bounds (schedule : list Z -> list (list Z))
    (arr : list V) (size : Z) (initial : V) :
  distributes schedule -> size <= Z.of_nat (length arr) ->
  let hi := parallel_reduce schedule arr size initial 2 in
  let lo := parallel_reduce schedule arr size initial 3 in
  (leb initial hi = true /\
   (forall i, 0 <= i < size -> leb (rd undef arr i) hi = true) /\
   (hi = initial \/ exists i, 0 <= i < size /\ hi = rd undef arr i)) /\
  (leb lo initial = true /\
   (forall i, 0 <= i < size -> leb lo (rd undef arr i) = true) /\
   (lo = initial \/ exists i, 0 <= i < size /\ lo = rd undef arr i)).
Proof.
  intros Hschedule Hsize hi lo. split.
  - by apply max_reduce_bounds.
  - by apply min_reduce_bounds.
Qed.

(** X13: a reduction does not see the order of the elements: under exact
    arithmetic, [parallel_reduce] on the array that [parallel_sort] leaves
    returns what it returns on the array as it was, for each of the four
    operators and whatever the schedules, the thread counts and the order
    of the tasks. *)
Theorem parallel_reduce_after_sort (schedule schedule' : list Z -> list (list Z))
    (sched : Z -> Z -> bool) (temp arr : list V)
    (max_threads size : Z) (initial : V) (code : Z) (op : operator) :
  operator_of_code code = Some op ->
  distributes schedule -> distributes schedule' ->
  0 <= size -> size <= Z.of_nat (length arr) ->
  Z.of_nat (length temp) = size ->
  parallel_reduce schedule
    (parallel_sort undef leb sched (Some temp) max_threads arr size)
    size initial code
  = parallel_reduce schedule' arr size initial code.
Proof.
  intros Hop Hschedule Hschedule' Hsize Harr Htemp.
  destruct (parallel_sort_output undef leb sched temp arr max_threads size)
    as (Hsort & Hlen & _); try done.
  rewrite !(parallel_reduce_fold _ _ size initial code op); try done; [|lia].
  rewrite Hsort.
  apply (fold_left_permutation (apply_op op)).
  - apply (apply_op_assoc add mul leb); done.
  - apply (apply_op_comm add mul leb); done.
  - apply sort_list_perm.
Qed.
End ReducerExtras.

(** ** Reductions of an array that is in order *)

Section SortedReduce.
Context {V : Type}.
Variable undef : V.
Variables (add mul : V -> V -> V) (zero one : V).
Variables (leb ltb : V -> V -> bool).
Variables (neg_inf pos_inf : V).

Abbreviation parallel_reduce :=
  (parallel_reduce undef add mul zero one ltb neg_inf pos_inf).

Hypothesis add_assoc : forall x y z, add (add x y) z = add x (add y z).
Hypothesis add_comm : forall x y, add x y = add y x.
Hypothesis add_zero : forall x, add x zero = x.
Hypothesis mul_assoc : forall x y z, mul (mul x y) z = mul x (mul y z).
Hypothesis mul_comm : forall x y, mul x y = mul y x.
Hypothesis mul_one : forall x, mul x one = x.
Hypothesis leb_total : forall x y, leb x y = true \/ leb y x = true.
Hypothesis leb_trans :
  forall x y z, leb x y = true -> leb y z = true -> leb x z = true.
Hypothesis leb_antisym :
  forall x y, leb x y = true -> leb y x = true -> x = y.
Hypothesis neg_inf_least : forall x, leb neg_inf x = true.
Hypothesis pos_inf_greatest : forall x, leb x pos_inf = true.
Hypothesis ltb_leb : forall x y, ltb x y = negb (leb y x).

(** In a sorted range an element is [<=] every element after it. *)
Lemma sorted_index_le (arr : list V) (size i j : Z) :
  size <= Z.of_nat (length arr) -> sorted leb (slice arr 0 size) ->
  0 <= i -> i <= j -> j < size ->
  leb (rd undef arr i) (rd undef arr j) = true.
Proof.
  intros Hsize Hsorted Hi Hij Hj.
  destruct (Z.eq_dec i j) as [->|Hne]; [by apply (leb_refl leb)|].
  assert (Hcut : slice arr 0 size = slice arr 0 i ++ slice arr i size).
  { rewrite (slice_take arr 0 i size), (slice_drop arr 0 i size) by lia.
    by rewrite take_drop. }
  rewrite Hcut in Hsorted. apply sorted_app in Hsorted as [_ Hsorted].
  rewrite (slice_first undef arr i size) in Hsorted by lia.
  apply (sorted_head_le leb leb_trans) in Hsorted.
  rewrite Forall_forall in Hsorted. apply Hsorted.
  assert (Hcut' : slice arr (i + 1) size
                  = slice arr (i + 1) j ++ slice arr j size).
  { rewrite (slice_take arr (i + 1) j size), (slice_drop arr (i + 1) j size)
      by lia.
    by rewrite take_drop. }
  rewrite Hcut', (slice_first undef arr j size) by lia.
  apply elem_of_app. right. by left.
Qed.

(** X14: on an array whose first [size >= 1] elements are in order, the
    min reduction seeded with the greatest value returns the first element
    and the max reduction seeded with the least value returns the element
    at [size - 1]. *)
Theorem parallel_reduce_sorted_ends (schedule : list Z -> list (list Z))
    (arr : list V) (size : Z) :
  distributes schedule ->
  1 <= size -> size <= Z.of_nat (length arr) ->
  sorted leb (slice arr 0 size) ->
  parallel_reduce schedule arr size pos_inf 3 = rd undef arr 0 /\
  parallel_reduce schedule arr size neg_inf 2 = rd undef arr (size - 1).
Proof.
  intros Hschedule Hone Hsize Hsorted. split.
  - destruct (min_reduce_bounds undef add mul zero one leb ltb neg_inf pos_inf
                add_assoc add_comm add_zero mul_assoc mul_comm mul_one
                leb_total leb_trans leb_antisym neg_inf_least
                pos_inf_greatest ltb_leb schedule arr size pos_inf Hschedule Hsize)
      as (_ & Hall & Hmem).
    apply leb_antisym; [apply Hall; lia|].
    destruct Hmem as [->|(i & Hi & ->)]; [apply pos_inf_greatest|].
    apply (sorted_index_le arr size); try done; lia.
  - destruct (max_reduce_bounds undef add mul zero one leb ltb neg_inf pos_inf
                add_assoc add_comm add_zero mul_assoc mul_comm mul_one
                leb_total leb_trans leb_antisym neg_inf_least
                pos_inf_greatest ltb_leb schedule arr size neg_inf Hschedule Hsize)
      as (_ & Hall & Hmem).
    apply leb_antisym; [|apply Hall; lia].
    destruct Hmem as [->|(i & Hi & ->)]; [apply neg_inf_least|].
    apply (sorted_index_le arr size); try done; lia.
Qed.
End SortedReduce.

(** ** The matrix product and the vector operation *)

Section ArrayUpdates.
Context {X : Type}.
Variable d : X.

Lemma wr_outside (a : list X) (i : Z) (x : X) :
  i < 0 \/ Z.of_nat (length a) <= i -> wr a i x = a.
Proof.
  intros Hi. unfold wr. destruct (Z.ltb_spec i 0); [done|].
  apply list_insert_ge. lia.
Qed.

Lemma rd_wr_same (a : list X) (i : Z) (x : X) :
  0 <= i -> i < Z.of_nat (length a) -> rd d (wr a i x) i = x.
Proof.
  intros Hi Hlen. unfold rd, wr. destruct (Z.ltb_spec i 0); [lia|].
  by rewrite list_lookup_insert_eq by lia.
Qed.

Lemma wr_wr_same (a : list X) (i : Z) (x y : X) :
  wr (wr a i x) i y = wr a i y.
Proof.
  unfold wr. destruct (i <? 0); [done|apply list_insert_insert_eq].
Qed.

Lemma wr_rd_same (a : list X) (i : Z) :
  0 <= i -> i < Z.of_nat (length a) -> wr a i (rd d a i) = a.
Proof.
  intros Hi Hlen. unfold rd, wr. destruct (Z.ltb_spec i 0); [lia|].
  destruct (lookup_lt_is_Some_2 a (Z.to_nat i)) as [x Hx]; [lia|].
  rewrite Hx. simpl. by apply list_insert_id.
Qed.

(** A loop that accumulates into one slot, as an update of the slot. *)
Lemma accumulate_slot {K : Type} (h : X -> K -> X) (ks : list K) (i : Z) :
  forall a : list X,
    fold_left (fun a k => wr a i (h (rd d a i) k)) ks a
    = wr a i (fold_left h ks (rd d a i)).
Proof.
  induction ks as [|k ks IH]; intros a.
  - destruct (Z.lt_ge_cases i 0) as [Hneg|Hpos];
      [by rewrite wr_outside by lia|].
    destruct (Z.lt_ge_cases i (Z.of_nat (length a))) as [Hin|Hout];
      [by rewrite wr_rd_same|by rewrite wr_outside by lia].
  - cbn [fold_left]. rewrite IH, wr_wr_same.
    destruct (Z.lt_ge_cases i 0) as [Hneg|Hpos];
      [by rewrite !wr_outside by lia|].
    destruct (Z.lt_ge_cases i (Z.of_nat (length a))) as [Hin|Hout];
      [by rewrite rd_wr_same|by rewrite !wr_outside by lia].
Qed.

Lemma fold_left_same {K : Type} (f f' : list X -> K -> list X) (ks : list K) :
  (forall a k, f a k = f' a k) ->
  forall a, fold_left f ks a = fold_left f' ks a.
Proof.
  intros Hf. induction ks as [|k ks IH]; intros a; [done|].
  cbn [fold_left]. by rewrite Hf, IH.
Qed.
End ArrayUpdates.

Section MatrixFacts.
Context {V : Type}.
Variable undef : V.
Variables (add mul : V -> V -> V) (zero : V).

Abbreviation mrd := (mrd undef).
Abbreviation dot := (dot undef add mul zero).
Abbreviation product_row := (product_row undef add mul zero).
Abbreviation matrix_multiply_seq := (matrix_multiply_seq undef add mul zero).
Abbreviation matrix_multiply_parallel :=
  (matrix_multiply_parallel undef add mul zero).

(** The row of the product that the loop on [j] leaves in a row. *)
Abbreviation row_of A B n i :=
  (fun row : list V =>
     fold_left (fun row j => wr row j (dot A B n i j)) (iterations n) row).

(** The loop on [k] sets the cell to the sum it accumulates from zero. *)
Lemma product_cell_dot (A B C : list (list V)) (n i j : Z) :
  product_cell undef add mul A B (mwr C i j zero) n i j
  = wr C i (wr (rd [] C i) j (dot A B n i j)).
Proof.
  unfold product_cell, mwr, mrd.
  rewrite (accumulate_slot []
             (fun row k => wr row j (add (rd undef row j)
                                       (mul (mrd A i k) (mrd B k j))))).
  rewrite wr_wr_same.
  rewrite (accumulate_slot undef
             (fun acc k => add acc (mul (mrd A i k) (mrd B k j)))).
  destruct (Z.lt_ge_cases i 0) as [Hneg|Hpos];
    [by rewrite !wr_outside by lia|].
  destruct (Z.lt_ge_cases i (Z.of_nat (length C))) as [Hin|Hout];
    [|by rewrite !wr_outside by lia].
  rewrite rd_wr_same by done. rewrite wr_wr_same.
  destruct (Z.lt_ge_cases j 0) as [Hjneg|Hjpos];
    [by rewrite !(wr_outside (rd [] C i)) by lia|].
  destruct (Z.lt_ge_cases j (Z.of_nat (length (rd [] C i)))) as [Hjin|Hjout];
    [|by rewrite !(wr_outside (rd [] C i)) by lia].
  by rewrite rd_wr_same by done.
Qed.

(** The body of the loop on [i] updates the row [i] alone. *)
Lemma product_row_slot (A B C : list (list V)) (n i : Z) :
  product_row A B C n i = wr C i (row_of A B n i (rd [] C i)).
Proof.
  unfold product_row.
  rewrite (fold_left_same _
             (fun C j => wr C i (wr (rd [] C i) j (dot A B n i j))))
    by (intros; apply product_cell_dot).
  apply (accumulate_slot [] (fun row j => wr row j (dot A B n i j))).
Qed.

(** X15: [matrix_multiply_parallel] leaves in [C] exactly what
    [matrix_multiply_seq] leaves, whatever the order in which the rows
    complete and with no assumption on the arithmetic: every cell is
    accumulated by one thread in the order of the sequential loop. *)
Theorem matrix_multiply_parallel_seq (completion : list Z -> list Z)
    (A B C : list (list V)) (n : Z) :
  reorders completion ->
  matrix_multiply_parallel completion A B C n = matrix_multiply_seq A B C n.
Proof.
  intros Hcompletion.
  unfold matrix_multiply_parallel, matrix_multiply_seq.
  rewrite !(fold_left_same (fun C i => product_row A B C n i)
              (fun C i => wr C i (row_of A B n i (rd [] C i))))
    by (intros; apply product_row_slot).
  symmetry.
  apply (slotwise_permutation [] (fun i => row_of A B n i));
    [apply NoDup_iterations|]. symmetry. apply Hcompletion.
Qed.

(** X16: after [matrix_multiply_seq] the cell [C[i][j]], for [i] and [j]
    below [n] within [C], holds the sum of the products
    [A[i][k] * B[k][j]] accumulated from zero for [k = 0 .. n-1], whatever
    [C] held before; [C] keeps its number of rows. *)
Theorem matrix_multiply_seq_cells (A B C : list (list V)) (n i j : Z) :
  0 <= i -> i < n -> 0 <= j -> j < n ->
  n <= Z.of_nat (length C) -> n <= Z.of_nat (length (rd [] C i)) ->
  mrd (matrix_multiply_seq A B C n) i j = dot A B n i j /\
  length (matrix_multiply_seq A B C n) = length C.
Proof.
  intros Hi Hin Hj Hjn HC Hrow.
  unfold matrix_multiply_seq.
  rewrite !(fold_left_same (fun C i => product_row A B C n i)
              (fun C i => wr C i (row_of A B n i (rd [] C i))))
    by (intros; apply product_row_slot).
  destruct (slotwise_run [] (fun i => row_of A B n i) (iterations n)
              (NoDup_iterations n) C) as [Hlen Hget].
  split; [|done].
  destruct (lookup_lt_is_Some_2 C (Z.to_nat i)) as [row Hrow']; [lia|].
  assert (Erow : rd [] C i = row)
    by (rewrite <- (Z2Nat.id i) by lia; by apply rd_lookup).
  rewrite Erow in Hrow.
  destruct (slotwise_run undef (fun j _ => dot A B n i j) (iterations n)
              (NoDup_iterations n) row) as [_ Hcell].
  destruct (lookup_lt_is_Some_2 row (Z.to_nat j)) as [x Hx]; [lia|].
  unfold mrd.
  rewrite <- (Z2Nat.id i) at 1 by lia.
  erewrite (rd_lookup [] _ (Z.to_nat i)).
  2:{ rewrite Hget, decide_True by (apply elem_of_iterations; lia).
      rewrite Hrow'. simpl. rewrite Z2Nat.id by lia. reflexivity. }
  rewrite <- (Z2Nat.id j) at 1 by lia.
  erewrite (rd_lookup undef _ (Z.to_nat j)); [reflexivity|].
  rewrite Hcell, decide_True by (apply elem_of_iterations; lia).
  rewrite Hx. simpl. by rewrite Z2Nat.id by lia.
Qed.
End MatrixFacts.

Section VectorFacts.
Context {V : Type}.
Variable undef : V.
Variables (add mul : V -> V -> V).

Abbreviation vector_ops_simd := (vector_ops_simd undef add mul).
Abbreviation square_plus a b :=
  (fun i : Z => add (mul (rd undef a i) (rd undef a i)) (rd undef b i)).

(** The slots of [c] after the two loops. *)
Lemma vector_ops_lookup (first second : list Z -> list Z) (a b c : list V)
    (n : Z) :
  reorders first -> reorders second ->
  length (vector_ops_simd first second a b c n) = length c /\
  forall j : nat,
    vector_ops_simd first second a b c n !! j
    = if decide (Z.of_nat j < n)
      then (fun _ => square_plus a b (Z.of_nat j)) <$> c !! j else c !! j.
Proof.
  intros Hfirst Hsecond. unfold vector_ops_simd. cbv zeta.
  pose proof (Hfirst (iterations n)) as H1.
  pose proof (Hsecond (iterations n)) as H2.
  assert (Hnd1 : NoDup (first (iterations n)))
    by (rewrite H1; apply NoDup_iterations).
  assert (Hnd2 : NoDup (second (iterations n)))
    by (rewrite H2; apply NoDup_iterations).
  destruct (slotwise_run undef (fun i _ => square_plus a b i) _ Hnd1 c)
    as [Hlen1 Hget1].
  set (c1 := fold_left _ (first (iterations n)) c) in *.
  destruct (slotwise_run undef (fun i _ => square_plus a b i) _ Hnd2 c1)
    as [Hlen2 Hget2].
  split; [lia|]. intros j. rewrite Hget2, Hget1.
  destruct (decide (Z.of_nat j < n)) as [Hj|Hj].
  - rewrite !decide_True;
      [|rewrite H1; apply elem_of_iterations; lia
       |rewrite H2; apply elem_of_iterations; lia].
    by destruct (c !! j).
  - rewrite !decide_False; [done|..];
      intros Hin; [rewrite H1 in Hin|rewrite H2 in Hin];
      apply elem_of_iterations in Hin; lia.
Qed.

(** X17: after [vector_ops_simd] every slot [i] below [n] of [c] holds
    [a[i] * a[i] + b[i]], and [c] keeps its length and its slots from [n]
    on, whatever the orders in which the iterations of the two loops
    complete; running the function again on the result changes
    nothing. *)
Theorem vector_ops_simd_pointwise (first second first' second' : list Z -> list Z)
    (a b c : list V) (n : Z) :
  reorders first -> reorders second ->
  reorders first' -> reorders second' ->
  n <= Z.of_nat (length c) ->
  let c' := vector_ops_simd first second a b c n in
  (forall i, 0 <= i < n ->
     rd undef c' i = add (mul (rd undef a i) (rd undef a i)) (rd undef b i)) /\
  length c' = length c /\
  drop (Z.to_nat n) c' = drop (Z.to_nat n) c /\
  vector_ops_simd first' second' a b c' n = c'.
Proof.
  intros Hfirst Hsecond Hfirst' Hsecond' Hn c'.
  destruct (vector_ops_lookup first second a b c n Hfirst Hsecond)
    as [Hlen Hget].
  fold c' in Hlen, Hget.
  destruct (vector_ops_lookup first' second' a b c' n Hfirst' Hsecond')
    as [_ Hget'].
  split; [|split; [done|split]].
  - intros i Hi.
    destruct (lookup_lt_is_Some_2 c (Z.to_nat i)) as [x Hx]; [lia|].
    rewrite <- (Z2Nat.id i) at 1 by lia.
    erewrite (rd_lookup undef c' (Z.to_nat i)); [reflexivity|].
    rewrite Hget, decide_True by lia. rewrite Hx. simpl.
    by rewrite Z2Nat.id by lia.
  - apply list_eq. intros j. rewrite !lookup_drop, Hget.
    rewrite decide_False by lia. done.
  - apply list_eq. intros j. rewrite Hget'.
    destruct (decide (Z.of_nat j < n)) as [Hj|Hj]; [|done].
    rewrite Hget, decide_True by done. by destruct (c !! j).
Qed.
End VectorFacts.

(** ** The thread count of [set_optimal_threads] *)

Lemma all_from_spec (check : Z -> bool) (n : nat) :
  forall start,
    all_from check n start = true ->
    forall z, start <= z -> z < start + Z.of_nat n -> check z = true.
Proof.
  induction n as [|n IH]; intros start Hall z Hlo Hhi; [lia|].
  simpl in Hall. apply andb_true_iff in Hall as [Hstart Hrest].
  destruct (Z.eq_dec z start) as [->|Hne]; [done|].
  apply (IH (start + 1)); [done|lia|lia].
Qed.

Lemma set_optimal_threads_checked :
  all_from (fun n => set_optimal_threads n =? Z.max 2 (4 * n / 5))
    (Z.to_nat 65536) 1
  = true.
Proof. vm_compute. reflexivity. Qed.

(** X18: on a machine with 1 to 65536 processors [set_optimal_threads]
    asks for [4 * num_procs / 5] threads (80 per cent, rounded down) when
    that exceeds 2 and for 2 threads otherwise: never fewer than 2, and
    never more than the processors there are unless there is only one. *)
Theorem set_optimal_threads_value (num_procs : Z) :
  1 <= num_procs -> num_procs <= 65536 ->
  set_optimal_threads num_procs = Z.max 2 (4 * num_procs / 5) /\
  2 <= set_optimal_threads num_procs /\
  set_optimal_threads num_procs <= Z.max 2 num_procs.
Proof.
  intros Hlo Hhi.
  assert (Hval : set_optimal_threads num_procs = Z.max 2 (4 * num_procs / 5)).
  { apply Z.eqb_eq.
    apply (all_from_spec _ _ 1 set_optimal_threads_checked num_procs); lia. }
  rewrite Hval. split; [done|].
  pose proof (Z.div_mod (4 * num_procs) 5).
  pose proof (Z.mod_pos_bound (4 * num_procs) 5). lia.
Qed.

(** ** The file pipeline *)

Lemma wrap_int_small (z : Z) : - 2 ^ 31 <= z -> z < 2 ^ 31 -> wrap_int z = z.
Proof. intros Hlo Hhi. unfold wrap_int. rewrite Z.mod_small; lia. Qed.

(** A loop that stores [h i] in every slot [i] it visits. *)
Lemma filled_slot {X : Type} (d : X) (h : Z -> X) (run : list Z)
    (out : list X) (i : Z) :
  NoDup run -> i ∈ run -> 0 <= i -> i < Z.of_nat (length out) ->
  rd d (fold_left (fun out i => wr out i (h i)) run out) i = h i.
Proof.
  intros Hnd Hin Hi Hlen.
  destruct (slotwise_run d (fun i _ => h i) run Hnd out) as [_ Hget].
  destruct (lookup_lt_is_Some_2 out (Z.to_nat i)) as [x Hx]; [lia|].
  rewrite <- (Z2Nat.id i) at 1 by lia.
  erewrite (rd_lookup d _ (Z.to_nat i)); [reflexivity|].
  rewrite Hget, decide_True by (by rewrite Z2Nat.id by lia).
  rewrite Hx. simpl. by rewrite Z2Nat.id by lia.
Qed.

Lemma filled_length {X : Type} (h : Z -> X) (run : list Z) :
  forall out : list X,
    length (fold_left (fun out i => wr out i (h i)) run out) = length out.
Proof.
  induction run as [|i run IH]; intros out; [done|].
  cbn [fold_left]. by rewrite IH, wr_length.
Qed.

Section Sums.
Variable v : Z -> Z.

Lemma fold_add_shift (its : list Z) :
  forall s, fold_left (fun s i => s + v i) its s
            = s + fold_left (fun s i => s + v i) its 0.
Proof.
  induction its as [|i its IH]; intros s; simpl; [lia|].
  rewrite (IH (s + v i)), (IH (0 + v i)). lia.
Qed.

Lemma fold_add_ge (its : list Z) :
  (forall i, i ∈ its -> 0 <= v i) ->
  forall s, s <= fold_left (fun s i => s + v i) its s.
Proof.
  induction its as [|i its IH]; intros Hv s; simpl; [lia|].
  pose proof (Hv i ltac:(by left)).
  pose proof (IH (fun k Hk => Hv k ltac:(by right)) (s + v i)). lia.
Qed.

(** A sum of non-negative terms that stays below [2^31] never wraps. *)
Lemma sum_no_wrap (its : list Z) :
  (forall i, i ∈ its -> 0 <= v i) ->
  forall s,
    0 <= s -> fold_left (fun s i => s + v i) its s < 2 ^ 31 ->
    fold_left (fun s i => wrap_int (s + v i)) its s
    = fold_left (fun s i => s + v i) its s.
Proof.
  induction its as [|i its IH]; intros Hv s Hs Hmax; [done|].
  cbn [fold_left] in *.
  pose proof (Hv i ltac:(by left)) as Hi.
  pose proof (fold_add_ge its (fun k Hk => Hv k ltac:(by right)) (s + v i)).
  rewrite wrap_int_small by lia.
  apply IH; [intros k Hk; apply Hv; by right|lia|done].
Qed.
End Sums.

Lemma fold_left_over_map {A B C : Type} (f : A -> C -> A) (g : B -> C)
    (l : list B) :
  forall a, fold_left f (map g l) a = fold_left (fun a x => f a (g x)) l a.
Proof. induction l as [|x l IH]; intros a; [done|apply IH]. Qed.

Lemma fold_left_same_in {A B : Type} (f f' : A -> B -> A) (l : list B) :
  (forall a x, x ∈ l -> f a x = f' a x) ->
  forall a, fold_left f l a = fold_left f' l a.
Proof.
  induction l as [|x l IH]; intros Hf a; [done|]. cbn [fold_left].
  rewrite Hf by (by left). apply IH. intros b y Hy. apply Hf. by right.
Qed.

(** The digits [i % 10], doubled, add up to 900 over every hundred
    indices. *)
Lemma doubled_digits_sum (k : nat) :
  fold_left (fun s i => s + Z.rem i 10 * 2) (iterations (100 * Z.of_nat k)) 0
  = 900 * Z.of_nat k.
Proof.
  induction k as [|k IH]; [done|].
  replace (100 * Z.of_nat (S k)) with (100 * Z.of_nat k + 100) by lia.
  rewrite iterations_app by lia. rewrite fold_left_app, IH.
  rewrite fold_left_over_map.
  rewrite (fold_left_same_in _ (fun s i => s + Z.rem i 10 * 2)).
  - rewrite (fold_add_shift (fun i => Z.rem i 10 * 2)).
    change (fold_left _ (iterations 100) 0) with 900. lia.
  - intros s i Hi. apply elem_of_iterations in Hi. f_equal. f_equal.
    rewrite !Z.rem_mod_nonneg by lia.
    replace (100 * Z.of_nat k + i) with (i + (10 * Z.of_nat k) * 10) by lia.
    apply Z_mod_plus_full.
Qed.

(** X19: for a file number from 0 to 2386092 the report of [process_file]
    states [100 * file_id] items and the sum [900 * file_id], whatever the
    two fresh buffers held; for a file number from -21474836 to 0 (which
    is what a name that does not match gives) the loops do not run and the
    sum is 0. *)
Theorem process_file_report (file_id : Z) (parsed_data processed_data : list Z) :
  (0 <= file_id -> file_id <= 2386092 ->
   Z.of_nat (length parsed_data) = 100 * file_id ->
   Z.of_nat (length processed_data) = 100 * file_id ->
   process_file file_id parsed_data processed_data
   = (100 * file_id, 900 * file_id)) /\
  (- 21474836 <= file_id -> file_id <= 0 ->
   process_file file_id parsed_data processed_data = (100 * file_id, 0)).
Proof.
  split.
  - intros Hlo Hhi Hparsed Hprocessed. unfold process_file. cbv zeta.
    rewrite wrap_int_small by lia. rewrite Z.mul_comm. f_equal.
    set (n := 100 * file_id) in *.
    assert (Hstage1 : forall i, i ∈ iterations n ->
              rd 0 (read_stage n parsed_data) i = Z.rem i 10).
    { intros i Hi. pose proof Hi as Hi'. apply elem_of_iterations in Hi'.
      apply (filled_slot 0 (fun i => Z.rem i 10));
        [apply NoDup_iterations|done|lia|lia]. }
    assert (Hstage2 : forall i, i ∈ iterations n ->
              rd 0 (process_stage n (read_stage n parsed_data) processed_data) i
              = Z.rem i 10 * 2).
    { intros i Hi. pose proof Hi as Hi'. apply elem_of_iterations in Hi'.
      unfold process_stage.
      rewrite (filled_slot 0
                 (fun i => wrap_int (rd 0 (read_stage n parsed_data) i * 2)));
        [|apply NoDup_iterations|done|lia|lia].
      rewrite Hstage1 by done.
      pose proof (Z.rem_bound_pos i 10). apply wrap_int_small; lia. }
    unfold report_sum.
    rewrite (fold_left_same_in _ (fun sum i => wrap_int (sum + Z.rem i 10 * 2)))
      by (intros s i Hi; by rewrite Hstage2).
    assert (Hsum : fold_left (fun s i => s + Z.rem i 10 * 2) (iterations n) 0
                   = 900 * file_id).
    { subst n. rewrite <- (Z2Nat.id file_id) by lia.
      rewrite doubled_digits_sum. done. }
    rewrite (sum_no_wrap (fun i => Z.rem i 10 * 2)); [done| |lia|lia].
    intros i Hi. apply elem_of_iterations in Hi.
    pose proof (Z.rem_bound_pos i 10). lia.
  - intros Hlo Hhi. unfold process_file. cbv zeta.
    rewrite wrap_int_small by lia. rewrite Z.mul_comm. f_equal.
    unfold report_sum, iterations.
    by replace (Z.to_nat (100 * file_id)) with 0%nat by lia.
Qed.

(** ** The further properties at concrete inputs *)

Lemma mergesort_serial_sorts_witness :
  0 <= 1 /\ 1 <= 5 + 1 /\
  5 + 1 <= Z.of_nat (length (map double_of_int [9; 5; 3; 1; 4; 2; 7])) /\
  5 + 1 <= Z.of_nat (length (repeat double_nan 7)) /\
  comparable double_leb
    (slice (map double_of_int [9; 5; 3; 1; 4; 2; 7]) 1 (5 + 1)) /\
  sorted double_leb
    (slice (mergesort_serial double_nan double_leb
              (map double_of_int [9; 5; 3; 1; 4; 2; 7])
              (repeat double_nan 7) 1 5).1 1 (5 + 1)) /\
  slice (mergesort_serial double_nan double_leb
           (map double_of_int [9; 5; 3; 1; 4; 2; 7])
           (repeat double_nan 7) 1 5).1 0 1
  = slice (map double_of_int [9; 5; 3; 1; 4; 2; 7]) 0 1.
Proof.
  assert (H1 : 0 <= 1) by lia.
  assert (H2 : 1 <= 5 + 1) by lia.
  assert (H3 : 5 + 1
               <= Z.of_nat (length (map double_of_int [9; 5; 3; 1; 4; 2; 7])))
    by (simpl; lia).
  assert (H4 : 5 + 1 <= Z.of_nat (length (repeat double_nan 7)))
    by (simpl; lia).
  assert (H5 : comparable double_leb
                 (slice (map double_of_int [9; 5; 3; 1; 4; 2; 7]) 1 (5 + 1)))
    by (apply double_comparable; vm_compute; repeat constructor).
  destruct (mergesort_serial_sorts double_nan double_leb
              (map double_of_int [9; 5; 3; 1; 4; 2; 7])
              (repeat double_nan 7) 1 5 H1 H2 H3 H4) as (Hs & _ & _ & Hpre & _).
  exact (conj H1 (conj H2 (conj H3 (conj H4 (conj H5 (conj (Hs H5) Hpre)))))).
Defined.

Lemma mergesort_parallel_frame_witness :
  0 <= 1 /\ 1 <= 5 + 1 /\
  5 + 1 <= Z.of_nat (length [9; 5; 3; 1; 4; 2; 7]) /\
  5 + 1 <= Z.of_nat (length (repeat 0 7)) /\
  drop (Z.to_nat (5 + 1))
    (mergesort_parallel 0 Z.leb (fun _ _ => true) [9; 5; 3; 1; 4; 2; 7]
       (repeat 0 7) 1 5 2).1.2
  = drop (Z.to_nat (5 + 1)) (repeat 0 7).
Proof.
  assert (H1 : 0 <= 1) by lia.
  assert (H2 : 1 <= 5 + 1) by lia.
  assert (H3 : 5 + 1 <= Z.of_nat (length [9; 5; 3; 1; 4; 2; 7])) by (simpl; lia).
  assert (H4 : 5 + 1 <= Z.of_nat (length (repeat 0 7))) by (simpl; lia).
  destruct (mergesort_parallel_frame 0 Z.leb (fun _ _ => true)
              [9; 5; 3; 1; 4; 2; 7] (repeat 0 7) 1 5 2 H1 H2 H3 H4)
    as (_ & _ & _ & _ & _ & Hpost & _).
  exact (conj H1 (conj H2 (conj H3 (conj H4 Hpost)))).
Defined.

Lemma parallel_sort_stable_witness :
  (forall x y z : double,
     double_leb x y = true -> double_leb y z = true -> double_leb x z = true) /\
  comparable double_leb
    (slice [double_of_int 1; S754_zero true; double_of_int 2; S754_zero false]
       0 4) /\
  0 <= 4 /\
  4 <= Z.of_nat (length [double_of_int 1; S754_zero true; double_of_int 2;
                         S754_zero false]) /\
  Z.of_nat (length (repeat double_nan 4)) = 4 /\
  List.filter (tie double_leb (S754_zero false))
    (slice (parallel_sort double_nan double_leb (fun _ _ => true)
              (Some (repeat double_nan 4)) 4
              [double_of_int 1; S754_zero true; double_of_int 2;
               S754_zero false] 4) 0 4)
  = List.filter (tie double_leb (S754_zero false))
      (slice [double_of_int 1; S754_zero true; double_of_int 2;
              S754_zero false] 0 4) /\
  List.filter (tie double_leb (S754_zero false))
    (slice [double_of_int 1; S754_zero true; double_of_int 2; S754_zero false]
       0 4)
  = [S754_zero true; S754_zero false].
Proof.
  assert (H0 : forall x y z : double,
             double_leb x y = true -> double_leb y z = true ->
             double_leb x z = true) by exact double_leb_trans.
  assert (Hc : comparable double_leb
                 (slice [double_of_int 1; S754_zero true; double_of_int 2;
                         S754_zero false] 0 4))
    by (apply double_comparable; vm_compute; repeat constructor).
  assert (H1 : 0 <= 4) by lia.
  assert (H2 : 4 <= Z.of_nat (length [double_of_int 1; S754_zero true;
                                      double_of_int 2; S754_zero false]))
    by (simpl; lia).
  assert (H3 : Z.of_nat (length (repeat double_nan 4)) = 4) by reflexivity.
  exact (conj H0 (conj Hc (conj H1 (conj H2 (conj H3 (conj
           (parallel_sort_stable double_nan double_leb (fun _ _ => true)
              (repeat double_nan 4)
              [double_of_int 1; S754_zero true; double_of_int 2;
               S754_zero false] 4 4 (S754_zero false) H0 Hc H1 H2 H3)
           eq_refl)))))).
Defined.

Lemma parallel_sort_buffer_independent_witness :
  0 <= 5 /\ 5 <= Z.of_nat (length [5; 3; 1; 4; 2]) /\
  Z.of_nat (length [0; 0; 0; 0; 0]) = 5 /\
  Z.of_nat (length [7; 8; 9; 7; 8]) = 5 /\
  parallel_sort 0 Z.leb (fun _ _ => true) (Some [0; 0; 0; 0; 0]) 4
    [5; 3; 1; 4; 2] 5
  = parallel_sort 0 Z.leb (fun _ _ => false) (Some [7; 8; 9; 7; 8]) 0
      [5; 3; 1; 4; 2] 5.
Proof.
  assert (H1 : 0 <= 5) by lia.
  assert (H2 : 5 <= Z.of_nat (length [5; 3; 1; 4; 2])) by (simpl; lia).
  assert (H3 : Z.of_nat (length [0; 0; 0; 0; 0]) = 5) by reflexivity.
  assert (H4 : Z.of_nat (length [7; 8; 9; 7; 8]) = 5) by reflexivity.
  exact (conj H1 (conj H2 (conj H3 (conj H4
           (parallel_sort_buffer_independent 0 Z.leb (fun _ _ => true)
              (fun _ _ => false) [0; 0; 0; 0; 0] [7; 8; 9; 7; 8]
              [5; 3; 1; 4; 2] 4 0 5 H1 H2 H3 H4))))).
Defined.

Lemma is_sorted_iff_sorted_witness :
  0 <= 3 /\ 3 <= Z.of_nat (length (map double_of_int [1; 2; 2; 0])) /\
  (forall x y,
     x ∈ slice (map double_of_int [1; 2; 2; 0]) 0 3 ->
     y ∈ slice (map double_of_int [1; 2; 2; 0]) 0 3 ->
     double_ltb x y = negb (double_leb y x)) /\
  (is_sorted double_nan double_ltb (map double_of_int [1; 2; 2; 0]) 3 = true
   <-> sorted double_leb (slice (map double_of_int [1; 2; 2; 0]) 0 3)).
Proof.
  assert (H1 : 0 <= 3) by lia.
  assert (H2 : 3 <= Z.of_nat (length (map double_of_int [1; 2; 2; 0])))
    by (simpl; lia).
  assert (H3 : forall x y,
             x ∈ slice (map double_of_int [1; 2; 2; 0]) 0 3 ->
             y ∈ slice (map double_of_int [1; 2; 2; 0]) 0 3 ->
             double_ltb x y = negb (double_leb y x))
    by (apply double_strict; vm_compute; repeat constructor).
  exact (conj H1 (conj H2 (conj H3
           (proj2 (is_sorted_iff_sorted double_nan double_leb double_ltb
                     (map double_of_int [1; 2; 2; 0]) 3 H1 H2) H3)))).
Defined.

(** With a NaN the loop of [test_sort] keeps its flag on an array that is
    not in order: neither [NaN < 1] nor [0 < NaN] holds. *)
Example is_sorted_across_nan :
  is_sorted double_nan double_ltb
    [double_of_int 1; double_nan; double_of_int 0] 3 = true /\
  double_leb (double_of_int 1) (double_of_int 0) = false.
Proof. split; vm_compute; reflexivity. Qed.

Lemma test_sort_passes_witness :
  (forall x y, double_ltb x y = true -> double_leb x y = true) /\
  (forall x y, double_leb x y = true -> double_ltb y x = false) /\
  0 <= 4 /\
  4 <= Z.of_nat (length [double_of_int 2; double_nan; double_of_int 3;
                         double_of_int 1]) /\
  Z.of_nat (length (repeat double_nan 4)) = 4 /\
  is_sorted double_nan double_ltb
    (parallel_sort double_nan double_leb (fun _ _ => true)
       (Some (repeat double_nan 4)) 4
       [double_of_int 2; double_nan; double_of_int 3; double_of_int 1] 4) 4
  = true.
Proof.
  assert (Hlt : forall x y, double_ltb x y = true -> double_leb x y = true)
    by exact double_ltb_leb.
  assert (Hle : forall x y, double_leb x y = true -> double_ltb y x = false)
    by exact double_leb_not_gt.
  assert (H1 : 0 <= 4) by lia.
  assert (H2 : 4 <= Z.of_nat (length [double_of_int 2; double_nan;
                                      double_of_int 3; double_of_int 1]))
    by (simpl; lia).
  assert (H3 : Z.of_nat (length (repeat double_nan 4)) = 4) by reflexivity.
  exact (conj Hlt (conj Hle (conj H1 (conj H2 (conj H3
           (test_sort_passes double_nan double_leb double_ltb
              (fun _ _ => true) (repeat double_nan 4)
              [double_of_int 2; double_nan; double_of_int 3; double_of_int 1]
              4 4 Hlt Hle H1 H2 H3)))))).
Defined.

Lemma rev_reorders : reorders (@rev Z).
Proof. intros its. symmetry. apply Permutation_rev. Qed.

Lemma same_order_reorders : reorders (fun its : list Z => its).
Proof. intros its. reflexivity. Qed.

Lemma parallel_transform_in_place_pointwise_witness :
  reorders (@rev Z) /\ 3 <= Z.of_nat (length [1; 4; 9; 7]) /\
  (forall i, 0 <= i < 3 ->
     rd 0 (parallel_transform_in_place 0 (@rev Z) [1; 4; 9; 7] 3 Z.sqrt) i
     = Z.sqrt (rd 0 [1; 4; 9; 7] i)).
Proof.
  assert (H1 : reorders (@rev Z)) by exact rev_reorders.
  assert (H2 : 3 <= Z.of_nat (length [1; 4; 9; 7])) by (simpl; lia).
  exact (conj H1 (conj H2
           (proj1 (parallel_transform_in_place_pointwise 0 (@rev Z)
                     [1; 4; 9; 7] 3 Z.sqrt H1 H2)))).
Defined.

Lemma parallel_transform_compose_witness :
  reorders (@rev Z) /\ reorders (fun its : list Z => its) /\
  0 <= 3 /\ 3 <= Z.of_nat (length [1; 4; 9]) /\
  3 <= Z.of_nat (length [0; 0; 0]) /\ 3 <= Z.of_nat (length [5; 5; 5; 5]) /\
  parallel_transform 0 (fun its => its)
    (parallel_transform 0 (@rev Z) [1; 4; 9] [0; 0; 0] 3 Z.sqrt)
    [5; 5; 5; 5] 3 Z.succ
  = parallel_transform 0 (@rev Z) [1; 4; 9] [5; 5; 5; 5] 3
      (fun x => Z.succ (Z.sqrt x)).
Proof.
  assert (H1 : reorders (@rev Z)) by exact rev_reorders.
  assert (H2 : reorders (fun its : list Z => its)) by exact same_order_reorders.
  assert (H3 : 0 <= 3) by lia.
  assert (H4 : 3 <= Z.of_nat (length [1; 4; 9])) by (simpl; lia).
  assert (H5 : 3 <= Z.of_nat (length [0; 0; 0])) by (simpl; lia).
  assert (H6 : 3 <= Z.of_nat (length [5; 5; 5; 5])) by (simpl; lia).
  exact (conj H1 (conj H2 (conj H3 (conj H4 (conj H5 (conj H6
           (parallel_transform_compose 0 (@rev Z) (fun its => its) (@rev Z)
              [1; 4; 9] [0; 0; 0] [5; 5; 5; 5] 3 Z.sqrt Z.succ
              H1 H2 H1 H3 H4 H5 H6))))))).
Defined.

Lemma far_itself (x : Z) : (1 <? Z.abs (x - x)) = false.
Proof. by rewrite Z.sub_diag. Qed.

Lemma test_transform_no_errors_witness :
  (forall x : Z, (1 <? Z.abs (x - x)) = false) /\
  reorders (@rev Z) /\
  3 <= Z.of_nat (length [1; 4; 9]) /\ 3 <= Z.of_nat (length [0; 0; 0]) /\
  3 <= Z.of_nat (length [8; 8; 8]) /\
  count_errors 0 (fun x y => 1 <? Z.abs (x - y))
    (parallel_transform 0 (@rev Z) [1; 4; 9] [0; 0; 0] 3 Z.sqrt)
    (fill_expected 0 Z.sqrt [1; 4; 9] [8; 8; 8] 3) 3
  = 0.
Proof.
  assert (H0 : forall x : Z, (1 <? Z.abs (x - x)) = false) by exact far_itself.
  assert (H1 : reorders (@rev Z)) by exact rev_reorders.
  assert (H2 : 3 <= Z.of_nat (length [1; 4; 9])) by (simpl; lia).
  assert (H3 : 3 <= Z.of_nat (length [0; 0; 0])) by (simpl; lia).
  assert (H4 : 3 <= Z.of_nat (length [8; 8; 8])) by (simpl; lia).
  exact (conj H0 (conj H1 (conj H2 (conj H3 (conj H4
           (test_transform_no_errors 0 (fun x y => 1 <? Z.abs (x - y))
              (@rev Z) [1; 4; 9] [0; 0; 0] [8; 8; 8] 3 Z.sqrt
              H0 H1 H2 H3 H4)))))).
Defined.

Lemma same_prefix_3 (i : Z) :
  0 <= i < 3 ->
  rd (Fin 0) (map Fin [1; 2; 3]) i = rd (Fin 0) (map Fin [1; 2; 3; 99]) i.
Proof.
  intros Hi. assert (Hcases : i = 0 \/ i = 1 \/ i = 2) by lia.
  destruct Hcases as [-> | [-> | ->]]; reflexivity.
Qed.

Lemma parallel_reduce_reads_prefix_witness :
  distributes three_threads /\
  (forall i, 0 <= i < 3 ->
     rd (Fin 0) (map Fin [1; 2; 3]) i = rd (Fin 0) (map Fin [1; 2; 3; 99]) i) /\
  parallel_reduce (Fin 0) xadd xmul (Fin 0) (Fin 1) xltb NegInf PosInf
    three_threads (map Fin [1; 2; 3]) 3 (Fin 10) 0
  = parallel_reduce (Fin 0) xadd xmul (Fin 0) (Fin 1) xltb NegInf PosInf
      three_threads (map Fin [1; 2; 3; 99]) 3 (Fin 10) 0.
Proof.
  assert (H1 : distributes three_threads) by exact three_threads_distributes.
  assert (H2 : forall i, 0 <= i < 3 ->
            rd (Fin 0) (map Fin [1; 2; 3]) i
            = rd (Fin 0) (map Fin [1; 2; 3; 99]) i) by exact same_prefix_3.
  exact (conj H1 (conj H2
           (parallel_reduce_reads_prefix (Fin 0) xadd xmul (Fin 0) (Fin 1)
              xltb NegInf PosInf three_threads (map Fin [1; 2; 3])
              (map Fin [1; 2; 3; 99]) 3 (Fin 10) 0 H1 H2))).
Defined.

Lemma parallel_reduce_max_min_bounds_witness :
  distributes three_threads /\
  5 <= Z.of_nat (length (map Fin [3; 1; 4; 1; 5])) /\
  xleb (Fin 2)
    (parallel_reduce (Fin 0) xadd xmul (Fin 0) (Fin 1) xltb NegInf PosInf
       three_threads (map Fin [3; 1; 4; 1; 5]) 5 (Fin 2) 2) = true /\
  xleb
    (parallel_reduce (Fin 0) xadd xmul (Fin 0) (Fin 1) xltb NegInf PosInf
       three_threads (map Fin [3; 1; 4; 1; 5]) 5 (Fin 2) 3) (Fin 2) = true.
Proof.
  assert (H1 : distributes three_threads) by exact three_threads_distributes.
  assert (H2 : 5 <= Z.of_nat (length (map Fin [3; 1; 4; 1; 5])))
    by (simpl; lia).
  destruct (parallel_reduce_max_min_bounds (Fin 0) xadd xmul (Fin 0) (Fin 1)
              xleb xltb NegInf PosInf xadd_assoc xadd_comm xadd_zero xmul_assoc
              xmul_comm xmul_one xleb_total xleb_trans xleb_antisym
              xleb_neg_inf xleb_pos_inf xltb_xleb three_threads
              (map Fin [3; 1; 4; 1; 5]) 5 (Fin 2) H1 H2)
    as [(Hhi & _) (Hlo & _)].
  exact (conj H1 (conj H2 (conj Hhi Hlo))).
Defined.

Lemma parallel_reduce_after_sort_witness :
  operator_of_code 0 = Some Sum /\
  distributes three_threads /\ distributes (fun its => [its]) /\
  0 <= 5 /\ 5 <= Z.of_nat (length (map Fin [3; 1; 4; 1; 5])) /\
  Z.of_nat (length (repeat NegInf 5)) = 5 /\
  parallel_reduce (Fin 0) xadd xmul (Fin 0) (Fin 1) xltb NegInf PosInf
    three_threads
    (parallel_sort (Fin 0) xleb (fun _ _ => true) (Some (repeat NegInf 5)) 4
       (map Fin [3; 1; 4; 1; 5]) 5) 5 (Fin 0) 0
  = parallel_reduce (Fin 0) xadd xmul (Fin 0) (Fin 1) xltb NegInf PosInf
      (fun its => [its]) (map Fin [3; 1; 4; 1; 5]) 5 (Fin 0) 0.
Proof.
  assert (H1 : operator_of_code 0 = Some Sum) by reflexivity.
  assert (H2 : distributes three_threads) by exact three_threads_distributes.
  assert (H3 : distributes (fun its : list Z => [its]))
    by (intros its; simpl; by rewrite app_nil_r).
  assert (H4 : 0 <= 5) by lia.
  assert (H5 : 5 <= Z.of_nat (length (map Fin [3; 1; 4; 1; 5])))
    by (simpl; lia).
  assert (H6 : Z.of_nat (length (repeat NegInf 5)) = 5) by reflexivity.
  exact (conj H1 (conj H2 (conj H3 (conj H4 (conj H5 (conj H6
           (parallel_reduce_after_sort (Fin 0) xadd xmul (Fin 0) (Fin 1)
              xleb xltb NegInf PosInf xadd_assoc xadd_comm xadd_zero xmul_assoc
              xmul_comm xmul_one xleb_total xleb_trans xleb_antisym
              xleb_neg_inf xleb_pos_inf xltb_xleb three_threads (fun its => [its])
              (fun _ _ => true) (repeat NegInf 5) (map Fin [3; 1; 4; 1; 5])
              4 5 (Fin 0) 0 Sum H1 H2 H3 H4 H5 H6))))))).
Defined.

Lemma parallel_reduce_sorted_ends_witness :
  distributes three_threads /\ 1 <= 4 /\
  4 <= Z.of_nat (length (map Fin [1; 3; 3; 8])) /\
  sorted xleb (slice (map Fin [1; 3; 3; 8]) 0 4) /\
  parallel_reduce (Fin 0) xadd xmul (Fin 0) (Fin 1) xltb NegInf PosInf
    three_threads (map Fin [1; 3; 3; 8]) 4 PosInf 3
  = rd (Fin 0) (map Fin [1; 3; 3; 8]) 0 /\
  parallel_reduce (Fin 0) xadd xmul (Fin 0) (Fin 1) xltb NegInf PosInf
    three_threads (map Fin [1; 3; 3; 8]) 4 NegInf 2
  = rd (Fin 0) (map Fin [1; 3; 3; 8]) (4 - 1).
Proof.
  assert (H1 : distributes three_threads) by exact three_threads_distributes.
  assert (H2 : 1 <= 4) by lia.
  assert (H3 : 4 <= Z.of_nat (length (map Fin [1; 3; 3; 8]))) by (simpl; lia).
  assert (H4 : sorted xleb (slice (map Fin [1; 3; 3; 8]) 0 4))
    by (repeat constructor).
  exact (conj H1 (conj H2 (conj H3 (conj H4
           (parallel_reduce_sorted_ends (Fin 0) xadd xmul (Fin 0) (Fin 1)
              xleb xltb NegInf PosInf xadd_assoc xadd_comm xadd_zero xmul_assoc
              xmul_comm xmul_one xleb_total xleb_trans xleb_antisym
              xleb_neg_inf xleb_pos_inf xltb_xleb three_threads
              (map Fin [1; 3; 3; 8]) 4 H1 H2 H3 H4))))).
Defined.

Lemma matrix_multiply_parallel_seq_witness :
  reorders (@rev Z) /\
  matrix_multiply_parallel 0 Z.add Z.mul 0 (@rev Z)
    [[1; 2]; [3; 4]] [[5; 6]; [7; 8]] [[9; 9]; [9; 9]] 2
  = matrix_multiply_seq 0 Z.add Z.mul 0
      [[1; 2]; [3; 4]] [[5; 6]; [7; 8]] [[9; 9]; [9; 9]] 2.
Proof.
  assert (H1 : reorders (@rev Z)) by exact rev_reorders.
  exact (conj H1
           (matrix_multiply_parallel_seq 0 Z.add Z.mul 0 (@rev Z)
              [[1; 2]; [3; 4]] [[5; 6]; [7; 8]] [[9; 9]; [9; 9]] 2 H1)).
Defined.

Lemma matrix_multiply_seq_cells_witness :
  0 <= 1 /\ 1 < 2 /\ 0 <= 0 /\ 0 < 2 /\
  2 <= Z.of_nat (length [[9; 9]; [9; 9]]) /\
  2 <= Z.of_nat (length (rd [] [[9; 9]; [9; 9]] 1)) /\
  mrd 0 (matrix_multiply_seq 0 Z.add Z.mul 0
           [[1; 2]; [3; 4]] [[5; 6]; [7; 8]] [[9; 9]; [9; 9]] 2) 1 0
  = dot 0 Z.add Z.mul 0 [[1; 2]; [3; 4]] [[5; 6]; [7; 8]] 2 1 0.
Proof.
  assert (H1 : 0 <= 1) by lia.
  assert (H2 : 1 < 2) by lia.
  assert (H3 : 0 <= 0) by lia.
  assert (H4 : 0 < 2) by lia.
  assert (H5 : 2 <= Z.of_nat (length [[9; 9]; [9; 9]])) by (simpl; lia).
  assert (H6 : 2 <= Z.of_nat (length (rd [] [[9; 9]; [9; 9]] 1)))
    by (simpl; lia).
  exact (conj H1 (conj H2 (conj H3 (conj H4 (conj H5 (conj H6
           (proj1 (matrix_multiply_seq_cells 0 Z.add Z.mul 0
                     [[1; 2]; [3; 4]] [[5; 6]; [7; 8]] [[9; 9]; [9; 9]] 2 1 0
                     H1 H2 H3 H4 H5 H6)))))))).
Defined.

Lemma vector_ops_simd_pointwise_witness :
  reorders (@rev Z) /\ reorders (fun its : list Z => its) /\
  3 <= Z.of_nat (length [0; 0; 0; 7]) /\
  (forall i, 0 <= i < 3 ->
     rd 0 (vector_ops_simd 0 Z.add Z.mul (@rev Z) (fun its => its)
             [1; 2; 3] [10; 20; 30] [0; 0; 0; 7] 3) i
     = rd 0 [1; 2; 3] i * rd 0 [1; 2; 3] i + rd 0 [10; 20; 30] i).
Proof.
  assert (H1 : reorders (@rev Z)) by exact rev_reorders.
  assert (H2 : reorders (fun its : list Z => its)) by exact same_order_reorders.
  assert (H3 : 3 <= Z.of_nat (length [0; 0; 0; 7])) by (simpl; lia).
  exact (conj H1 (conj H2 (conj H3
           (proj1 (vector_ops_simd_pointwise 0 Z.add Z.mul (@rev Z)
                     (fun its => its) (fun its => its) (@rev Z)
                     [1; 2; 3] [10; 20; 30] [0; 0; 0; 7] 3
                     H1 H2 H2 H1 H3))))).
Defined.

Lemma set_optimal_threads_value_witness :
  1 <= 8 /\ 8 <= 65536 /\ set_optimal_threads 8 = Z.max 2 (4 * 8 / 5).
Proof.
  assert (H1 : 1 <= 8) by lia.
  assert (H2 : 8 <= 65536) by lia.
  exact (conj H1 (conj H2 (proj1 (set_optimal_threads_value 8 H1 H2)))).
Defined.

Lemma process_file_report_witness :
  0 <= 3 /\ 3 <= 2386092 /\
  Z.of_nat (length (repeat 7 300)) = 100 * 3 /\
  Z.of_nat (length (repeat 8 300)) = 100 * 3 /\
  process_file 3 (repeat 7 300) (repeat 8 300) = (100 * 3, 900 * 3).
Proof.
  assert (H1 : 0 <= 3) by lia.
  assert (H2 : 3 <= 2386092) by lia.
  assert (H3 : Z.of_nat (length (repeat 7 300)) = 100 * 3)
    by (vm_compute; reflexivity).
  assert (H4 : Z.of_nat (length (repeat 8 300)) = 100 * 3)
    by (vm_compute; reflexivity).
  exact (conj H1 (conj H2 (conj H3 (conj H4
           (proj1 (process_file_report 3 (repeat 7 300) (repeat 8 300))
              H1 H2 H3 H4))))).
Defined.
